(** * js-rpc: the RPC protocol engine of [src/lib.js]

    A shallow embedding of the frame codec, the message codec, the cipher
    state derivation, the client engine, the server engine, the reconnect
    loop and the byte and text helpers of [src/lib.js], followed by the
    properties of the specification that were checked against it and by
    further properties of the code.

    Conventions.
    - A [Uint8Array] is a [list byte]; a view made by [subarray] is the
      list of the bytes it covers (the buffers the codec slices are never
      written after they are built, so views and copies agree).
    - JavaScript numbers that the code uses as integers are [Z] (32-bit
      wrap-around written out where the code uses bit operators) or [nat]
      (offsets and lengths).
    - A function that can throw returns a [result]; an [async] function is
      its synchronous body up to each [await], with one definition per
      resumption.
    - The JavaScript [Map] of pending calls is a [gmap]; promises live in a
      heap indexed by the order of their creation. *)

From stdpp Require Import gmap strings list pretty.
From Stdlib Require Import ZArith.
From Stdlib.Strings Require Import Byte.

Set Warnings "-register-all".

(* ===================================================================== *)
(** * Part I: the model                                                   *)
(* ===================================================================== *)

(** ** JavaScript values that cross the wire *)

(** The values the serializer carries.  An object is its list of own
    properties in insertion order. *)
Inductive value :=
| VUndefined
| VNull
| VBool (b : bool)
| VNum (n : Z)
| VStr (s : string)
| VBytes (b : list byte)
| VArr (l : list value)
| VObj (fields : list (string * value)).

(** What a [throw] or a promise rejection carries. *)
Inductive exn :=
| RangeError (msg : string)
| TypeError (msg : string)
| PlainError (msg : string)
| OperationError
| RPCError (message : value) (stack : option value)
| CarrierError (reason : value).

Inductive result (A : Type) :=
| Ok (a : A)
| Throw (e : exn).
Arguments Ok {A} a.
Arguments Throw {A} e.

#[global] Instance result_ret : MRet result := fun A a => Ok a.
#[global] Instance result_bind : MBind result := fun A B f r =>
  match r with
  | Ok a => f a
  | Throw e => Throw e
  end.

Abbreviation Uint8Array := (list byte).

#[global] Instance byte_eq_decision : EqDecision byte := Byte.byte_eq_dec.

(** ** 32-bit integer operators of JavaScript *)

Module Js.

Definition ToInt32 (x : Z) : Z := ((x + 2 ^ 31) mod 2 ^ 32 - 2 ^ 31)%Z.
Definition ToUint32 (x : Z) : Z := (x mod 2 ^ 32)%Z.

(** [a & b], [a | b], [a << n], [a >> n], [a >>> 0] *)
Definition and (a b : Z) : Z := Z.land (ToInt32 a) (ToInt32 b).
Definition or (a b : Z) : Z := Z.lor (ToInt32 a) (ToInt32 b).
Definition shl (a n : Z) : Z := ToInt32 (Z.shiftl (ToInt32 a) (ToUint32 n mod 32)).
Definition sar (a n : Z) : Z := Z.shiftr (ToInt32 a) (ToUint32 n mod 32).
Definition ushr0 (a : Z) : Z := ToUint32 a.

(** The number read from a byte cell, and the byte a number is stored
    as (an element store of a [Uint8Array] keeps the value modulo 256). *)
Definition u8 (b : byte) : Z := Z.of_N (Byte.to_N b).
Definition to_u8 (z : Z) : byte :=
  match Byte.of_N (Z.to_N (z mod 256)) with
  | Some b => b
  | None => x00
  end.

(** [buffer[i]] under a bit operator: a missing cell is [undefined],
    which the operator turns into 0. *)
Definition cell (buffer : Uint8Array) (i : nat) : Z :=
  match buffer !! i with
  | Some b => u8 b
  | None => 0%Z
  end.

End Js.

(** ** Byte helpers *)

(** [readUInt32LE(buffer, offset)] *)
Definition readUInt32LE (buffer : Uint8Array) (offset : nat) : result Z :=
  if length buffer <? offset + 4 then Throw (RangeError "Reading out of bounds")
  else Ok (Js.ushr0
             (Js.or (Js.or (Js.or (Js.and (Js.cell buffer offset) 0xff)
                                  (Js.shl (Js.and (Js.cell buffer (offset + 1)) 0xff) 8))
                           (Js.shl (Js.and (Js.cell buffer (offset + 2)) 0xff) 16))
                    (Js.shl (Js.and (Js.cell buffer (offset + 3)) 0xff) 24))).

(** [writeUInt32LE(buffer, value, offset)]: the buffer after the four
    element stores. *)
Definition writeUInt32LE (buffer : Uint8Array) (value : Z) (offset : nat)
  : result Uint8Array :=
  if length buffer <? offset + 4 then Throw (RangeError "Writing out of bounds")
  else
    let buffer := <[offset := Js.to_u8 (Js.and value 0xff)]> buffer in
    let buffer := <[offset + 1 := Js.to_u8 (Js.and (Js.sar value 8) 0xff)]> buffer in
    let buffer := <[offset + 2 := Js.to_u8 (Js.and (Js.sar value 16) 0xff)]> buffer in
    let buffer := <[offset + 3 := Js.to_u8 (Js.and (Js.sar value 24) 0xff)]> buffer in
    Ok buffer.

(** [target.set(source, offset)] of a typed array. *)
Definition TypedArray_set (target source : Uint8Array) (offset : nat)
  : result Uint8Array :=
  if length target <? offset + length source
  then Throw (RangeError "offset is out of bounds")
  else Ok (take offset target ++ source ++ drop (offset + length source) target).

(** The loop of [Uint8Array_concat]: [resultBuffer] and [offset] are
    threaded through the buffers. *)
Fixpoint Uint8Array_concat_loop (buffers : list Uint8Array)
    (resultBuffer : Uint8Array) (offset : nat) : result Uint8Array :=
  match buffers with
  | [] => Ok resultBuffer
  | buffer :: buffers =>
      resultBuffer ← TypedArray_set resultBuffer buffer offset;
      Uint8Array_concat_loop buffers resultBuffer (offset + length buffer)
  end.

(** [Uint8Array_concat(buffers)] *)
Definition Uint8Array_concat (buffers : list Uint8Array) : result Uint8Array :=
  let totalLength := foldl (fun sum buffer => sum + length buffer) 0 buffers in
  let resultBuffer := replicate totalLength x00 in
  Uint8Array_concat_loop buffers resultBuffer 0.

(** [buffer.subarray(begin)] and [buffer.subarray(begin, end)] for
    non-negative indices. *)
Definition subarray_from (buffer : Uint8Array) (begin : nat) : Uint8Array :=
  drop begin buffer.
Definition subarray (buffer : Uint8Array) (begin end_ : nat) : Uint8Array :=
  take (end_ - begin) (drop begin buffer).

(** ** The Web Crypto interface

    [crypto.subtle] is the platform's; the code only passes parameters to
    it.  Each operation receives the parameter records the code builds.
    The operations other than [decrypt] are given as returning: they are
    those of a key and an IV that [buildKeyIv] derived, which AES-GCM
    takes; what is proved of [encrypt] with a key is about such keys. *)

Record Pbkdf2Params := {
  pbkdf2_name : string;
  pbkdf2_salt : Uint8Array;
  pbkdf2_iterations : nat;
  pbkdf2_hash : string;
}.

Record AesKeyGenParams := {
  aes_name : string;
  aes_length : nat;
}.

Record AesGcmParams := {
  gcm_name : string;
  gcm_iv : option Uint8Array;
}.

Class SubtleCrypto := {
  CryptoKey : Type;
  subtle_importKey :
    string -> Uint8Array -> string -> bool -> list string -> CryptoKey;
  subtle_digest : string -> Uint8Array -> Uint8Array;
  subtle_deriveKey :
    Pbkdf2Params -> CryptoKey -> AesKeyGenParams -> bool -> list string -> CryptoKey;
  subtle_deriveBits : Pbkdf2Params -> CryptoKey -> nat -> Uint8Array;
  subtle_encrypt : AesGcmParams -> CryptoKey -> Uint8Array -> Uint8Array;
  subtle_decrypt : AesGcmParams -> CryptoKey -> Uint8Array -> result Uint8Array;
}.

(** [new TextEncoder().encode(s)]: a [string] is kept as its UTF-8 bytes. *)
Definition TextEncoder_encode (s : string) : Uint8Array :=
  String.list_byte_of_string s.

Definition JS_RPC_WITH_CRYPTO : bool := true.

Section Cipher.
Context `{SubtleCrypto}.

(** [buildKeyIv(password, iterations)] *)
Definition buildKeyIv (password : string) (iterations : nat)
  : option CryptoKey * option Uint8Array :=
  if negb JS_RPC_WITH_CRYPTO then (None, None)
  else if String.eqb password EmptyString then (None, None)
  else
    let keyMaterial :=
      subtle_importKey "raw" (TextEncoder_encode password) "PBKDF2" false
        ["deriveBits"; "deriveKey"] in
    let salt := subtle_digest "SHA-512" (TextEncoder_encode password) in
    let pbkdf2Params :=
      {| pbkdf2_name := "PBKDF2"; pbkdf2_salt := salt;
         pbkdf2_iterations := iterations; pbkdf2_hash := "SHA-256" |} in
    let key :=
      subtle_deriveKey pbkdf2Params keyMaterial
        {| aes_name := "AES-GCM"; aes_length := 256 |} true
        ["encrypt"; "decrypt"] in
    let iv := subtle_deriveBits pbkdf2Params keyMaterial 256 in
    (Some key, Some iv).

(** [encrypt(data, key, iv)] *)
Definition encrypt (data : Uint8Array) (key : option CryptoKey)
    (iv : option Uint8Array) : Uint8Array :=
  if negb JS_RPC_WITH_CRYPTO then data
  else match key with
       | None => data
       | Some key =>
           subtle_encrypt {| gcm_name := "AES-GCM"; gcm_iv := iv |} key data
       end.

(** [decrypt(data, key, iv)] *)
Definition decrypt (data : Uint8Array) (key : option CryptoKey)
    (iv : option Uint8Array) : result Uint8Array :=
  if negb JS_RPC_WITH_CRYPTO then Ok data
  else match key with
       | None => Ok data
       | Some key =>
           let encryptedArray := data in
           subtle_decrypt {| gcm_name := "AES-GCM"; gcm_iv := iv |} key
             encryptedArray
       end.

(** ** Frame codec *)

Definition HEADER_CHECK : Z := 0xb1f7705f.

(** One turn of the [for] loop of [buildBufferData]: the two buffers
    pushed for [data]. *)
Definition buildBufferData_item (data : Uint8Array) (key : option CryptoKey)
    (iv : option Uint8Array) : result (list Uint8Array) :=
  let offset := 0 in
  let header := replicate 8 x00 in
  let headerCheck := HEADER_CHECK in
  let buffer := encrypt data key iv in
  header ← writeUInt32LE header (Z.of_nat (length buffer)) offset;
  let offset := offset + 4 in
  header ← writeUInt32LE header headerCheck offset;
  Ok [header; buffer].

Fixpoint buildBufferData_loop (queue : list Uint8Array)
    (key : option CryptoKey) (iv : option Uint8Array)
    (buffers : list Uint8Array) : result (list Uint8Array) :=
  match queue with
  | [] => Ok buffers
  | data :: queue =>
      pushed ← buildBufferData_item data key iv;
      buildBufferData_loop queue key iv (buffers ++ pushed)
  end.

(** [buildBufferData(queue, key, iv)] *)
Definition buildBufferData (queue : list Uint8Array) (key : option CryptoKey)
    (iv : option Uint8Array) : result Uint8Array :=
  buffers ← buildBufferData_loop queue key iv [];
  Uint8Array_concat buffers.

(** What [parseBufferData] returns, with the line it may have written
    to [console.error] ([bufferLength] and the header check read). *)
Record ParseResult := {
  pr_queue : list Uint8Array;
  pr_remain : Uint8Array;
  pr_console : option (Z * Z);
}.

(** The [while] loop of [parseBufferData].  Every turn that does not
    leave the loop moves [offset] forward by at least 8, so [fuel] turns
    are enough for a buffer of [fuel] bytes; [None] is fuel running out. *)
Fixpoint parseBufferData_loop (fuel : nat) (buffer : Uint8Array)
    (key : option CryptoKey) (iv : option Uint8Array)
    (queue : list Uint8Array) (offset : nat) : option (result ParseResult) :=
  match fuel with
  | 0 => None
  | S fuel =>
      if negb (offset <? length buffer)
      then Some (Ok {| pr_queue := queue; pr_remain := []; pr_console := None |})
      else if length buffer <? offset + 8
      then Some (Ok {| pr_queue := queue;
                       pr_remain := subarray_from buffer offset;
                       pr_console := None |})
      else
        match readUInt32LE buffer offset with
        | Throw e => Some (Throw e)
        | Ok bufferLength =>
            let offset := offset + 4 in
            match readUInt32LE buffer offset with
            | Throw e => Some (Throw e)
            | Ok headerCheck =>
                let offset := offset + 4 in
                if length buffer <? offset + Z.to_nat bufferLength
                then Some (Ok {| pr_queue := queue;
                                 pr_remain := subarray_from buffer (offset - 8);
                                 pr_console := None |})
                else
                  let check := HEADER_CHECK in
                  if negb (check =? headerCheck)%Z
                  then Some (Ok {| pr_queue := queue; pr_remain := [];
                                   pr_console := Some (bufferLength, headerCheck) |})
                  else
                    let data :=
                      subarray buffer offset (offset + Z.to_nat bufferLength) in
                    let offset := offset + Z.to_nat bufferLength in
                    match decrypt data key iv with
                    | Throw e => Some (Throw e)
                    | Ok buf =>
                        parseBufferData_loop fuel buffer key iv (queue ++ [buf]) offset
                    end
            end
        end
  end.

(** [parseBufferData(buffer, key, iv)] *)
Definition parseBufferData (buffer : Uint8Array) (key : option CryptoKey)
    (iv : option Uint8Array) : option (result ParseResult) :=
  parseBufferData_loop (S (length buffer)) buffer key iv [] 0.

(** [createEncodeStream(key_iv)]: what [transform] enqueues for a chunk,
    once [start] has awaited the key and the IV. *)
Definition createEncodeStream_transform (key_iv : option CryptoKey * option Uint8Array)
    (chunk : Uint8Array) : result Uint8Array :=
  let '(key, iv) := key_iv in
  buildBufferData [chunk] key iv.

(** The encode stream run over the records written to it: the chunks it
    enqueues, in order; a throwing [transform] errors the stream. *)
Fixpoint createEncodeStream_run (key_iv : option CryptoKey * option Uint8Array)
    (records : list Uint8Array) : result (list Uint8Array) :=
  match records with
  | [] => Ok []
  | chunk :: records =>
      buffer ← createEncodeStream_transform key_iv chunk;
      rest ← createEncodeStream_run key_iv records;
      Ok (buffer :: rest)
  end.

(** [createDecodeStream(key_iv)]: one call of [transform] on the carry
    [last]; it gives the new [last] and the records enqueued. *)
Definition createDecodeStream_transform (key_iv : option CryptoKey * option Uint8Array)
    (last chunk : Uint8Array) : option (result (Uint8Array * list Uint8Array)) :=
  let '(key, iv) := key_iv in
  match Uint8Array_concat [last; chunk] with
  | Throw e => Some (Throw e)
  | Ok buffer =>
      match parseBufferData buffer key iv with
      | None => None
      | Some (Throw e) => Some (Throw e)
      | Some (Ok r) => Some (Ok (pr_remain r, pr_queue r))
      end
  end.

(** The decode stream run over the chunks written to it, from the carry
    [last]: the records enqueued, in order, and then the final carry, or
    the error of the [transform] that threw and errored the stream. *)
Fixpoint createDecodeStream_run (key_iv : option CryptoKey * option Uint8Array)
    (last : Uint8Array) (chunks : list Uint8Array)
  : option (list Uint8Array * result Uint8Array) :=
  match chunks with
  | [] => Some ([], Ok last)
  | chunk :: chunks =>
      match createDecodeStream_transform key_iv last chunk with
      | None => None
      | Some (Throw e) => Some ([], Throw e)
      | Some (Ok (last, queueReceive)) =>
          match createDecodeStream_run key_iv last chunks with
          | None => None
          | Some (out, final) => Some (queueReceive ++ out, final)
          end
      end
  end.

End Cipher.

(** ** Message codec *)

Definition RPC_TYPE_CALL : Z := 0xdf68f4cb.
Definition RPC_TYPE_RETURN : Z := 0x68b17581.
Definition RPC_TYPE_CALLBACK : Z := 0x8d65e5cc.
Definition RPC_TYPE_ERROR : Z := 0xa07c0f84.

Definition RPC_DATA_ARG_TYPE_OTHERS : Z := 0xa7f68c.
Definition RPC_DATA_ARG_TYPE_FUNCTION : Z := 0x7ff45f.

(** [RPC_DATA]: the object [{ id, type, data }]. *)
Record RPC_DATA := {
  rpc_id : value;
  rpc_type : value;
  rpc_data : value;
}.

(** The item object [{ type, data }] of a CALL or CALLBACK message. *)
Definition arg_item (type data : value) : value :=
  VObj [("type", type); ("data", data)].

(** [msgpackr]'s [Packr]: the serializer the two ends share. *)
Class Packr := {
  packr_pack : value -> Uint8Array;
  packr_unpack : Uint8Array -> result value;
}.

Module JsValue.

(** [v == n] for a number [n].  Numbers compare by value; the other
    values are taken as different from [n] (the message types the engine
    compares are numbers). *)
Definition loose_eq_num (v : value) (n : Z) : bool :=
  match v with
  | VNum m => (m =? n)%Z
  | _ => false
  end.

(** [if (v)] *)
Definition truthy (v : value) : bool :=
  match v with
  | VUndefined | VNull => false
  | VBool b => b
  | VNum n => negb (n =? 0)%Z
  | VStr s => negb (String.eqb s EmptyString)
  | VBytes _ | VArr _ | VObj _ => true
  end.

Fixpoint lookup_field (name : string) (fields : list (string * value)) : value :=
  match fields with
  | [] => VUndefined
  | (k, v) :: fields => if String.eqb k name then v else lookup_field name fields
  end.

(** [v.name] for one of the names the code reads ([type], [data],
    [message], [stack]): it throws on [undefined] and [null], and only an
    object has such a property. *)
Definition get (v : value) (name : string) : result value :=
  match v with
  | VUndefined | VNull => Throw (TypeError "Cannot read properties of undefined")
  | VObj fields => Ok (lookup_field name fields)
  | _ => Ok VUndefined
  end.

(** The elements an array pattern [[a, b, ...]] iterates: an array, a
    typed array and a string are iterable (a string by its characters);
    anything else throws. *)
Definition iterate (v : value) : result (list value) :=
  match v with
  | VArr l => Ok l
  | VBytes b => Ok (map (fun x => VNum (Js.u8 x)) b)
  | VStr s => Ok (map (fun c => VStr (String c EmptyString)) (String.list_ascii_of_string s))
  | _ => Throw (TypeError "value is not iterable")
  end.

(** The [i]-th variable of an array pattern. *)
Definition pattern_nth (elements : list value) (i : nat) : value :=
  default VUndefined (elements !! i).

Fixpoint map_result {A B} (f : A -> result B) (l : list A) : result (list B) :=
  match l with
  | [] => Ok []
  | x :: l => y ← f x; ys ← map_result f l; Ok (y :: ys)
  end.

(** [data.map(f)]: [Array.prototype.map] on an array.  A typed array has
    a [map] of its own, which stores the results as numbers: the results
    of the callbacks of the codec are not numbers and are stored as 0.
    The other values have no callable [map]. *)
Definition array_map (f : value -> result value) (data : value) : result value :=
  match data with
  | VArr l => l' ← map_result f l; Ok (VArr l')
  | VBytes b => l' ← map_result f (map (fun x => VNum (Js.u8 x)) b);
                Ok (VBytes (replicate (length l') x00))
  | _ => Throw (TypeError "data.map is not a function")
  end.

End JsValue.

Section MessageCodec.
Context `{Packr}.

(** [buildRpcData(box)] *)
Definition buildRpcData (box : RPC_DATA) : result Uint8Array :=
  let type := rpc_type box in
  let data := rpc_data box in
  data ←
    (if JsValue.loose_eq_num type RPC_TYPE_CALL
        || JsValue.loose_eq_num type RPC_TYPE_CALLBACK
     then JsValue.array_map
            (fun item =>
               type ← JsValue.get item "type";
               data ← JsValue.get item "data";
               Ok (VArr [type; data]))
            data
     else Ok data);
  Ok (packr_pack (VArr [rpc_id box; type; data])).

(** [parseRpcData(buffer)] *)
Definition parseRpcData (buffer : Uint8Array) : result RPC_DATA :=
  unpacked ← packr_unpack buffer;
  elements ← JsValue.iterate unpacked;
  let id := JsValue.pattern_nth elements 0 in
  let type := JsValue.pattern_nth elements 1 in
  let data := JsValue.pattern_nth elements 2 in
  data ←
    (if JsValue.loose_eq_num type RPC_TYPE_CALL
        || JsValue.loose_eq_num type RPC_TYPE_CALLBACK
     then JsValue.array_map
            (fun item =>
               elements ← JsValue.iterate item;
               let type := JsValue.pattern_nth elements 0 in
               let data := JsValue.pattern_nth elements 1 in
               Ok (arg_item type data))
            data
     else Ok data);
  Ok {| rpc_id := id; rpc_type := type; rpc_data := data |}.

End MessageCodec.

(** ** Client engine *)

Inductive promise_state :=
| Pending
| Fulfilled (v : value)
| Rejected (e : exn).

(** A function passed as an argument: what [constructor?.name] gives for
    it, and which function it is. *)
Record js_function := {
  fn_constructor_name : option string;
  fn_ident : nat;
}.

(** An argument of [apiInvoke]: a value, an instance of [Function], or a
    callable for which [arg instanceof Function] is false (a function of
    another realm), with what a call of it without arguments returns, as
    the serializer carries it, or throws. *)
Inductive js_arg :=
| ArgValue (v : value)
| ArgFunction (f : js_function)
| ArgCallable (f : js_function) (called : result value).

(** An element of [argArray]: a value, the closure [() => key], or
    another function, with what a call of it returns or throws. *)
Inductive arg_array_item :=
| ItemValue (v : value)
| ItemKey (key : Z)
| ItemFunction (called : result value).

(** [CALLBACK_ITEM]; [promise] is a reference into the heap of promises. *)
Record CALLBACK_ITEM := {
  item_id : Z;
  item_type : Z;
  item_promise : option nat;
  item_callback : option js_function;
}.

(** The variables [createRpcClientHelper] closes over, with the promises
    made by [Promise_withResolvers], the buffers given to [writer.write]
    and the calls made of registered callbacks. *)
Record client_state := {
  uniqueKeyID : Z;
  callbackFunctionMap : gmap Z CALLBACK_ITEM;
  promises : list promise_state;
  written : list Uint8Array;
  applied : list (js_function * list value);
}.

Definition client_init : client_state :=
  {| uniqueKeyID := 0; callbackFunctionMap := ∅; promises := [];
     written := []; applied := [] |}.

Definition set_uniqueKeyID (n : Z) (st : client_state) : client_state :=
  {| uniqueKeyID := n; callbackFunctionMap := callbackFunctionMap st;
     promises := promises st; written := written st; applied := applied st |}.
Definition set_callbackFunctionMap (m : gmap Z CALLBACK_ITEM) (st : client_state)
  : client_state :=
  {| uniqueKeyID := uniqueKeyID st; callbackFunctionMap := m;
     promises := promises st; written := written st; applied := applied st |}.
Definition set_promises (ps : list promise_state) (st : client_state) : client_state :=
  {| uniqueKeyID := uniqueKeyID st; callbackFunctionMap := callbackFunctionMap st;
     promises := ps; written := written st; applied := applied st |}.
Definition set_written (w : list Uint8Array) (st : client_state) : client_state :=
  {| uniqueKeyID := uniqueKeyID st; callbackFunctionMap := callbackFunctionMap st;
     promises := promises st; written := w; applied := applied st |}.
Definition set_applied (a : list (js_function * list value)) (st : client_state)
  : client_state :=
  {| uniqueKeyID := uniqueKeyID st; callbackFunctionMap := callbackFunctionMap st;
     promises := promises st; written := written st; applied := a |}.

(** Code that reads and writes the state and may throw. *)
Definition M (A : Type) : Type := client_state -> client_state * result A.

#[global] Instance M_ret : MRet M := fun A a st => (st, Ok a).
#[global] Instance M_bind : MBind M := fun A B f m st =>
  match m st with
  | (st, Ok a) => f a st
  | (st, Throw e) => (st, Throw e)
  end.

Definition get_state : M client_state := fun st => (st, Ok st).
Definition modify (f : client_state -> client_state) : M unit :=
  fun st => (f st, Ok tt).
Definition throw {A} (e : exn) : M A := fun st => (st, Throw e).
Definition lift {A} (r : result A) : M A := fun st => (st, r).

(** [uniqueKeyID++] *)
Definition next_uniqueKeyID : M Z :=
  fun st => (set_uniqueKeyID (uniqueKeyID st + 1) st, Ok (uniqueKeyID st)).

(** [Promise_withResolvers()] *)
Definition Promise_withResolvers : M nat :=
  fun st => (set_promises (promises st ++ [Pending]) st, Ok (length (promises st))).

(** Settling a promise: only a pending promise changes. *)
Definition settle (p : nat) (s : promise_state) (ps : list promise_state)
  : list promise_state :=
  match ps !! p with
  | Some Pending => <[p := s]> ps
  | _ => ps
  end.

(** [callbackFunctionMap.set], [.get] and [.delete]; the key of a [get]
    or a [delete] is any value, and the keys set are numbers. *)
Definition map_set (key : Z) (o : CALLBACK_ITEM) : M unit :=
  modify (fun st => set_callbackFunctionMap (<[key := o]> (callbackFunctionMap st)) st).
Definition map_get (m : gmap Z CALLBACK_ITEM) (key : value) : option CALLBACK_ITEM :=
  match key with
  | VNum n => m !! n
  | _ => None
  end.
Definition map_delete (key : value) : M unit :=
  modify (fun st =>
    match key with
    | VNum n => set_callbackFunctionMap (delete n (callbackFunctionMap st)) st
    | _ => st
    end).

(** Whether an object has the own property [name]. *)
Definition has_own (name : string) (fields : list (string * value)) : bool :=
  existsb (fun kv => String.eqb kv.1 name) fields.

(** Whether the conversion of [v] to a string returns.  An object of the
    serializer has no callable property of its own: with an own
    [toString] the conversion finds nothing to call that returns a
    primitive and throws a [TypeError]; an array converts when its
    elements do. *)
Fixpoint converts (v : value) : bool :=
  match v with
  | VArr l => forallb converts l
  | VObj fields => negb (has_own "toString" fields)
  | _ => true
  end.

(** [new RPCError(message, stack)]: [super(message, option)] turns a
    message that is not [undefined] into a string, which can throw; the
    error holds the message given, as what [error_message] converts, and
    the stack given replaces the local one when it is truthy. *)
Definition new_RPCError (message stack : value) : result exn :=
  if converts message
  then Ok (RPCError message (if JsValue.truthy stack then Some stack else None))
  else Throw (TypeError "Cannot convert object to primitive value").

(** [o.promise.reject(new RPCError(error.message, error.stack))] *)
Definition reject_with_remote_error (o : CALLBACK_ITEM) (error : value) : M unit :=
  match item_promise o with
  | None => throw (TypeError "Cannot read properties of undefined (reading 'reject')")
  | Some p =>
      message ← lift (JsValue.get error "message");
      stack ← lift (JsValue.get error "stack");
      remote ← lift (new_RPCError message stack);
      modify (fun st =>
        set_promises (settle p (Rejected remote) (promises st)) st)
  end.

(** [o.promise.resolve(value)] *)
Definition resolve_with (o : CALLBACK_ITEM) (v : value) : M unit :=
  match item_promise o with
  | None => throw (TypeError "Cannot read properties of undefined (reading 'resolve')")
  | Some p =>
      modify (fun st => set_promises (settle p (Fulfilled v) (promises st)) st)
  end.

(** [items.map((o) => o.data)], as the argument list [apply] takes. *)
Definition callback_args (items : value) : result (list value) :=
  match items with
  | VArr l => JsValue.map_result (fun o => JsValue.get o "data") l
  | VBytes b => Ok (map (fun _ => VNum 0) b)
  | _ => Throw (TypeError "items.map is not a function")
  end.

(** [o.callback.apply(o, args)]: the callbacks registered are
    [AsyncFunction]s, whose call returns a promise and does not throw. *)
Definition apply_callback (o : CALLBACK_ITEM) (args : list value) : M unit :=
  match item_callback o with
  | None => throw (TypeError "Cannot read properties of undefined (reading 'apply')")
  | Some f => modify (fun st => set_applied (applied st ++ [(f, args)]) st)
  end.

(** [callbackFunctionMap.forEach((o) => { o.promise?.reject(error) })]
    followed by [callbackFunctionMap.clear()]: the body of [reject] and of
    the [catch] of the inbound handler. *)
Definition reject_all (error : exn) (st : client_state) : client_state :=
  let ps :=
    map_fold (fun _ o ps =>
                match item_promise o with
                | Some p => settle p (Rejected error) ps
                | None => ps
                end)
      (promises st) (callbackFunctionMap st) in
  set_callbackFunctionMap ∅ (set_promises ps st).

Section ClientEngine.
Context `{Packr}.

(** The body of [if (callbackFunctionMap.has(data.id))] in the handler,
    for the entry [o] that [callbackFunctionMap.get(data.id)] gave. *)
Definition onmessage_found (data : RPC_DATA) (items : value) (o : CALLBACK_ITEM)
  : M unit :=
  (if JsValue.loose_eq_num (rpc_type data) RPC_TYPE_ERROR
   then let error := rpc_data data in reject_with_remote_error o error
   else mret tt);;
  (if JsValue.loose_eq_num (rpc_type data) RPC_TYPE_RETURN
   then map_delete (rpc_id data);; resolve_with o (rpc_data data)
   else mret tt);;
  (if JsValue.loose_eq_num (rpc_type data) RPC_TYPE_CALLBACK
   then args ← lift (callback_args items); apply_callback o args
   else mret tt).

(** The [try] block of the [write(buffer)] handler that
    [decode.readable] is piped to. *)
Definition onmessage_try (buffer : Uint8Array) : M unit :=
  data ← lift (parseRpcData buffer);
  let items := rpc_data data in
  st ← get_state;
  match map_get (callbackFunctionMap st) (rpc_id data) with
  | None => mret tt
  | Some o => onmessage_found data items o
  end.

(** The handler: the [try] block, and the [catch] that rejects every
    promise of the table and clears it. *)
Definition onmessage (buffer : Uint8Array) (st : client_state) : client_state :=
  match onmessage_try buffer st with
  | (st, Ok _) => st
  | (st, Throw error) => reject_all error st
  end.

(** [reject(error)] of the helper. *)
Definition reject (error : exn) (st : client_state) : client_state :=
  reject_all error st.

Definition dquote : string := String (Ascii.ascii_of_nat 34) EmptyString.

(** The error thrown for a callback that is not an [AsyncFunction]. *)
Definition usage_error (receivedType : string) : exn :=
  PlainError
    ("Expected an AsyncFunction as the callback, but received a " +:+ receivedType
     +:+ ". " +:+ "Ensure the callback is declared with " +:+ dquote
     +:+ "async function" +:+ dquote +:+ " or an arrow function using "
     +:+ dquote +:+ "async" +:+ dquote +:+ ".").

(** [buildRpcItemData(items)] on [argArray]: an element that is a
    function is called for its data, and what the call throws is thrown. *)
Definition buildRpcItemData (items : list arg_array_item) : result value :=
  arr ←
    JsValue.map_result
      (fun item =>
         match item with
         | ItemKey key =>
             Ok (arg_item (VNum RPC_DATA_ARG_TYPE_FUNCTION) (VNum key))
         | ItemFunction called =>
             data ← called;
             Ok (arg_item (VNum RPC_DATA_ARG_TYPE_FUNCTION) data)
         | ItemValue v => Ok (arg_item (VNum RPC_DATA_ARG_TYPE_OTHERS) v)
         end) items;
  Ok (VArr arr).

(** The [for (const arg of args)] loop of [apiInvoke]. *)
Fixpoint apiInvoke_args (args : list js_arg) (keys : list Z)
    (argArray : list arg_array_item) : M (list Z * list arg_array_item) :=
  match args with
  | [] => mret (keys, argArray)
  | ArgFunction arg :: args =>
      let isAsyncFunction :=
        bool_decide (fn_constructor_name arg = Some "AsyncFunction") in
      if negb isAsyncFunction
      then
        let receivedType :=
          match fn_constructor_name arg with
          | Some name => if JsValue.truthy (VStr name) then name else "regular function"
          | None => "regular function"
          end in
        throw (usage_error receivedType)
      else
        key ← next_uniqueKeyID;
        let keys := keys ++ [key] in
        map_set key {| item_id := key; item_type := RPC_TYPE_CALLBACK;
                       item_promise := None; item_callback := Some arg |};;
        apiInvoke_args args keys (argArray ++ [ItemKey key])
  | ArgCallable _ called :: args =>
      apiInvoke_args args keys (argArray ++ [ItemFunction called])
  | ArgValue arg :: args =>
      apiInvoke_args args keys (argArray ++ [ItemValue arg])
  end.

(** What an [apiInvoke] that is suspended holds on to. *)
Record invocation := {
  inv_id : Z;
  inv_promise : nat;
  inv_keys : list Z;
}.

(** The [finally] block of [apiInvoke]. *)
Definition apiInvoke_finally (keys : list Z) : M unit :=
  modify (fun st =>
    set_callbackFunctionMap
      (foldl (fun m key => delete key m) (callbackFunctionMap st) keys) st).

(** [writer.write(buffer)]: the buffer goes to the outbound stream. *)
Definition writer_write (buffer : Uint8Array) : M unit :=
  modify (fun st => set_written (written st ++ [buffer]) st).

(** [apiInvoke(fnName, args)] up to its first [await]: it throws, or is
    suspended on the promise [writer.write] returned. *)
Definition apiInvoke_begin (fnName : string) (args : list js_arg) : M invocation :=
  id ← next_uniqueKeyID;
  promise ← Promise_withResolvers;
  map_set id {| item_id := id; item_type := RPC_TYPE_RETURN;
                item_promise := Some promise; item_callback := None |};;
  '(keys, argArray) ← apiInvoke_args args [] [ItemValue (VStr fnName)];
  match
    data ← buildRpcItemData argArray;
    let box := {| rpc_id := VNum id; rpc_type := VNum RPC_TYPE_CALL;
                  rpc_data := data |} in
    buildRpcData box
  with
  | Throw error => apiInvoke_finally keys;; throw error
  | Ok buffer =>
      writer_write buffer;;
      mret {| inv_id := id; inv_promise := promise; inv_keys := keys |}
  end.

(** [apiInvoke] resumed with the rejection of [writer.write]. *)
Definition apiInvoke_write_rejected (inv : invocation) (error : exn) : M value :=
  apiInvoke_finally (inv_keys inv);; throw error.

(** [apiInvoke] resumed from [await promise.promise]: it returns the
    value the promise was resolved with or throws what it was rejected
    with; while the promise is pending it is not resumed ([None]). *)
Definition apiInvoke_resume (inv : invocation) : M (option value) :=
  st ← get_state;
  match promises st !! inv_promise inv with
  | Some (Fulfilled v) => apiInvoke_finally (inv_keys inv);; mret (Some v)
  | Some (Rejected error) => apiInvoke_finally (inv_keys inv);; throw error
  | _ => mret None
  end.

End ClientEngine.

(** ** The engine over time

    An [apiInvoke] runs to its first [await] and is resumed later; in
    between, records arrive, other invocations start and end, and the
    carrier may fail.  [step] is one such event. *)

Inductive phase :=
| AwaitWrite
| AwaitPromise.

Inductive event :=
| EvInvoke (fnName : string) (args : list js_arg)
| EvWriteFulfilled (id : Z)
| EvWriteRejected (id : Z) (error : exn)
| EvResume (id : Z)
| EvMessage (buffer : Uint8Array)
| EvReject (error : exn).

(** The state of the helper, the invocations that are suspended (by call
    id) and the invocations that have ended, with what they returned or
    threw. *)
Record engine := {
  eng_state : client_state;
  eng_suspended : gmap Z (invocation * phase);
  eng_ended : list (Z * result value);
}.

Definition engine_init : engine :=
  {| eng_state := client_init; eng_suspended := ∅; eng_ended := [] |}.

Section Engine.
Context `{Packr}.

Definition step (e : engine) (ev : event) : engine :=
  match ev with
  | EvInvoke fnName args =>
      match apiInvoke_begin fnName args (eng_state e) with
      | (st, Ok inv) =>
          {| eng_state := st;
             eng_suspended := <[inv_id inv := (inv, AwaitWrite)]> (eng_suspended e);
             eng_ended := eng_ended e |}
      | (st, Throw error) =>
          {| eng_state := st; eng_suspended := eng_suspended e;
             eng_ended := eng_ended e ++ [(uniqueKeyID (eng_state e), Throw error)] |}
      end
  | EvWriteFulfilled id =>
      match eng_suspended e !! id with
      | Some (inv, AwaitWrite) =>
          {| eng_state := eng_state e;
             eng_suspended := <[id := (inv, AwaitPromise)]> (eng_suspended e);
             eng_ended := eng_ended e |}
      | _ => e
      end
  | EvWriteRejected id error =>
      match eng_suspended e !! id with
      | Some (inv, AwaitWrite) =>
          let '(st, r) := apiInvoke_write_rejected inv error (eng_state e) in
          {| eng_state := st; eng_suspended := delete id (eng_suspended e);
             eng_ended := eng_ended e ++ [(id, r)] |}
      | _ => e
      end
  | EvResume id =>
      match eng_suspended e !! id with
      | Some (inv, AwaitPromise) =>
          match apiInvoke_resume inv (eng_state e) with
          | (st, Ok (Some v)) =>
              {| eng_state := st; eng_suspended := delete id (eng_suspended e);
                 eng_ended := eng_ended e ++ [(id, Ok v)] |}
          | (st, Throw error) =>
              {| eng_state := st; eng_suspended := delete id (eng_suspended e);
                 eng_ended := eng_ended e ++ [(id, Throw error)] |}
          | (_, Ok None) => e
          end
      | _ => e
      end
  | EvMessage buffer =>
      {| eng_state := onmessage buffer (eng_state e);
         eng_suspended := eng_suspended e; eng_ended := eng_ended e |}
  | EvReject error =>
      {| eng_state := reject error (eng_state e);
         eng_suspended := eng_suspended e; eng_ended := eng_ended e |}
  end.

Definition run (e : engine) (evs : list event) : engine := foldl step e evs.

(** An event that is not a rejection of the whole pipeline and does not
    bear one of the ids [ids]: no call of [reject], and no record whose
    handling throws or whose id is in [ids]. *)
Definition quiet (ids : list Z) (st : client_state) (ev : event) : Prop :=
  match ev with
  | EvReject _ => False
  | EvMessage buffer =>
      exists data st',
        parseRpcData buffer = Ok data
        /\ onmessage_try buffer st = (st', Ok tt)
        /\ forall id, id ∈ ids -> rpc_id data ≠ VNum id
  | _ => True
  end.

Fixpoint quiet_trace (ids : list Z) (e : engine) (evs : list event) : Prop :=
  match evs with
  | [] => True
  | ev :: evs => quiet ids (eng_state e) ev /\ quiet_trace ids (step e ev) evs
  end.

(** What holds of every engine state reached: the keys a suspended
    invocation will delete, and its id, were taken from the counter, and
    the promises the table refers to exist. *)
Definition engine_wf (e : engine) : Prop :=
  (forall id inv ph, eng_suspended e !! id = Some (inv, ph) ->
     (inv_id inv < uniqueKeyID (eng_state e))%Z
     /\ forall key, key ∈ inv_keys inv -> (key < uniqueKeyID (eng_state e))%Z)
  /\ (forall key o p, callbackFunctionMap (eng_state e) !! key = Some o ->
        item_promise o = Some p -> p < length (promises (eng_state e))).

End Engine.

(** ** The reconnect loop *)

(** What one turn of the loop of [timeWaitRetryLoop] observes:
    [signal.aborted] at the head of the loop, and [performance.now()]
    before and after the callback (in milliseconds). *)
Record turn := {
  signal_aborted : bool;
  time_before : Z;
  time_after : Z;
}.

(** The [while] loop of [timeWaitRetryLoop]; [slept] collects the
    arguments of [sleep].  [None] is fuel running out with the loop still
    going. *)
Fixpoint timeWaitRetryLoop_loop (fuel : nat) (env : nat -> turn) (i : nat)
    (waitTime : Z) (slept : list Z) : option (list Z) :=
  match fuel with
  | 0 => None
  | S fuel =>
      if signal_aborted (env i) then Some slept
      else
        let time := time_before (env i) in
        let waitTime :=
          if (time_after (env i) - time >? 10000)%Z then 300%Z else waitTime in
        let slept := slept ++ [waitTime] in
        let waitTime := (waitTime * 2)%Z in
        let waitTime := if (waitTime >? 60000)%Z then 60000%Z else waitTime in
        timeWaitRetryLoop_loop fuel env (S i) waitTime slept
  end.

(** [timeWaitRetryLoop(signal, callback)] *)
Definition timeWaitRetryLoop (fuel : nat) (env : nat -> turn) : option (list Z) :=
  let waitTime := 300%Z in
  timeWaitRetryLoop_loop fuel env 0 waitTime [].

(** A cipher to run the model on: the key is the password bytes, the
    derived bits are zero, encryption appends a 16-byte tag made of the
    length of the IV, decryption checks and strips it. *)
Definition toy_tag (p : AesGcmParams) : Uint8Array :=
  replicate 16 (Js.to_u8 (Z.of_nat (length (default [] (gcm_iv p))))).

#[local] Instance toy_crypto : SubtleCrypto := {|
  CryptoKey := Uint8Array;
  subtle_importKey := fun _ keyData _ _ _ => keyData;
  subtle_digest := fun _ data => data;
  subtle_deriveKey := fun _ km _ _ _ => km;
  subtle_deriveBits := fun _ _ n => replicate (n / 8) x00;
  subtle_encrypt := fun p _ data => data ++ toy_tag p;
  subtle_decrypt := fun p _ data =>
    if decide (drop (length data - 16) data = toy_tag p /\ 16 <= length data)
    then Ok (take (length data - 16) data)
    else Throw OperationError;
|}.

(** The frame the encoder writes for one record, and the four bytes of a
    number in little-endian order: the closed forms that [buildBufferData]
    and [writeUInt32LE] are shown to compute. *)
Definition le32 (v : Z) : Uint8Array :=
  [Js.to_u8 v; Js.to_u8 (v / 2 ^ 8); Js.to_u8 (v / 2 ^ 16); Js.to_u8 (v / 2 ^ 24)].

Definition frame `{SubtleCrypto} (key : option CryptoKey) (iv : option Uint8Array)
    (data : Uint8Array) : Uint8Array :=
  le32 (Z.of_nat (length (encrypt data key iv))) ++ le32 HEADER_CHECK
    ++ encrypt data key iv.

(** A record whose encrypted form has a length the 4-byte length field
    can hold. *)
Definition fits `{SubtleCrypto} (key : option CryptoKey) (iv : option Uint8Array)
    (data : Uint8Array) : Prop :=
  (Z.of_nat (length (encrypt data key iv)) < 2 ^ 32)%Z.

(** The carry between two calls of [transform] of the decode stream:
    nothing, or the beginning of the frame of the next record. *)
Definition carry_of `{SubtleCrypto} (key : option CryptoKey) (iv : option Uint8Array)
    (last : Uint8Array) (records : list Uint8Array) : Prop :=
  last = [] \/ exists data rs rest,
    records = data :: rs /\ rest ≠ [] /\ frame key iv data = last ++ rest.

(** Inputs the model is run on. *)
Definition toy_key_iv : option Uint8Array * option Uint8Array :=
  @buildKeyIv toy_crypto "ab" 10.
Definition toy_records : list Uint8Array := [[x01; x02]; []; [x03]].
Definition toy_chunks : list Uint8Array :=
  [ [x12; x00; x00]; [x00; x5f; x70; xf7; xb1; x01];
    x02 :: replicate 16 x20 ++ [x10; x00; x00; x00; x5f; x70; xf7; xb1]
      ++ replicate 16 x20 ++ [x11; x00; x00];
    []; [x00; x5f; x70; xf7; xb1; x03] ++ replicate 15 x20; [x20] ].

(** A header whose length field asks for 16 bytes and whose check is 0,
    followed by one byte. *)
Definition bad_header : Uint8Array :=
  [x10; x00; x00; x00; x00; x00; x00; x00; xaa].
(** The same header with the 16 bytes it asks for. *)
Definition bad_frame : Uint8Array :=
  [x10; x00; x00; x00; x00; x00; x00; x00] ++ replicate 16 xaa.

(** A serializer to run the model on: a value is laid out as a tree,
    the tree is numbered, and the number is written bit by bit. *)
Fixpoint value_to_tree (v : value) : gen_tree (Z + string) :=
  match v with
  | VUndefined => GenNode 0 []
  | VNull => GenNode 1 []
  | VBool true => GenNode 2 []
  | VBool false => GenNode 3 []
  | VNum n => GenLeaf (inl n)
  | VStr s => GenLeaf (inr s)
  | VBytes b => GenNode 4 (map (fun x => GenLeaf (inl (Js.u8 x))) b)
  | VArr l => GenNode 5 (map value_to_tree l)
  | VObj fields =>
      GenNode 6 (map (fun kv => GenNode 7 [GenLeaf (inr (fst kv)); value_to_tree (snd kv)])
                   fields)
  end.

Fixpoint tree_to_value (t : gen_tree (Z + string)) : value :=
  match t with
  | GenLeaf (inl n) => VNum n
  | GenLeaf (inr s) => VStr s
  | GenNode 0 _ => VUndefined
  | GenNode 1 _ => VNull
  | GenNode 2 _ => VBool true
  | GenNode 3 _ => VBool false
  | GenNode 4 ts =>
      VBytes (map (fun t => match t with
                            | GenLeaf (inl n) => Js.to_u8 n
                            | _ => x00
                            end) ts)
  | GenNode 5 ts => VArr (map tree_to_value ts)
  | GenNode 6 ts =>
      VObj (map (fun t => match t with
                          | GenNode _ [GenLeaf (inr k); tv] => (k, tree_to_value tv)
                          | _ => (EmptyString, VUndefined)
                          end) ts)
  | GenNode _ _ => VUndefined
  end.

Fixpoint positive_to_bytes (p : positive) : Uint8Array :=
  match p with
  | xH => [x00]
  | xO p => x01 :: positive_to_bytes p
  | xI p => x02 :: positive_to_bytes p
  end.

Fixpoint bytes_to_positive (b : Uint8Array) : option positive :=
  match b with
  | [x00] => Some xH
  | x01 :: b => xO <$> bytes_to_positive b
  | x02 :: b => xI <$> bytes_to_positive b
  | _ => None
  end.

#[local] Instance toy_packr : Packr := {|
  packr_pack := fun v => positive_to_bytes (encode (value_to_tree v));
  packr_unpack := fun b =>
    match bytes_to_positive b ≫= decode with
    | Some t => Ok (tree_to_value t)
    | None => Throw (PlainError "Data read, but end of buffer not reached")
    end;
|}.

(** A CALL message to run the message codec on. *)
Definition toy_call : RPC_DATA :=
  {| rpc_id := VNum 7; rpc_type := VNum RPC_TYPE_CALL;
     rpc_data := VArr [arg_item (VNum RPC_DATA_ARG_TYPE_OTHERS) (VStr "hello");
                       arg_item (VNum RPC_DATA_ARG_TYPE_FUNCTION) (VNum 8)] |}.

(** Functions to run [apiInvoke] on. *)
Definition async_fn : js_function :=
  {| fn_constructor_name := Some "AsyncFunction"; fn_ident := 0 |}.
Definition plain_fn : js_function :=
  {| fn_constructor_name := Some "Function"; fn_ident := 1 |}.

(** The entries [apiInvoke] registers, and closed forms of what its loop
    over the arguments leaves behind. *)
Definition waiter (id : Z) (promise : nat) : CALLBACK_ITEM :=
  {| item_id := id; item_type := RPC_TYPE_RETURN;
     item_promise := Some promise; item_callback := None |}.
Definition slot (key : Z) (callback : js_function) : CALLBACK_ITEM :=
  {| item_id := key; item_type := RPC_TYPE_CALLBACK;
     item_promise := None; item_callback := Some callback |}.

Definition is_async (f : js_function) : Prop :=
  fn_constructor_name f = Some "AsyncFunction".

Fixpoint functions_of (args : list js_arg) : list js_function :=
  match args with
  | [] => []
  | ArgValue _ :: args => functions_of args
  | ArgFunction f :: args => f :: functions_of args
  | ArgCallable _ _ :: args => functions_of args
  end.

Definition received_type (f : js_function) : string :=
  match fn_constructor_name f with
  | Some name => if JsValue.truthy (VStr name) then name else "regular function"
  | None => "regular function"
  end.

Fixpoint register_slots (fs : list js_function) (key : Z)
    (m : gmap Z CALLBACK_ITEM) : gmap Z CALLBACK_ITEM :=
  match fs with
  | [] => m
  | f :: fs => register_slots fs (key + 1) (<[key := slot key f]> m)
  end.

Fixpoint arg_array_of (args : list js_arg) (key : Z) : list arg_array_item :=
  match args with
  | [] => []
  | ArgValue v :: args => ItemValue v :: arg_array_of args key
  | ArgFunction _ :: args => ItemKey key :: arg_array_of args (key + 1)
  | ArgCallable _ called :: args => ItemFunction called :: arg_array_of args key
  end.

(** No callable among the arguments throws when [buildRpcItemData] calls
    it. *)
Definition returns (arg : js_arg) : Prop :=
  match arg with
  | ArgCallable _ (Throw _) => False
  | _ => True
  end.

#[global] Instance returns_dec arg : Decision (returns arg).
Proof. destruct arg as [v|f|f [v|e]]; cbn; apply _. Defined.

Definition callables_return (args : list js_arg) : Prop := Forall returns args.

(** Whether every function among the arguments is an instance of
    [Function], so that [apiInvoke] registers it. *)
Definition registered (arg : js_arg) : Prop :=
  match arg with
  | ArgCallable _ _ => False
  | _ => True
  end.

Definition functions_are_instances (args : list js_arg) : Prop :=
  Forall registered args.

Definition item_returns (item : arg_array_item) : Prop :=
  match item with
  | ItemFunction (Throw _) => False
  | _ => True
  end.

#[global] Instance item_returns_dec item : Decision (item_returns item).
Proof. destruct item as [v|key|[v|e]]; cbn; apply _. Defined.

#[global] Instance is_async_dec f : Decision (is_async f).
Proof. unfold is_async. apply _. Defined.

(** The pair [[type, data]] an element of [argArray] is sent as (an
    element whose call throws is not sent: [buildRpcItemData] throws), and
    the buffer of the CALL message of an invocation. *)
Definition wire_item (item : arg_array_item) : value * value :=
  match item with
  | ItemKey key => (VNum RPC_DATA_ARG_TYPE_FUNCTION, VNum key)
  | ItemFunction (Ok data) => (VNum RPC_DATA_ARG_TYPE_FUNCTION, data)
  | ItemFunction (Throw _) => (VNum RPC_DATA_ARG_TYPE_FUNCTION, VUndefined)
  | ItemValue v => (VNum RPC_DATA_ARG_TYPE_OTHERS, v)
  end.

Definition call_buffer `{Packr} (id : Z) (argArray : list arg_array_item)
  : Uint8Array :=
  packr_pack
    (VArr [VNum id; VNum RPC_TYPE_CALL;
           VArr (map (fun item => VArr [(wire_item item).1; (wire_item item).2])
                   argArray)]).

(** States and records to run the handler on: the helper after one
    [apiInvoke("fail", [])], an ERROR record and a RETURN record for that
    call. *)
Definition one_call : client_state :=
  (@apiInvoke_begin toy_packr "fail" [] client_init).1.

Definition error_record : Uint8Array :=
  @packr_pack toy_packr
    (VArr [VNum 0; VNum RPC_TYPE_ERROR;
           VObj [("message", VStr "boom"); ("stack", VStr "Error: boom at fail")]]).

Definition return_record : Uint8Array :=
  @packr_pack toy_packr (VArr [VNum 0; VNum RPC_TYPE_RETURN; VStr "done"]).

(** The helper after [apiInvoke("progress", [cb])] with an async [cb],
    and a CALLBACK record that bears the id of the call instead of the
    id of the callback. *)
Definition call_with_callback : client_state :=
  (@apiInvoke_begin toy_packr "progress" [ArgFunction async_fn] client_init).1.

Definition stray_callback_record : Uint8Array :=
  @packr_pack toy_packr
    (VArr [VNum 0; VNum RPC_TYPE_CALLBACK;
           VArr [VArr [VNum RPC_DATA_ARG_TYPE_OTHERS; VStr "progress 0"]]]).

(** What handling a record found under the key [n], with entry [o], can
    change: the entry under [n], the promise of [o], and the log of
    callback calls. *)
Definition found_effect (n : Z) (o : CALLBACK_ITEM) (st st' : client_state) : Prop :=
  uniqueKeyID st' = uniqueKeyID st
  /\ written st' = written st
  /\ length (promises st') = length (promises st)
  /\ (forall k, k ≠ n -> callbackFunctionMap st' !! k = callbackFunctionMap st !! k)
  /\ (forall k o', callbackFunctionMap st' !! k = Some o' ->
        callbackFunctionMap st !! k = Some o')
  /\ (forall q, item_promise o ≠ Some q -> promises st' !! q = promises st !! q).

(** A statement about the state before and after running some code. *)
Definition M_pres {A} (R : client_state -> client_state -> Prop) (m : M A) : Prop :=
  forall st st' r, m st = (st', r) -> R st st'.

(** The entries that an [apiInvoke] which threw on a function argument
    left behind, seen from a later state of the engine: the ids from [id]
    up to [bound] hold what they held in [table], the promise [p] of the
    waiter is pending, no other entry refers to it, and no suspended
    invocation will delete one of these ids. *)
Definition leak_inv (id : Z) (p : nat) (bound : Z) (table : gmap Z CALLBACK_ITEM)
    (e : engine) : Prop :=
  (bound <= uniqueKeyID (eng_state e))%Z
  /\ (forall k, (id <= k < bound)%Z ->
        callbackFunctionMap (eng_state e) !! k = table !! k)
  /\ promises (eng_state e) !! p = Some Pending
  /\ (forall k o, callbackFunctionMap (eng_state e) !! k = Some o ->
        item_promise o = Some p -> k = id)
  /\ (forall i inv ph, eng_suspended e !! i = Some (inv, ph) ->
        forall k, k ∈ inv_keys inv -> (k < id \/ bound <= k)%Z).

(** A run of the engine after an invocation that threw on its second
    function argument: another invocation starts, its write is done, its
    RETURN record arrives and it is resumed. *)
Definition later_return_record : Uint8Array :=
  @packr_pack toy_packr (VArr [VNum 2; VNum RPC_TYPE_RETURN; VStr "hello x"]).

Definition leaky_engine : engine :=
  @step toy_packr engine_init
    (EvInvoke "progress" ([ArgFunction async_fn] ++ ArgFunction plain_fn :: [])).

Definition later_events : list event :=
  [EvInvoke "hello" [ArgValue (VStr "x")]; EvWriteFulfilled 2;
   EvMessage later_return_record; EvResume 2].

(** Turns to run the reconnect loop on: the signal is aborted when the
    thirteenth turn begins, the eleventh callback takes 15 s and the others
    5 ms. *)
Definition toy_turns (i : nat) : turn :=
  {| signal_aborted := 12 <=? i;
     time_before := 1000;
     time_after := if i =? 10 then 16000 else 1005 |}.

(** ** The rest of the byte helpers *)

(** [buildBufferNumberUInt32LE(number)] *)
Definition buildBufferNumberUInt32LE (number : Z) : result Uint8Array :=
  let buffer := replicate 4 x00 in
  writeUInt32LE buffer number 0.

(** [processPackets()]: one call of [transform] on the carry [last]; it
    gives the new [last], the buffer enqueued, if any, and the line
    [parseBufferData] wrote to the console, if any. *)
Definition processPackets_transform `{SubtleCrypto} (last chunk : Uint8Array)
  : option (result (Uint8Array * option Uint8Array * option (Z * Z))) :=
  match Uint8Array_concat [last; chunk] with
  | Throw e => Some (Throw e)
  | Ok buffer =>
      match parseBufferData buffer None None with
      | None => None
      | Some (Throw e) => Some (Throw e)
      | Some (Ok r) =>
          let queueReceive := pr_queue r in
          let last := pr_remain r in
          if 0 <? length queueReceive
          then match buildBufferData queueReceive None None with
               | Throw e => Some (Throw e)
               | Ok buffer => Some (Ok (last, Some buffer, pr_console r))
               end
          else Some (Ok (last, None, pr_console r))
      end
  end.

(** What a run of the [processPackets] stream over chunks gives: the
    buffers enqueued, in order, the lines written to the console, and the
    final carry or the error that errored the stream. *)
Record PacketsRun := {
  pk_out : list Uint8Array;
  pk_console : list (Z * Z);
  pk_end : result Uint8Array;
}.

Fixpoint processPackets_run `{SubtleCrypto} (last : Uint8Array)
    (chunks : list Uint8Array) : option PacketsRun :=
  match chunks with
  | [] => Some {| pk_out := []; pk_console := []; pk_end := Ok last |}
  | chunk :: chunks =>
      match processPackets_transform last chunk with
      | None => None
      | Some (Throw e) =>
          Some {| pk_out := []; pk_console := []; pk_end := Throw e |}
      | Some (Ok (last, enqueued, line)) =>
          match processPackets_run last chunks with
          | None => None
          | Some run =>
              Some {| pk_out := option_list enqueued ++ pk_out run;
                      pk_console := option_list line ++ pk_console run;
                      pk_end := pk_end run |}
          end
      end
  end.

(** The frame of a record when there is no key. *)
Definition plain_frame (data : Uint8Array) : Uint8Array :=
  le32 (Z.of_nat (length data)) ++ le32 HEADER_CHECK ++ data.

(** ** More of the client engine *)

(** The ids in use are below the counter: the keys of the table, and the
    call ids the suspended invocations are filed under. *)
Definition ids_below (e : engine) : Prop :=
  (forall key o, callbackFunctionMap (eng_state e) !! key = Some o ->
     (key < uniqueKeyID (eng_state e))%Z)
  /\ (forall id inv ph, eng_suspended e !! id = Some (inv, ph) -> inv_id inv = id).

(** The message of a CALL as [parseRpcData] returns it. *)
Definition call_record (id : Z) (argArray : list arg_array_item) : RPC_DATA :=
  {| rpc_id := VNum id; rpc_type := VNum RPC_TYPE_CALL;
     rpc_data := VArr (map (fun item => arg_item (wire_item item).1 (wire_item item).2)
                         argArray) |}.

(** ** Server engine *)

(** What the JavaScript engine decides in [rpcRunServerDecodeBuffer]:
    the digits a number is written with, the string a typed array is
    turned into, the [stack] an error object was given when it was made,
    and the message of the exception of the cipher. *)
Class Runtime := {
  rt_Number_toString : Z -> string;
  rt_TypedArray_toString : Uint8Array -> string;
  rt_stack : exn -> value;
  rt_OperationError_message : string;
}.

(** [array.join(separator)] on the strings of the elements. *)
Fixpoint join (separator : string) (l : list string) : string :=
  match l with
  | [] => EmptyString
  | [x] => x
  | x :: l => x +:+ separator +:+ join separator l
  end.

(** [ToString(v)], as a template literal, [join] and a property access
    apply it.  An array is joined with commas, [undefined] and [null]
    elements giving the empty string.  An object of the serializer has no
    callable property of its own: with no own [toString] it inherits the
    one that gives ["[object Object]"], and with an own [toString] the
    conversion finds nothing to call that returns a primitive and throws
    a [TypeError]. *)
Fixpoint ToString `{Runtime} (v : value) : result string :=
  match v with
  | VUndefined => Ok "undefined"
  | VNull => Ok "null"
  | VBool true => Ok "true"
  | VBool false => Ok "false"
  | VNum n => Ok (rt_Number_toString n)
  | VStr s => Ok s
  | VBytes b => Ok (rt_TypedArray_toString b)
  | VArr l =>
      parts ←
        (fix elements (l : list value) : result (list string) :=
           match l with
           | [] => Ok []
           | x :: l =>
               part ← match x with
                      | VUndefined | VNull => Ok EmptyString
                      | _ => ToString x
                      end;
               parts ← elements l;
               Ok (part :: parts)
           end) l;
      Ok (join "," parts)
  | VObj fields =>
      if has_own "toString" fields
      then Throw (TypeError "Cannot convert object to primitive value")
      else Ok "[object Object]"
  end.

(** [error.message] and [error.stack] of what a [catch] caught.  An
    [RPCError] holds the message its constructor was given, which [Error]
    turned into a string, and the stack that replaced its own;
    [CarrierError] is any other value thrown. *)
Definition error_message `{Runtime} (error : exn) : result value :=
  match error with
  | RangeError msg | TypeError msg | PlainError msg => Ok (VStr msg)
  | OperationError => Ok (VStr rt_OperationError_message)
  | RPCError message _ =>
      match message with
      | VUndefined => Ok (VStr EmptyString)
      | _ => s ← ToString message; Ok (VStr s)
      end
  | CarrierError reason => JsValue.get reason "message"
  end.

Definition error_stack `{Runtime} (error : exn) : result value :=
  match error with
  | RPCError _ (Some stack) => Ok stack
  | CarrierError reason => JsValue.get reason "stack"
  | _ => Ok (rt_stack error)
  end.

(** An element of [params]: a value, or the [callback] closure made for
    an item [p] of type FUNCTION, which holds [p.data]. *)
Inductive server_param :=
| ParamValue (v : value)
| ParamCallback (key : value).

(** What a procedure of the extension does once it is called: it returns
    a value (or the promise it returned is fulfilled with it), it throws
    (or the promise is rejected), or it calls its [i]-th parameter with
    values as arguments, awaits what the call returned and goes on with
    the outcome.  A procedure makes its calls before it returns. *)
Inductive procedure :=
| ProcReturn (v : value)
| ProcThrow (e : exn)
| ProcCall (i : nat) (args : list value) (k : result unit -> procedure).

(** [extension]: whether it has the property [asyncLocalStorage], and
    [extension[name]] when that is callable, own or inherited. *)
Record extension := {
  ext_asyncLocalStorage : bool;
  ext_method : string -> option (list server_param -> procedure);
}.

(** The buffers [writer.write] took and the lines [logger] was given. *)
Record server_state := {
  srv_written : list Uint8Array;
  srv_logged : list string;
}.

Definition server_init : server_state := {| srv_written := []; srv_logged := [] |}.

(** [writer.write(buffer)]: [writer] is the error its stream is errored
    with, if it is; the promise returned is then rejected with it. *)
Definition server_write (writer : option exn) (buffer : Uint8Array)
    (st : server_state) : server_state * result unit :=
  match writer with
  | Some error => (st, Throw error)
  | None =>
      ({| srv_written := srv_written st ++ [buffer]; srv_logged := srv_logged st |},
       Ok tt)
  end.

(** [items.at(0)] and [items.slice(1)]: an array, a typed array and a
    string have them, and [slice] keeps the kind of [items]; the loop
    then reads [args.length] and [args[i]]. *)
Definition items_at0 (items : value) : result value :=
  match items with
  | VUndefined | VNull =>
      Throw (TypeError "Cannot read properties of undefined (reading 'at')")
  | VArr _ | VBytes _ | VStr _ =>
      elements ← JsValue.iterate items;
      Ok (JsValue.pattern_nth elements 0)
  | _ => Throw (TypeError "items.at is not a function")
  end.

Definition items_slice1 (items : value) : result (list value) :=
  elements ← JsValue.iterate items;
  Ok (drop 1 elements).

(** The [for] loop over [args]: [params] when the loop ends, or when
    reading [p.type] threw. *)
Fixpoint build_params (args : list value) (params : list server_param)
  : list server_param * result unit :=
  match args with
  | [] => (params, Ok tt)
  | p :: args =>
      match JsValue.get p "type" with
      | Throw error => (params, Throw error)
      | Ok type =>
          if JsValue.loose_eq_num type RPC_DATA_ARG_TYPE_FUNCTION
          then
            match JsValue.get p "data" with
            | Throw error => (params, Throw error)
            | Ok key => build_params args (params ++ [ParamCallback key])
            end
          else
            match JsValue.get p "data" with
            | Throw error => (params, Throw error)
            | Ok data => build_params args (params ++ [ParamValue data])
            end
      end
  end.

(** The variables of [rpcRunServerDecodeBuffer] that are read after the
    [try] block. *)
Record server_vars := {
  var_dataId : value;
  var_fnName : value;
  var_params : list server_param;
}.

(** The logger line: [join(', ')] of the array it maps [params] to,
    between the pieces of the template literal.  The conversions to
    strings can throw. *)
Definition log_param `{Runtime} (o : server_param) : result string :=
  match o with
  | ParamCallback _ => Ok "Function()"
  | ParamValue (VBytes b) =>
      Ok ("Uint8Array(" +:+ rt_Number_toString (Z.of_nat (length b)) +:+ ")")
  | ParamValue VUndefined | ParamValue VNull => Ok EmptyString
  | ParamValue v => ToString v
  end.

Definition log_line `{Runtime} (elapsed : Z) (fnName : value)
    (params : list server_param) : result string :=
  name ← ToString fnName;
  parts ← JsValue.map_result log_param params;
  Ok ("time: " +:+ rt_Number_toString elapsed +:+ "ms " +:+ name +:+ "("
      +:+ join ", " parts +:+ ")").

Section ServerEngine.
Context `{Packr} `{Runtime}.

(** The [callback] closure of an item whose data is [key], called with
    [args]: what the write or building the buffer throws is replaced by an
    error of its own, which keeps it as its cause. *)
Definition callback (writer : option exn) (key : value) (args : list value)
    (st : server_state) : server_state * result unit :=
  match buildRpcItemData (map ItemValue args) with
  | Throw error => (st, Throw error)
  | Ok data =>
      let box := {| rpc_id := key; rpc_type := VNum RPC_TYPE_CALLBACK;
                    rpc_data := data |} in
      match buildRpcData box with
      | Throw error => (st, Throw (PlainError "rpc callback writer.write()"))
      | Ok buffer =>
          match server_write writer buffer st with
          | (st, Throw error) =>
              (st, Throw (PlainError "rpc callback writer.write()"))
          | (st, Ok _) => (st, Ok tt)
          end
      end
  end.

(** [await extension[fnName](...params)], for what the procedure does. *)
Fixpoint run_procedure (writer : option exn) (params : list server_param)
    (p : procedure) (st : server_state) : server_state * result value :=
  match p with
  | ProcReturn v => (st, Ok v)
  | ProcThrow e => (st, Throw e)
  | ProcCall i args k =>
      match params !! i with
      | Some (ParamCallback key) =>
          let '(st, r) := callback writer key args st in
          run_procedure writer params (k r) st
      | _ =>
          run_procedure writer params
            (k (Throw (TypeError "callback is not a function"))) st
      end
  end.

(** The [try] block of [rpcRunServerDecodeBuffer]: the state and the
    variables it leaves, and the [box] it made or what it threw. *)
Definition rpcRunServerDecodeBuffer_try (extension : extension)
    (writer : option exn) (buffer : Uint8Array) (st : server_state)
  : server_state * server_vars * result RPC_DATA :=
  let dataId := VNum 0 in
  let fnName := VNull in
  let params := [] in
  match parseRpcData buffer with
  | Throw error =>
      (st, {| var_dataId := dataId; var_fnName := fnName; var_params := params |},
       Throw error)
  | Ok o =>
      let dataId := rpc_id o in
      let items := rpc_data o in
      match (first ← items_at0 items; JsValue.get first "data") with
      | Throw error =>
          (st, {| var_dataId := dataId; var_fnName := fnName; var_params := params |},
           Throw error)
      | Ok fnName =>
          match items_slice1 items with
          | Throw error =>
              (st, {| var_dataId := dataId; var_fnName := fnName;
                      var_params := params |},
               Throw error)
          | Ok args =>
              let '(params, looped) := build_params args params in
              let vars := {| var_dataId := dataId; var_fnName := fnName;
                             var_params := params |} in
              match looped with
              | Throw error => (st, vars, Throw error)
              | Ok _ =>
                  match ToString fnName with
                  | Throw error => (st, vars, Throw error)
                  | Ok name =>
                      match ext_method extension name with
                      | None =>
                          (st, vars,
                           Throw (TypeError "extension[fnName] is not a function"))
                      | Some f =>
                          match run_procedure writer params (f params) st with
                          | (st, Throw error) => (st, vars, Throw error)
                          | (st, Ok ret) =>
                              (st, vars,
                               Ok {| rpc_id := rpc_id o;
                                     rpc_type := VNum RPC_TYPE_RETURN;
                                     rpc_data := ret |})
                          end
                      end
                  end
              end
          end
      end
  end.

(** The [catch] block: the [box] after it, or what reading
    [error.message] or [error.stack] threw. *)
Definition rpcRunServerDecodeBuffer_catch (vars : server_vars)
    (tried : result RPC_DATA) : result RPC_DATA :=
  match tried with
  | Ok box => Ok box
  | Throw error =>
      message ← error_message error;
      stack ← error_stack error;
      Ok {| rpc_id := var_dataId vars; rpc_type := VNum RPC_TYPE_ERROR;
            rpc_data := VObj [("message", message); ("stack", stack)] |}
  end.

(** What follows the [catch] block: the logger line, which is built
    outside the [try], the call of the logger and the write of [box]. *)
Definition rpcRunServerDecodeBuffer_reply (writer : option exn)
    (logger : option (string -> result unit)) (elapsed : Z) (vars : server_vars)
    (box : RPC_DATA) (st : server_state) : server_state * result unit :=
  let '(st, logged) :=
    match logger with
    | None => (st, Ok tt)
    | Some logger =>
        match log_line elapsed (var_fnName vars) (var_params vars) with
        | Throw error => (st, Throw error)
        | Ok line =>
            ({| srv_written := srv_written st;
                srv_logged := srv_logged st ++ [line] |},
             logger line)
        end
    end in
  match logged with
  | Throw error => (st, Throw error)
  | Ok _ =>
      match buildRpcData box with
      | Throw error => (st, Throw error)
      | Ok buffer => server_write writer buffer st
      end
  end.

(** [rpcRunServerDecodeBuffer(extension, writer, buffer, logger)];
    [clock] is what [Date.now()] gives at the beginning and for the
    logger line.  The result is [Throw] when the promise the function
    returns is rejected. *)
Definition rpcRunServerDecodeBuffer (extension : extension) (writer : option exn)
    (buffer : Uint8Array) (logger : option (string -> result unit))
    (clock : Z * Z) (st : server_state) : server_state * result unit :=
  let time := clock.1 in
  let '(st, vars, tried) := rpcRunServerDecodeBuffer_try extension writer buffer st in
  match rpcRunServerDecodeBuffer_catch vars tried with
  | Throw error => (st, Throw error)
  | Ok box => rpcRunServerDecodeBuffer_reply writer logger (clock.2 - time) vars box st
  end.

(** The [write(buffer)] handler that [createRpcServerHelper] pipes the
    decoded records to, when [param.async] is not set. *)
Definition createRpcServerHelper_write (extension : extension)
    (writer : option exn) (logger : option (string -> result unit))
    (clock : Z * Z) (buffer : Uint8Array) (st : server_state)
  : server_state * result unit :=
  if negb (ext_asyncLocalStorage extension)
  then (st, Throw (TypeError "Cannot read properties of undefined (reading 'enterWith')"))
  else rpcRunServerDecodeBuffer extension writer buffer logger clock st.

(** The records that reach the handler, one after the other; a
    [write] that is rejected errors the stream and no later record is
    handled. *)
Fixpoint createRpcServerHelper_run (extension : extension)
    (writer : option exn) (logger : option (string -> result unit))
    (clock : nat -> Z * Z) (n : nat) (records : list Uint8Array)
    (st : server_state) : server_state * result unit :=
  match records with
  | [] => (st, Ok tt)
  | buffer :: records =>
      match createRpcServerHelper_write extension writer logger (clock n) buffer st with
      | (st, Throw error) => (st, Throw error)
      | (st, Ok _) =>
          createRpcServerHelper_run extension writer logger clock (S n) records st
      end
  end.

End ServerEngine.

(** Closed forms of what the server does for a well-formed CALL: the
    parameters made for the items, the calls a procedure makes of its
    callbacks with what it ends with, and the buffers of a CALLBACK
    message and of the reply. *)
Definition param_of_item (item : value * value) : server_param :=
  if JsValue.loose_eq_num item.1 RPC_DATA_ARG_TYPE_FUNCTION
  then ParamCallback item.2
  else ParamValue item.2.

Fixpoint proc_trace (params : list server_param) (p : procedure)
  : list (value * list value) * result value :=
  match p with
  | ProcReturn v => ([], Ok v)
  | ProcThrow e => ([], Throw e)
  | ProcCall i args k =>
      match params !! i with
      | Some (ParamCallback key) =>
          let '(calls, r) := proc_trace params (k (Ok tt)) in
          ((key, args) :: calls, r)
      | _ => proc_trace params (k (Throw (TypeError "callback is not a function")))
      end
  end.

Definition callback_buffer `{Packr} (call : value * list value) : Uint8Array :=
  packr_pack
    (VArr [call.1; VNum RPC_TYPE_CALLBACK;
           VArr (map (fun v => VArr [VNum RPC_DATA_ARG_TYPE_OTHERS; v]) call.2)]).

Definition return_buffer `{Packr} (id ret : value) : Uint8Array :=
  packr_pack (VArr [id; VNum RPC_TYPE_RETURN; ret]).

Definition error_buffer `{Packr} (id message stack : value) : Uint8Array :=
  packr_pack
    (VArr [id; VNum RPC_TYPE_ERROR; VObj [("message", message); ("stack", stack)]]).

(** The id a reply bears: the id of the request, or 0 when the request
    could not be parsed. *)
Definition request_id `{Packr} (buffer : Uint8Array) : value :=
  match parseRpcData buffer with
  | Ok o => rpc_id o
  | Throw _ => VNum 0
  end.

(** The parameters the server makes for the arguments of an [apiInvoke]
    whose first callback key is [key]. *)
Fixpoint params_of_args (args : list js_arg) (key : Z) : list server_param :=
  match args with
  | [] => []
  | ArgValue v :: args => ParamValue v :: params_of_args args key
  | ArgFunction _ :: args => ParamCallback (VNum key) :: params_of_args args (key + 1)
  | ArgCallable _ called :: args =>
      ParamCallback (wire_item (ItemFunction called)).2 :: params_of_args args key
  end.

(** The callback of the client that a key names, for an [apiInvoke] whose
    first callback key is [key]. *)
Definition function_of_key (args : list js_arg) (key : Z) (k : value)
  : option js_function :=
  match k with
  | VNum n =>
      if decide (key <= n)%Z then functions_of args !! Z.to_nat (n - key) else None
  | _ => None
  end.

(** What serving a call of [name] with [params] comes to: the calls made
    of the callbacks, and what the [await] gives or throws. *)
Definition serve (extension : extension) (name : string)
    (params : list server_param) : list (value * list value) * result value :=
  match ext_method extension name with
  | None => ([], Throw (TypeError "extension[fnName] is not a function"))
  | Some f => proc_trace params (f params)
  end.

(** The calls the client makes of its callbacks for the CALLBACK messages
    of [calls]. *)
Definition client_calls (args : list js_arg) (key : Z)
    (calls : list (value * list value)) : list (js_function * list value) :=
  omap (fun call => f ← function_of_key args key call.1; Some (f, call.2)) calls.

(** The client handler run over the records of a list, in order. *)
Definition onmessages `{Packr} (buffers : list Uint8Array) (st : client_state)
  : client_state :=
  foldl (fun st buffer => onmessage buffer st) st buffers.

(** A runtime and an extension to run the server on. *)
#[local] Instance toy_runtime : Runtime := {|
  rt_Number_toString := pretty;
  rt_TypedArray_toString := fun b => join "," (map (fun x => pretty (Js.u8 x)) b);
  rt_stack := fun error =>
    match error with
    | TypeError msg => VStr ("TypeError: " +:+ msg +:+ " at toy")
    | PlainError msg => VStr ("Error: " +:+ msg +:+ " at toy")
    | _ => VStr "Error at toy"
    end;
  rt_OperationError_message := "The operation failed for an operation-specific reason";
|}.

Definition toy_extension : extension :=
  {| ext_asyncLocalStorage := true;
     ext_method := fun name =>
       if String.eqb name "hello"
       then Some (fun params =>
                    match params with
                    | [ParamValue (VStr x)] => ProcReturn (VStr ("hello " +:+ x))
                    | _ => ProcThrow (TypeError "hello takes a string")
                    end)
       else if String.eqb name "progress"
       then Some (fun params =>
                    ProcCall 0 [VStr "progress 0"] (fun _ =>
                    ProcCall 0 [VStr "progress 1"] (fun r =>
                    match r with
                    | Ok _ => ProcReturn (VStr "done")
                    | Throw e => ProcThrow e
                    end)))
       else if String.eqb name "fail"
       then Some (fun _ => ProcThrow (PlainError "boom"))
       else if String.eqb name "refuse"
       then Some (fun _ =>
                    ProcThrow
                      (CarrierError
                         (VObj [("message", VObj [("toString", VNum 1)]);
                                ("stack", VStr "at refuse")])))
       else None |}.

(** ** Text helpers *)

(** The text conversions that are the platform's: [TextDecoder], [btoa]
    and [atob] with the conversions between bytes and code units around
    them, [TextEncoder.encode] of a value that is not a string, and the
    conversion to a byte of an array element that is not a number. *)
Class TextCodec := {
  TextDecoder_decode : Uint8Array -> string;
  btoa_fromCharCode : Uint8Array -> string;
  atob_codePoints : value -> result Uint8Array;
  TextEncoder_encode_other : value -> Uint8Array;
  ToUint8_other : value -> byte;
}.

(** [\da-f] with the flag [i]. *)
Definition is_hex (c : Ascii.ascii) : bool :=
  let n := Ascii.nat_of_ascii c in
  (48 <=? n) && (n <=? 57) || (97 <=? n) && (n <=? 102) || (65 <=? n) && (n <=? 70).

(** [array.match(/[\da-f]{2}/gi)]: the matches from left to right; after
    a match the search goes on behind it, otherwise one character
    further.  No match at all gives [null], here the empty list. *)
Fixpoint hex_match (s : string) : list (Ascii.ascii * Ascii.ascii) :=
  match s with
  | String a tail =>
      match tail with
      | String b rest =>
          if is_hex a && is_hex b then (a, b) :: hex_match rest else hex_match tail
      | EmptyString => []
      end
  | EmptyString => []
  end.

(** [parseInt(h, 16)] of two hex digits. *)
Definition hex_value (c : Ascii.ascii) : Z :=
  let n := Z.of_nat (Ascii.nat_of_ascii c) in
  if (n <=? 57)%Z then (n - 48)%Z else if (n <=? 70)%Z then (n - 55)%Z else (n - 87)%Z.

Definition parseInt16 (h : Ascii.ascii * Ascii.ascii) : Z :=
  (16 * hex_value h.1 + hex_value h.2)%Z.

(** [b.toString(16)] of a byte and [padStart(2, "0")]. *)
Definition hex_digit (n : Z) : Ascii.ascii :=
  Ascii.ascii_of_nat (Z.to_nat (if (n <? 10)%Z then 48 + n else 87 + n)%Z).

Definition Number_toString16 (b : Z) : string :=
  if (b <? 16)%Z then String (hex_digit b) EmptyString
  else String (hex_digit (b / 16)) (String (hex_digit (b mod 16)) EmptyString).

Definition padStart2 (s : string) : string :=
  match String.length s with
  | 0 => "00"
  | 1 => "0" +:+ s
  | _ => s
  end.

Definition encoding_is (encoding : option string) (name : string) : bool :=
  match encoding with
  | Some e => String.eqb e name
  | None => false
  end.

Section TextHelpers.
Context `{TextCodec}.

(** [Uint8Array_from(array, encoding)]; [encoding] is [None] when it is
    left out. *)
Definition Uint8Array_from (array : value) (encoding : option string)
  : result Uint8Array :=
  array ←
    (if encoding_is encoding "hex"
     then match array with
          | VStr s =>
              match hex_match s with
              | [] => Throw (TypeError "Cannot read properties of null (reading 'map')")
              | matches => Ok (VBytes (map (fun h => Js.to_u8 (parseInt16 h)) matches))
              end
          | VUndefined | VNull =>
              Throw (TypeError "Cannot read properties of undefined (reading 'match')")
          | _ => Throw (TypeError "array.match is not a function")
          end
     else Ok array);
  array ←
    (if encoding_is encoding "base64"
     then bytes ← atob_codePoints array; Ok (VBytes bytes)
     else Ok array);
  let array :=
    if encoding_is encoding "utf-8"
    then VBytes match array with
                | VStr s => TextEncoder_encode s
                | _ => TextEncoder_encode_other array
                end
    else array in
  let array :=
    match array with
    | VStr s => VBytes (TextEncoder_encode s)
    | _ => array
    end in
  match array with
  | VBytes b => Ok b
  | VArr l =>
      Ok (map (fun x => match x with
                        | VNum n => Js.to_u8 n
                        | _ => ToUint8_other x
                        end) l)
  | _ => Throw (TypeError "Argument must be an array or Uint8Array")
  end.

(** [Uint8Array_toString(buffer, encoding)] *)
Definition Uint8Array_toString (buffer : Uint8Array) (encoding : option string)
  : string :=
  let encoding := default "utf-8" encoding in
  if String.eqb encoding "hex"
  then join EmptyString (map (fun b => padStart2 (Number_toString16 (Js.u8 b))) buffer)
  else if String.eqb encoding "base64"
  then btoa_fromCharCode buffer
  else TextDecoder_decode buffer.

(** [buildBufferSizeString(string)] *)
Definition buildBufferSizeString (string : string) : result Uint8Array :=
  let buffer := TextEncoder_encode string in
  header ← buildBufferNumberUInt32LE (Z.of_nat (length buffer));
  Uint8Array_concat [header; buffer].

(** [readBufferSizeString(buffer, offset)]: the object [{ size, string }];
    [slice] stops at the end of the buffer. *)
Definition readBufferSizeString (buffer : Uint8Array) (offset : nat)
  : result (Z * string) :=
  size ← readUInt32LE buffer offset;
  let start := offset + 4 in
  let end_ := start + Z.to_nat size in
  let string := TextDecoder_decode (take (end_ - start) (drop start buffer)) in
  Ok ((4 + size)%Z, string).

End TextHelpers.

(** A codec to run the text helpers on: a string is its bytes, and the
    base64 conversions, which the runs do not use, leave the bytes as they
    are. *)
#[local] Instance toy_codec : TextCodec := {|
  TextDecoder_decode := String.string_of_list_byte;
  btoa_fromCharCode := String.string_of_list_byte;
  atob_codePoints := fun v =>
    match v with
    | VStr s => Ok (String.list_byte_of_string s)
    | _ => Throw (PlainError "The string to be decoded is not correctly encoded.")
    end;
  TextEncoder_encode_other := fun _ => [];
  ToUint8_other := fun _ => x00;
|}.

(* ===================================================================== *)
(** * Part II: properties                                                 *)
(* ===================================================================== *)

(** ** The model at work *)

Example readUInt32LE_check :
  readUInt32LE [x02; x00; x00; x00; x5f; x70; xf7; xb1] 4 = Ok HEADER_CHECK.
Proof. reflexivity. Qed.

Example readUInt32LE_out_of_bounds :
  readUInt32LE [x02; x00; x00; x00; x5f] 4 = Throw (RangeError "Reading out of bounds").
Proof. reflexivity. Qed.

Example writeUInt32LE_wraps :
  writeUInt32LE (replicate 4 xff) (2 ^ 32 + 258) 0 = Ok [x02; x01; x00; x00].
Proof. reflexivity. Qed.

Example buildBufferData_two_records :
  @buildBufferData toy_crypto [[x01; x02]; [x03]] None None
  = Ok [x02; x00; x00; x00; x5f; x70; xf7; xb1; x01; x02;
        x01; x00; x00; x00; x5f; x70; xf7; xb1; x03].
Proof. reflexivity. Qed.

Example parseBufferData_one_and_a_half :
  @parseBufferData toy_crypto
    [x02; x00; x00; x00; x5f; x70; xf7; xb1; x01; x02;
     x01; x00; x00; x00; x5f; x70] None None
  = Some (Ok {| pr_queue := [[x01; x02]];
                pr_remain := [x01; x00; x00; x00; x5f; x70];
                pr_console := None |}).
Proof. reflexivity. Qed.

Example parseBufferData_bad_check :
  @parseBufferData toy_crypto
    [x02; x00; x00; x00; x5f; x70; xf7; xb1; x01; x02;
     x01; x00; x00; x00; x00; x00; x00; x00; x03] None None
  = Some (Ok {| pr_queue := [[x01; x02]]; pr_remain := [];
                pr_console := Some (1%Z, 0%Z) |}).
Proof. reflexivity. Qed.

Example decrypt_fails_on_forged_record :
  @createDecodeStream_run toy_crypto toy_key_iv []
    [[x10; x00; x00; x00; x5f; x70; xf7; xb1] ++ replicate 16 x20;
     [x01; x00; x00; x00; x5f; x70; xf7; xb1; x03]]
  = Some ([[]], Throw OperationError).
Proof. reflexivity. Qed.

Example apiInvoke_hello :
  (@apiInvoke_begin toy_packr "hello" [ArgValue (VStr "x"); ArgFunction async_fn]
     client_init).2
  = Ok {| inv_id := 0; inv_promise := 0; inv_keys := [1%Z] |}.
Proof. reflexivity. Qed.

Example timeWaitRetryLoop_first_turns :
  timeWaitRetryLoop 3 toy_turns = None
  /\ timeWaitRetryLoop 13 toy_turns
     = Some [300; 600; 1200; 2400; 4800; 9600; 19200; 38400; 60000; 60000;
             300; 600]%Z.
Proof. split; reflexivity. Qed.

(** ** Bit arithmetic *)

Lemma u8_range b : (0 <= Js.u8 b < 256)%Z.
Proof.
  unfold Js.u8. pose proof (Byte.to_N_bounded b) as Hb.
  split; [apply N2Z.is_nonneg | ].
  change 256%Z with (Z.of_N 256). apply N2Z.inj_lt. lia.
Qed.

Lemma u8_to_u8 z : Js.u8 (Js.to_u8 z) = (z mod 256)%Z.
Proof.
  unfold Js.u8, Js.to_u8.
  assert (Hr : (0 <= z mod 256 < 256)%Z) by (apply Z.mod_pos_bound; lia).
  destruct (Byte.of_N (Z.to_N (z mod 256))) as [b|] eqn:E.
  - apply Byte.to_of_N in E. rewrite E. rewrite Z2N.id; lia.
  - apply Byte.of_N_None_iff in E. lia.
Qed.

Lemma to_u8_u8 b : Js.to_u8 (Js.u8 b) = b.
Proof.
  unfold Js.to_u8. pose proof (u8_range b) as Hb.
  rewrite Z.mod_small by lia. unfold Js.u8. rewrite N2Z.id.
  by rewrite Byte.of_to_N.
Qed.

Lemma to_u8_mod z : Js.to_u8 (z mod 256) = Js.to_u8 z.
Proof. unfold Js.to_u8. by rewrite Z.mod_mod. Qed.

Lemma ToInt32_small x : (- 2 ^ 31 <= x < 2 ^ 31)%Z -> Js.ToInt32 x = x.
Proof. intros Hx. unfold Js.ToInt32. rewrite Z.mod_small; lia. Qed.

Lemma ToInt32_range x : (- 2 ^ 31 <= Js.ToInt32 x < 2 ^ 31)%Z.
Proof.
  unfold Js.ToInt32.
  pose proof (Z.mod_pos_bound (x + 2 ^ 31) (2 ^ 32)). lia.
Qed.

Lemma ToUint32_ToInt32 x : Js.ToUint32 (Js.ToInt32 x) = Js.ToUint32 x.
Proof.
  unfold Js.ToUint32, Js.ToInt32.
  rewrite <- (Z.add_opp_r _ (2 ^ 31)).
  rewrite <- Zplus_mod_idemp_l, Z.mod_mod by lia.
  rewrite Zplus_mod_idemp_l. f_equal. lia.
Qed.

Lemma ToUint32_lor x y :
  Js.ToUint32 (Z.lor x y) = Z.lor (Js.ToUint32 x) (Js.ToUint32 y).
Proof.
  unfold Js.ToUint32. rewrite <- !Z.land_ones by lia.
  apply Z.land_lor_distr_l.
Qed.

Lemma lor_disjoint a b n :
  (0 <= n)%Z -> (0 <= a < 2 ^ n)%Z -> Z.lor a (b * 2 ^ n) = (a + b * 2 ^ n)%Z.
Proof.
  intros Hn Ha. symmetry. apply Z.add_nocarry_lor.
  apply Z.bits_inj'. intros i Hi. rewrite Z.land_spec, Z.bits_0.
  destruct (Z.lt_ge_cases i n) as [Hlt|Hge].
  - rewrite Z.mul_pow2_bits_low by lia. apply andb_false_r.
  - destruct (Z.eq_dec a 0) as [->|Hne]; [by rewrite Z.bits_0|].
    rewrite (Z.bits_above_log2 a i); [done|lia|].
    apply Z.log2_lt_pow2; [lia|]. eapply Z.lt_le_trans; [apply Ha|].
    apply Z.pow_le_mono_r; lia.
Qed.

Lemma ToInt32_decompose x : exists q, Js.ToInt32 x = (x - 2 ^ 32 * q)%Z.
Proof.
  exists ((x + 2 ^ 31) / 2 ^ 32)%Z. unfold Js.ToInt32.
  rewrite Z.mod_eq by lia. lia.
Qed.

Lemma and_255 x : Js.and x 0xff = (x mod 256)%Z.
Proof.
  unfold Js.and. rewrite (ToInt32_small 255) by lia.
  change 255%Z with (Z.ones 8). rewrite Z.land_ones by lia.
  destruct (ToInt32_decompose x) as [q ->].
  replace (x - 2 ^ 32 * q)%Z with (x + (- 2 ^ 24 * q) * 2 ^ 8)%Z by lia.
  by rewrite Z.mod_add by lia.
Qed.

Lemma sar_and_255 v k :
  (0 <= k <= 24)%Z ->
  Js.and (Js.sar v k) 0xff = ((v / 2 ^ k) mod 256)%Z.
Proof.
  intros Hk. rewrite and_255. unfold Js.sar.
  assert (Js.ToUint32 k mod 32 = k)%Z as ->.
  { unfold Js.ToUint32. rewrite (Z.mod_small k (2 ^ 32)) by lia.
    apply Z.mod_small. lia. }
  rewrite Z.shiftr_div_pow2 by lia.
  destruct (ToInt32_decompose v) as [q ->].
  assert (2 ^ 32 = 2 ^ (32 - k) * 2 ^ k)%Z as ->.
  { rewrite <- Z.pow_add_r by lia. f_equal. lia. }
  replace (v - 2 ^ (32 - k) * 2 ^ k * q)%Z
    with (v + (- 2 ^ (32 - k) * q) * 2 ^ k)%Z by lia.
  rewrite Z.div_add by lia.
  assert (2 ^ (32 - k) = 2 ^ (24 - k) * 2 ^ 8)%Z as ->.
  { rewrite <- Z.pow_add_r by lia. f_equal. lia. }
  replace (v / 2 ^ k + - (2 ^ (24 - k) * 2 ^ 8) * q)%Z
    with (v / 2 ^ k + (- 2 ^ (24 - k) * q) * 2 ^ 8)%Z by lia.
  by rewrite Z.mod_add by lia.
Qed.

(** The header [buildBufferData] fills in is the two numbers in
    little-endian order. *)
Lemma writeUInt32LE_header len magic :
  (header ← writeUInt32LE (replicate 8 x00) len 0;
   writeUInt32LE header magic (0 + 4)) = Ok (le32 len ++ le32 magic).
Proof.
  unfold writeUInt32LE. cbn [replicate length Nat.ltb Nat.leb Nat.add mbind result_bind].
  cbn [insert list_insert Nat.add length Nat.ltb Nat.leb].
  rewrite !sar_and_255, !and_255, !to_u8_mod by lia.
  reflexivity.
Qed.

Lemma shl_byte x k :
  (0 <= x < 256)%Z -> (0 <= k <= 24)%Z ->
  Js.ToUint32 (Js.shl (Js.and x 0xff) k) = (x * 2 ^ k)%Z.
Proof.
  intros Hx Hk. rewrite and_255, (Z.mod_small x) by lia.
  unfold Js.shl. rewrite ToUint32_ToInt32, (ToInt32_small x) by lia.
  assert (Js.ToUint32 k mod 32 = k)%Z as ->.
  { unfold Js.ToUint32. rewrite (Z.mod_small k (2 ^ 32)) by lia.
    apply Z.mod_small. lia. }
  rewrite Z.shiftl_mul_pow2 by lia.
  unfold Js.ToUint32. apply Z.mod_small.
  assert (2 ^ k <= 2 ^ 24)%Z by (apply Z.pow_le_mono_r; lia).
  assert (0 < 2 ^ k)%Z by (apply Z.pow_pos_nonneg; lia). nia.
Qed.

Lemma read_word a b c d :
  (0 <= a < 256)%Z -> (0 <= b < 256)%Z -> (0 <= c < 256)%Z -> (0 <= d < 256)%Z ->
  Js.ushr0
    (Js.or (Js.or (Js.or (Js.and a 0xff) (Js.shl (Js.and b 0xff) 8))
                  (Js.shl (Js.and c 0xff) 16))
           (Js.shl (Js.and d 0xff) 24))
  = (a + b * 2 ^ 8 + c * 2 ^ 16 + d * 2 ^ 24)%Z.
Proof.
  intros Ha Hb Hc Hd. unfold Js.ushr0, Js.or.
  rewrite !ToUint32_lor, !ToUint32_ToInt32, !ToUint32_lor, !ToUint32_ToInt32.
  rewrite !ToUint32_lor, !ToUint32_ToInt32.
  rewrite !shl_byte by lia.
  rewrite and_255, (Z.mod_small a) by lia.
  assert (Js.ToUint32 a = a) as -> by (unfold Js.ToUint32; apply Z.mod_small; lia).
  rewrite (lor_disjoint a b 8) by lia.
  rewrite (lor_disjoint _ c 16) by lia.
  rewrite (lor_disjoint _ d 24) by lia.
  reflexivity.
Qed.

Lemma cell_app_l pre post i b :
  post !! i = Some b -> Js.cell (pre ++ post) (length pre + i) = Js.u8 b.
Proof.
  intros Hi. unfold Js.cell.
  rewrite lookup_app_r by lia.
  replace (length pre + i - length pre) with i by lia. by rewrite Hi.
Qed.

(** Reading where four bytes lie gives the number they spell. *)
Lemma readUInt32LE_at pre b0 b1 b2 b3 post :
  readUInt32LE (pre ++ b0 :: b1 :: b2 :: b3 :: post) (length pre)
  = Ok (Js.u8 b0 + Js.u8 b1 * 2 ^ 8 + Js.u8 b2 * 2 ^ 16 + Js.u8 b3 * 2 ^ 24)%Z.
Proof.
  unfold readUInt32LE.
  rewrite length_app. cbn [length].
  destruct (Nat.ltb_spec (length pre + S (S (S (S (length post))))) (length pre + 4));
    [lia|].
  rewrite <- (Nat.add_0_r (length pre)) at 1.
  rewrite (cell_app_l pre _ 0 b0), (cell_app_l pre _ 1 b1),
    (cell_app_l pre _ 2 b2), (cell_app_l pre _ 3 b3) by done.
  f_equal. apply read_word; apply u8_range.
Qed.

Lemma readUInt32LE_le32 pre v post :
  (0 <= v < 2 ^ 32)%Z ->
  readUInt32LE (pre ++ le32 v ++ post) (length pre) = Ok v.
Proof.
  intros Hv. unfold le32. cbn [app]. rewrite readUInt32LE_at, !u8_to_u8.
  f_equal.
  rewrite (Z.mod_eq v 256), (Z.mod_eq (v / 2 ^ 8) 256),
    (Z.mod_eq (v / 2 ^ 16) 256) by lia.
  rewrite !Z.div_div by lia.
  change (2 ^ 8 * 256)%Z with (2 ^ 16)%Z. change (2 ^ 16 * 256)%Z with (2 ^ 24)%Z.
  assert (v / 2 ^ 24 < 256)%Z by (apply Z.div_lt_upper_bound; lia).
  assert (0 <= v / 2 ^ 24)%Z by (apply Z.div_pos; lia).
  rewrite (Z.mod_small (v / 2 ^ 24)) by lia.
  change (2 ^ 8)%Z with 256%Z. change (2 ^ 16)%Z with 65536%Z.
  change (2 ^ 24)%Z with 16777216%Z.
  lia.
Qed.

(** ** Concatenation *)

Lemma totalLength_concat (buffers : list Uint8Array) n :
  foldl (fun sum buffer => sum + length buffer) n buffers
  = n + length (concat buffers).
Proof.
  revert n. induction buffers as [|b bs IH]; intros n; cbn [foldl concat].
  - cbn. lia.
  - rewrite IH, length_app. lia.
Qed.

Lemma Uint8Array_concat_loop_ok (buffers : list Uint8Array) (pre : Uint8Array) :
  Uint8Array_concat_loop buffers
    (pre ++ replicate (length (concat buffers)) x00) (length pre)
  = Ok (pre ++ concat buffers).
Proof.
  revert pre. induction buffers as [|b bs IH]; intros pre; cbn [Uint8Array_concat_loop concat].
  - cbn. by rewrite app_nil_r.
  - unfold TypedArray_set.
    rewrite !length_app, length_replicate.
    destruct (Nat.ltb_spec (length pre + (length b + length (concat bs)))
                (length pre + length b)); [lia|].
    cbn [mbind result_bind].
    rewrite take_app_length.
    rewrite drop_app_ge by lia.
    rewrite drop_replicate.
    replace (length b + length (concat bs) - (length pre + length b - length pre))
      with (length (concat bs)) by lia.
    specialize (IH (pre ++ b)).
    rewrite length_app, <- (assoc (++)) in IH.
    rewrite IH. by rewrite <- (assoc (++)).
Qed.

(** [Uint8Array_concat] never throws and is list concatenation. *)
Lemma Uint8Array_concat_ok (buffers : list Uint8Array) :
  Uint8Array_concat buffers = Ok (concat buffers).
Proof.
  unfold Uint8Array_concat. rewrite totalLength_concat.
  apply (Uint8Array_concat_loop_ok buffers []).
Qed.

(** ** Frame codec *)

Section FrameCodec.
Context `{SubtleCrypto}.
Implicit Types (key : option CryptoKey) (iv : option Uint8Array).
Implicit Types (data buffer : Uint8Array) (queue : list Uint8Array).

Lemma buildBufferData_item_ok data key iv :
  buildBufferData_item data key iv
  = Ok [le32 (Z.of_nat (length (encrypt data key iv))) ++ le32 HEADER_CHECK;
        encrypt data key iv].
Proof.
  unfold buildBufferData_item.
  pose proof (writeUInt32LE_header
                (Z.of_nat (length (encrypt data key iv))) HEADER_CHECK) as Hh.
  destruct (writeUInt32LE (replicate 8 x00) _ 0) as [h|e]; cbn in Hh |- *.
  - by rewrite Hh.
  - done.
Qed.

Lemma buildBufferData_loop_ok queue key iv buffers :
  exists pushed,
    buildBufferData_loop queue key iv buffers = Ok (buffers ++ pushed)
    /\ concat pushed = concat (map (frame key iv) queue).
Proof.
  revert buffers. induction queue as [|d q IH]; intros buffers; cbn [buildBufferData_loop].
  - exists []. by rewrite app_nil_r.
  - rewrite buildBufferData_item_ok. cbn [mbind result_bind].
    destruct (IH (buffers ++
      [le32 (Z.of_nat (length (encrypt d key iv))) ++ le32 HEADER_CHECK;
       encrypt d key iv])) as (pushed & -> & Hp).
    eexists. split; [by rewrite <- (assoc (++))|].
    cbn [map concat app]. rewrite Hp.
    unfold frame. by rewrite <- !(assoc (++)).
Qed.

(** [buildBufferData] never throws: it writes the frames of the records
    one after the other. *)
Lemma buildBufferData_ok queue key iv :
  buildBufferData queue key iv = Ok (concat (map (frame key iv) queue)).
Proof.
  unfold buildBufferData.
  destruct (buildBufferData_loop_ok queue key iv []) as (pushed & -> & Hp).
  cbn [mbind result_bind app]. by rewrite Uint8Array_concat_ok, Hp.
Qed.

Lemma createEncodeStream_run_ok key iv (records : list Uint8Array) :
  createEncodeStream_run (key, iv) records = Ok (map (frame key iv) records).
Proof.
  induction records as [|r rs IH]; [done|].
  cbn [createEncodeStream_run createEncodeStream_transform].
  rewrite buildBufferData_ok, IH. cbn. by rewrite app_nil_r.
Qed.

Lemma length_le32 v : length (le32 v) = 4.
Proof. done. Qed.

Lemma length_frame key iv data :
  length (frame key iv data) = 8 + length (encrypt data key iv).
Proof. unfold frame. rewrite !length_app, !length_le32. lia. Qed.

End FrameCodec.

Section FrameDecoder.
Context `{SubtleCrypto}.
Implicit Types (key : option CryptoKey) (iv : option Uint8Array).
Implicit Types (data buffer pre part : Uint8Array) (queue : list Uint8Array).

(** The loop always leaves with a result: the fuel [parseBufferData]
    gives it is never used up. *)
Lemma parseBufferData_loop_total fuel buffer key iv queue offset :
  length buffer - offset < 8 * fuel ->
  is_Some (parseBufferData_loop fuel buffer key iv queue offset).
Proof.
  revert queue offset. induction fuel as [|fuel IH]; intros queue offset Hf; [lia|].
  cbn [parseBufferData_loop].
  destruct (Nat.ltb_spec offset (length buffer)); cbn [negb]; [|done].
  destruct (Nat.ltb_spec (length buffer) (offset + 8)); [done|].
  destruct (readUInt32LE buffer offset) as [len|]; [|done].
  destruct (readUInt32LE buffer (offset + 4)) as [magic|]; [|done].
  destruct (Nat.ltb_spec (length buffer) (offset + 4 + 4 + Z.to_nat len)); [done|].
  destruct (HEADER_CHECK =? magic)%Z; cbn [negb]; [|done].
  destruct (decrypt _ key iv); [|done].
  apply IH. lia.
Qed.

Lemma parseBufferData_total buffer key iv :
  is_Some (parseBufferData buffer key iv).
Proof. apply parseBufferData_loop_total. lia. Qed.

Lemma parseBufferData_loop_end fuel buffer key iv queue offset :
  length buffer <= offset ->
  parseBufferData_loop (S fuel) buffer key iv queue offset
  = Some (Ok {| pr_queue := queue; pr_remain := []; pr_console := None |}).
Proof.
  intros Ho. cbn [parseBufferData_loop].
  by destruct (Nat.ltb_spec offset (length buffer)); [lia|].
Qed.

(** The header of a frame, read back. *)
Lemma read_frame_length pre key iv data post :
  fits key iv data ->
  readUInt32LE (pre ++ frame key iv data ++ post) (length pre)
  = Ok (Z.of_nat (length (encrypt data key iv))).
Proof.
  intros Hfit. unfold frame. rewrite <- !(assoc (++)).
  apply readUInt32LE_le32. unfold fits in Hfit. lia.
Qed.

Lemma read_frame_check pre key iv data post :
  readUInt32LE (pre ++ frame key iv data ++ post) (length pre + 4)
  = Ok HEADER_CHECK.
Proof.
  unfold frame. rewrite <- !(assoc (++)), (assoc (++) pre).
  replace (length pre + 4) with (length (pre ++ le32 (Z.of_nat (length (encrypt data key iv)))))
    by (by rewrite length_app).
  by apply readUInt32LE_le32.
Qed.

Section WithCipherLaw.
Hypothesis subtle_decrypt_encrypt :
  forall p k d, subtle_decrypt p k (subtle_encrypt p k d) = Ok d.

Lemma decrypt_encrypt data key iv :
  decrypt (encrypt data key iv) key iv = Ok data.
Proof. unfold decrypt, encrypt. cbn. destruct key; [apply subtle_decrypt_encrypt|done]. Qed.

(** One whole frame at [offset]: the loop emits its record and goes on
    behind it. *)
Lemma parseBufferData_loop_frame fuel pre key iv data post queue :
  fits key iv data ->
  parseBufferData_loop (S fuel) (pre ++ frame key iv data ++ post) key iv queue
    (length pre)
  = parseBufferData_loop fuel (pre ++ frame key iv data ++ post) key iv
      (queue ++ [data]) (length pre + length (frame key iv data)).
Proof.
  intros Hfit. cbn [parseBufferData_loop].
  rewrite read_frame_length, read_frame_check by done.
  rewrite Nat2Z.id, !length_app, length_frame.
  destruct (Nat.ltb_spec (length pre)
              (length pre + (8 + length (encrypt data key iv) + length post)));
    [|lia]. cbn [negb].
  destruct (Nat.ltb_spec
              (length pre + (8 + length (encrypt data key iv) + length post))
              (length pre + 8)); [lia|].
  destruct (Nat.ltb_spec
              (length pre + (8 + length (encrypt data key iv) + length post))
              (length pre + 4 + 4 + length (encrypt data key iv))); [lia|].
  rewrite Z.eqb_refl. cbn [negb].
  assert (subarray (pre ++ frame key iv data ++ post) (length pre + 4 + 4)
            (length pre + 4 + 4 + length (encrypt data key iv))
          = encrypt data key iv) as ->.
  { unfold subarray, frame.
    rewrite <- !(assoc (++)), !(assoc (++) pre), !(assoc (++) (pre ++ _)).
    rewrite drop_app_length'; [|rewrite !length_app, !length_le32; lia].
    replace (length pre + 4 + 4 + length (encrypt data key iv) - (length pre + 4 + 4))
      with (length (encrypt data key iv)) by lia.
    by rewrite take_app_length. }
  rewrite decrypt_encrypt.
  f_equal. lia.
Qed.

(** A frame that has not arrived in full: the loop stops and keeps what
    there is of it. *)
Lemma parseBufferData_loop_partial fuel pre key iv data part rest queue :
  fits key iv data ->
  part ≠ [] -> rest ≠ [] ->
  frame key iv data = part ++ rest ->
  parseBufferData_loop (S fuel) (pre ++ part) key iv queue (length pre)
  = Some (Ok {| pr_queue := queue; pr_remain := part; pr_console := None |}).
Proof.
  intros Hfit Hpart Hrest Hsplit. cbn [parseBufferData_loop].
  assert (0 < length part) by (destruct part; [done|cbn; lia]).
  assert (0 < length rest) by (destruct rest; [done|cbn; lia]).
  assert (Hlen : length part + length rest = 8 + length (encrypt data key iv)).
  { by rewrite <- length_app, <- Hsplit, length_frame. }
  rewrite length_app.
  destruct (Nat.ltb_spec (length pre) (length pre + length part)); [|lia].
  cbn [negb].
  destruct (Nat.ltb_spec (length pre + length part) (length pre + 8)).
  - unfold subarray_from. by rewrite drop_app_length.
  - assert (Hp : part = take (length part) (frame key iv data)).
    { by rewrite Hsplit, take_app_length. }
    assert (Hr1 : readUInt32LE (pre ++ part) (length pre)
                  = Ok (Z.of_nat (length (encrypt data key iv)))).
    { rewrite Hp. unfold frame.
      rewrite (assoc (++) (le32 _)), take_app_ge by (rewrite length_app, !length_le32; lia).
      rewrite <- !(assoc (++)).
      apply readUInt32LE_le32. unfold fits in Hfit. lia. }
    assert (Hr2 : readUInt32LE (pre ++ part) (length pre + 4) = Ok HEADER_CHECK).
    { rewrite Hp. unfold frame.
      rewrite (assoc (++) (le32 _)), take_app_ge by (rewrite length_app, !length_le32; lia).
      rewrite <- !(assoc (++)), (assoc (++) pre).
      replace (length pre + 4)
        with (length (pre ++ le32 (Z.of_nat (length (encrypt data key iv)))))
        by (by rewrite length_app).
      by apply readUInt32LE_le32. }
    rewrite Hr1, Hr2, Nat2Z.id.
    destruct (Nat.ltb_spec (length pre + length part)
                (length pre + 4 + 4 + length (encrypt data key iv))); [|lia].
    unfold subarray_from.
    replace (length pre + 4 + 4 - 8) with (length pre) by lia.
    by rewrite drop_app_length.
Qed.

(** Whole frames followed by the beginning of one more (or by nothing):
    the loop emits the records of the whole frames in order and keeps the
    beginning as the carry. *)
Lemma parseBufferData_loop_frames (records : list Uint8Array) :
  forall fuel pre key iv part queue,
  length records < fuel ->
  Forall (fits key iv) records ->
  (part = [] \/ exists data rest,
      fits key iv data /\ rest ≠ [] /\ frame key iv data = part ++ rest) ->
  parseBufferData_loop fuel
    (pre ++ concat (map (frame key iv) records) ++ part) key iv queue (length pre)
  = Some (Ok {| pr_queue := queue ++ records; pr_remain := part;
                pr_console := None |}).
Proof.
  induction records as [|r rs IH]; intros fuel pre key iv part queue Hfuel Hfit Hpart.
  - destruct fuel as [|fuel]; [cbn in Hfuel; lia|].
    cbn [map concat app]. rewrite app_nil_r.
    destruct Hpart as [->|(data & rest & Hd & Hrest & Hsplit)].
    + rewrite app_nil_r. apply parseBufferData_loop_end. lia.
    + destruct part as [|b part].
      * rewrite app_nil_r. apply parseBufferData_loop_end. lia.
      * by eapply parseBufferData_loop_partial.
  - destruct fuel as [|fuel]; [cbn in Hfuel; lia|].
    apply Forall_cons in Hfit as [Hr Hrs].
    cbn [map concat]. rewrite <- (assoc (++)).
    rewrite parseBufferData_loop_frame by done.
    rewrite <- length_app.
    rewrite (assoc (++) pre).
    rewrite (IH fuel (pre ++ frame key iv r) key iv part (queue ++ [r]));
      [|cbn in Hfuel; lia|done|done].
    by rewrite <- (assoc (++)).
Qed.

(** A prefix of a stream of frames is some whole frames and the
    beginning of the next one. *)
Lemma frames_split key iv (records : list Uint8Array) :
  forall (b t : Uint8Array),
  b ++ t = concat (map (frame key iv) records) ->
  exists rs1 rs2 part,
    records = rs1 ++ rs2
    /\ b = concat (map (frame key iv) rs1) ++ part
    /\ part ++ t = concat (map (frame key iv) rs2)
    /\ (part = [] \/ exists data rs2' rest,
          rs2 = data :: rs2' /\ rest ≠ [] /\ frame key iv data = part ++ rest).
Proof.
  induction records as [|d rs IH]; intros b t Hbt.
  - cbn in Hbt. apply app_eq_nil in Hbt as [-> ->].
    exists [], [], []. by repeat split; [..|left].
  - cbn [map concat] in Hbt.
    apply app_eq_inv in Hbt as [(k & Hb & Hk)|(k & Hd & Ht)].
    + destruct (IH k t (eq_sym Hk)) as (rs1 & rs2 & part & -> & -> & Hp & Hor).
      exists (d :: rs1), rs2, part.
      repeat split; [|done..]. subst b. cbn [map concat]. by rewrite <- (assoc (++)).
    + destruct k as [|x k].
      * rewrite app_nil_r in Hd. cbn in Ht. subst.
        exists [d], rs, []. cbn [map concat app]. rewrite !app_nil_r.
        by repeat split; [..|left].
      * exists [], (d :: rs), b. cbn [map concat app].
        repeat split; [by rewrite Hd, Ht, <- (assoc (++))|].
        right. by exists d, rs, (x :: k).
Qed.

Lemma length_frames key iv (records : list Uint8Array) :
  length records <= length (concat (map (frame key iv) records)).
Proof.
  induction records as [|r rs IH]; [done|].
  cbn [map concat length]. rewrite length_app, length_frame. lia.
Qed.

Lemma createDecodeStream_run_frames key iv (chunks : list Uint8Array) :
  forall (last : Uint8Array) (records : list Uint8Array),
  Forall (fits key iv) records ->
  last ++ concat chunks = concat (map (frame key iv) records) ->
  carry_of key iv last records ->
  createDecodeStream_run (key, iv) last chunks = Some (records, Ok []).
Proof.
  induction chunks as [|chunk chunks IH]; intros last records Hfit Hs Hc.
  - cbn [concat] in Hs. rewrite app_nil_r in Hs. cbn [createDecodeStream_run].
    destruct Hc as [->|(d & rs & rest & -> & Hrest & Hd)].
    + destruct records as [|r rs]; [done|].
      cbn [map concat] in Hs. symmetry in Hs. apply app_eq_nil in Hs as [Hs _].
      apply (f_equal length) in Hs. rewrite length_frame in Hs. cbn in Hs. lia.
    + cbn [map concat] in Hs. rewrite Hd, <- (assoc (++)) in Hs.
      apply (f_equal length) in Hs. rewrite !length_app in Hs.
      destruct rest; [done|]. cbn in Hs. lia.
  - cbn [createDecodeStream_run createDecodeStream_transform].
    rewrite Uint8Array_concat_ok. cbn [concat]. rewrite app_nil_r.
    cbn [concat] in Hs. rewrite (assoc (++)) in Hs.
    destruct (frames_split key iv records _ _ Hs)
      as (rs1 & rs2 & part & -> & Hb & Hp & Hor).
    apply Forall_app in Hfit as [Hfit1 Hfit2].
    unfold parseBufferData. rewrite Hb.
    rewrite (parseBufferData_loop_frames rs1 _ [] key iv part []).
    + cbn [pr_remain pr_queue app].
      rewrite (IH part rs2 Hfit2 Hp); [done|].
      destruct Hor as [->|(d & rs & rest & -> & Hrest & Hd)]; [by left|].
      right. by exists d, rs, rest.
    + cbn [length app]. rewrite length_app. pose proof (length_frames key iv rs1). lia.
    + done.
    + destruct Hor as [->|(d & rs & rest & -> & Hrest & Hd)]; [by left|].
      right. exists d, rest. apply Forall_cons in Hfit2 as [Hd' _]. done.
Qed.

End WithCipherLaw.
End FrameDecoder.

(** [C2] Frame codec round trip.  Given a cipher whose decryption undoes
    its encryption, and records whose encrypted length fits the 4-byte
    length field: the encode stream writes one frame per record, and the
    decode stream, fed the bytes of those frames cut into chunks in any
    way, enqueues exactly the records, in order, and ends with an empty
    carry. *)
Theorem frame_codec_roundtrip `{SubtleCrypto}
    (key : option CryptoKey) (iv : option Uint8Array)
    (records chunks : list Uint8Array) :
  (forall p k d, subtle_decrypt p k (subtle_encrypt p k d) = Ok d) ->
  Forall (fits key iv) records ->
  exists encoded,
    createEncodeStream_run (key, iv) records = Ok encoded
    /\ (concat chunks = concat encoded ->
        createDecodeStream_run (key, iv) [] chunks = Some (records, Ok [])).
Proof.
  intros Hlaw Hfit. exists (map (frame key iv) records).
  split; [apply createEncodeStream_run_ok|].
  intros Hs. apply createDecodeStream_run_frames; [done..|by left].
Qed.

Lemma toy_decrypt_encrypt p k d :
  @subtle_decrypt toy_crypto p k (@subtle_encrypt toy_crypto p k d) = Ok d.
Proof.
  cbn [subtle_decrypt subtle_encrypt toy_crypto].
  assert (Ht : length (toy_tag p) = 16) by (unfold toy_tag; by rewrite length_replicate).
  rewrite length_app, Ht.
  replace (length d + 16 - 16) with (length d) by lia.
  rewrite drop_app_length, take_app_length.
  rewrite decide_True; [done|]. split; [done|lia].
Qed.

Lemma frame_codec_roundtrip_witness :
  (forall p k d, @subtle_decrypt toy_crypto p k (@subtle_encrypt toy_crypto p k d) = Ok d)
  /\ Forall (@fits toy_crypto (fst toy_key_iv) (snd toy_key_iv)) toy_records
  /\ @createDecodeStream_run toy_crypto toy_key_iv [] toy_chunks
     = Some (toy_records, Ok []).
Proof.
  assert (Hfit : Forall (@fits toy_crypto (fst toy_key_iv) (snd toy_key_iv)) toy_records).
  { repeat constructor; vm_compute; reflexivity. }
  split; [apply toy_decrypt_encrypt|]. split; [exact Hfit|].
  destruct (@frame_codec_roundtrip toy_crypto (fst toy_key_iv) (snd toy_key_iv)
              toy_records toy_chunks toy_decrypt_encrypt Hfit)
    as (encoded & Henc & Hdec).
  apply Hdec. vm_compute in Henc. injection Henc as <-. vm_compute. reflexivity.
Defined.

(** [C4] Order of the two header checks, as the code has it.  Once the
    eight header bytes at [offset] are there, the decoder reads the length
    and the check.  If fewer than [8 + len] bytes are there it stops and
    keeps everything from the header on as the carry, whatever the check
    is, and writes nothing to the console.  Only when the [8 + len] bytes
    are there is the check compared with [HEADER_CHECK]; if it differs,
    the decoder writes the error line, drops the carry and returns the
    records it had. *)
Theorem header_check_after_length `{SubtleCrypto}
    (fuel : nat) (buffer : Uint8Array) (key : option CryptoKey)
    (iv : option Uint8Array) (queue : list Uint8Array) (offset : nat)
    (len magic : Z) :
  offset + 8 <= length buffer ->
  readUInt32LE buffer offset = Ok len ->
  readUInt32LE buffer (offset + 4) = Ok magic ->
  (length buffer < offset + 8 + Z.to_nat len ->
   parseBufferData_loop (S fuel) buffer key iv queue offset
   = Some (Ok {| pr_queue := queue; pr_remain := subarray_from buffer offset;
                 pr_console := None |}))
  /\ (offset + 8 + Z.to_nat len <= length buffer -> magic ≠ HEADER_CHECK ->
      parseBufferData_loop (S fuel) buffer key iv queue offset
      = Some (Ok {| pr_queue := queue; pr_remain := [];
                    pr_console := Some (len, magic) |})).
Proof.
  intros Hhdr Hlen Hmagic. cbn [parseBufferData_loop].
  destruct (Nat.ltb_spec offset (length buffer)); [|lia]. cbn [negb].
  destruct (Nat.ltb_spec (length buffer) (offset + 8)); [lia|].
  rewrite Hlen, Hmagic. split.
  - intros Hshort.
    destruct (Nat.ltb_spec (length buffer) (offset + 4 + 4 + Z.to_nat len)); [|lia].
    by replace (offset + 4 + 4 - 8) with offset by lia.
  - intros Hfull Hbad.
    destruct (Nat.ltb_spec (length buffer) (offset + 4 + 4 + Z.to_nat len)); [lia|].
    destruct (Z.eqb_spec HEADER_CHECK magic); [congruence|done].
Qed.

Lemma header_check_after_length_witness :
  (0 + 8 <= length bad_header
   /\ readUInt32LE bad_header 0 = Ok 16%Z
   /\ readUInt32LE bad_header (0 + 4) = Ok 0%Z
   /\ length bad_header < 0 + 8 + Z.to_nat 16
   /\ @parseBufferData toy_crypto bad_header None None
      = Some (Ok {| pr_queue := []; pr_remain := bad_header; pr_console := None |}))
  /\ (0 + 8 <= length bad_frame
      /\ readUInt32LE bad_frame 0 = Ok 16%Z
      /\ readUInt32LE bad_frame (0 + 4) = Ok 0%Z
      /\ 0 + 8 + Z.to_nat 16 <= length bad_frame
      /\ 0%Z ≠ HEADER_CHECK
      /\ @parseBufferData toy_crypto bad_frame None None
         = Some (Ok {| pr_queue := []; pr_remain := [];
                       pr_console := Some (16%Z, 0%Z) |})).
Proof.
  split.
  - assert (H1 : 0 + 8 <= length bad_header) by (cbn; lia).
    assert (H2 : readUInt32LE bad_header 0 = Ok 16%Z) by reflexivity.
    assert (H3 : readUInt32LE bad_header (0 + 4) = Ok 0%Z) by reflexivity.
    assert (H4 : length bad_header < 0 + 8 + Z.to_nat 16) by (cbn; lia).
    refine (conj H1 (conj H2 (conj H3 (conj H4 _)))).
    exact (proj1 (@header_check_after_length toy_crypto (length bad_header)
                    bad_header None None [] 0 16%Z 0%Z H1 H2 H3) H4).
  - assert (H1 : 0 + 8 <= length bad_frame) by (cbn; lia).
    assert (H2 : readUInt32LE bad_frame 0 = Ok 16%Z) by reflexivity.
    assert (H3 : readUInt32LE bad_frame (0 + 4) = Ok 0%Z) by reflexivity.
    assert (H4 : 0 + 8 + Z.to_nat 16 <= length bad_frame) by (cbn; lia).
    assert (H5 : 0%Z ≠ HEADER_CHECK) by done.
    refine (conj H1 (conj H2 (conj H3 (conj H4 (conj H5 _))))).
    exact (proj2 (@header_check_after_length toy_crypto (length bad_frame)
                    bad_frame None None [] 0 16%Z 0%Z H1 H2 H3) H4 H5).
Defined.

(** [C4] as the specification has it fails: a carry that holds a whole
    header with a wrong check, and fewer bytes than its length field asks
    for, is kept, and no error is written. *)
Lemma header_check_first_counterexample :
  ~ (forall (buffer : Uint8Array) (magic : Z),
       8 <= length buffer ->
       readUInt32LE buffer 4 = Ok magic ->
       magic ≠ HEADER_CHECK ->
       exists queue line,
         @parseBufferData toy_crypto buffer None None
         = Some (Ok {| pr_queue := queue; pr_remain := [];
                       pr_console := Some line |})).
Proof.
  intros Hclaim.
  destruct (Hclaim bad_header 0%Z) as (queue & line & Hparse);
    [cbn; lia|reflexivity|done|].
  vm_compute in Hparse. discriminate Hparse.
Qed.

(** ** Message codec *)

Lemma value_ind' (P : value -> Prop) :
  P VUndefined -> P VNull -> (forall b, P (VBool b)) -> (forall n, P (VNum n)) ->
  (forall s, P (VStr s)) -> (forall b, P (VBytes b)) ->
  (forall l, Forall P l -> P (VArr l)) ->
  (forall fields, Forall (fun kv => P (snd kv)) fields -> P (VObj fields)) ->
  forall v, P v.
Proof.
  intros Hu Hn Hb Hz Hs Hy Ha Ho.
  fix IH 1. intros [| |b|n|s|b|l|fields]; [done..| |].
  - apply Ha. induction l as [|v l IHl]; constructor; [apply IH|apply IHl].
  - apply Ho. induction fields as [|[k v] fields IHf]; constructor;
      [apply IH|apply IHf].
Qed.

Lemma tree_to_value_to_tree v : tree_to_value (value_to_tree v) = v.
Proof.
  induction v as [| |b|n|s|b|l IHl|fields IHf] using value_ind'; try done.
  - by destruct b.
  - cbn. f_equal. rewrite map_map. cbn.
    induction b as [|x b IHb]; [done|]. cbn. by rewrite to_u8_u8, IHb.
  - cbn. f_equal. rewrite map_map.
    induction IHl as [|v l Hv _ IHl]; [done|]. cbn. by rewrite Hv, IHl.
  - cbn. f_equal. rewrite map_map.
    induction IHf as [|[k v] fields Hv _ IHf]; [done|]. cbn in *. by rewrite Hv, IHf.
Qed.

Lemma bytes_to_positive_to_bytes p :
  bytes_to_positive (positive_to_bytes p) = Some p.
Proof.
  induction p as [p IH|p IH|]; cbn [positive_to_bytes bytes_to_positive]; [| |done].
  - rewrite IH. by destruct (positive_to_bytes p).
  - rewrite IH. by destruct (positive_to_bytes p).
Qed.

Lemma toy_unpack_pack v :
  @packr_unpack toy_packr (@packr_pack toy_packr v) = Ok v.
Proof.
  cbn [packr_unpack packr_pack toy_packr].
  rewrite bytes_to_positive_to_bytes. cbn [mbind option_bind].
  by rewrite decode_encode, tree_to_value_to_tree.
Qed.

Section MessageCodecFacts.
Context `{Packr}.
Hypothesis unpack_pack : forall v, packr_unpack (packr_pack v) = Ok v.

Lemma build_items (items : list (value * value)) :
  JsValue.map_result
    (fun item =>
       type ← JsValue.get item "type";
       data ← JsValue.get item "data";
       Ok (VArr [type; data]))
    (map (fun td => arg_item td.1 td.2) items)
  = Ok (map (fun td => VArr [td.1; td.2]) items).
Proof.
  induction items as [|[t d] items IH]; [done|].
  cbn [map JsValue.map_result]. rewrite IH. reflexivity.
Qed.

Lemma parse_items (items : list (value * value)) :
  JsValue.map_result
    (fun item =>
       elements ← JsValue.iterate item;
       Ok (arg_item (JsValue.pattern_nth elements 0) (JsValue.pattern_nth elements 1)))
    (map (fun td => VArr [td.1; td.2]) items)
  = Ok (map (fun td => arg_item td.1 td.2) items).
Proof.
  induction items as [|[t d] items IH]; [done|].
  cbn [map JsValue.map_result]. rewrite IH. reflexivity.
Qed.

(** A message whose type is neither CALL nor CALLBACK goes through as it
    is. *)
Lemma roundtrip_plain i n data :
  n ≠ RPC_TYPE_CALL -> n ≠ RPC_TYPE_CALLBACK ->
  exists buffer,
    buildRpcData {| rpc_id := i; rpc_type := VNum n; rpc_data := data |} = Ok buffer
    /\ parseRpcData buffer
       = Ok {| rpc_id := i; rpc_type := VNum n; rpc_data := data |}.
Proof.
  intros H1 H2. unfold buildRpcData, parseRpcData. cbn [rpc_id rpc_type rpc_data].
  cbn [JsValue.loose_eq_num].
  destruct (Z.eqb_spec n RPC_TYPE_CALL); [done|].
  destruct (Z.eqb_spec n RPC_TYPE_CALLBACK); [done|].
  cbn [orb mbind result_bind]. eexists. split; [reflexivity|].
  rewrite unpack_pack. cbn [mbind result_bind JsValue.iterate].
  unfold JsValue.pattern_nth. cbn [lookup list_lookup default from_option id
    JsValue.loose_eq_num].
  destruct (Z.eqb_spec n RPC_TYPE_CALL); [done|].
  destruct (Z.eqb_spec n RPC_TYPE_CALLBACK); [done|].
  reflexivity.
Qed.

(** A CALL or CALLBACK message: the items become pairs and the pairs
    become the items again. *)
Lemma roundtrip_items i n (items : list (value * value)) :
  n = RPC_TYPE_CALL \/ n = RPC_TYPE_CALLBACK ->
  exists buffer,
    buildRpcData {| rpc_id := i; rpc_type := VNum n;
                    rpc_data := VArr (map (fun td => arg_item td.1 td.2) items) |}
    = Ok buffer
    /\ parseRpcData buffer
       = Ok {| rpc_id := i; rpc_type := VNum n;
               rpc_data := VArr (map (fun td => arg_item td.1 td.2) items) |}.
Proof.
  intros Hn. unfold buildRpcData, parseRpcData. cbn [rpc_id rpc_type rpc_data].
  assert (Hc : JsValue.loose_eq_num (VNum n) RPC_TYPE_CALL
               || JsValue.loose_eq_num (VNum n) RPC_TYPE_CALLBACK = true).
  { destruct Hn as [->| ->]; reflexivity. }
  rewrite Hc. cbn [JsValue.array_map]. rewrite build_items.
  cbn [mbind result_bind]. eexists. split; [reflexivity|].
  rewrite unpack_pack. cbn [mbind result_bind JsValue.iterate].
  change (JsValue.pattern_nth [i; VNum n; ?d] 0) with i.
  change (JsValue.pattern_nth [i; VNum n; ?d] 1) with (VNum n).
  match goal with
  | |- context [JsValue.pattern_nth [i; VNum n; ?d] 2] =>
      change (JsValue.pattern_nth [i; VNum n; d] 2) with d
  end.
  cbv zeta. rewrite Hc. cbn [JsValue.array_map]. rewrite parse_items. reflexivity.
Qed.

(** What [buildRpcData] gives to the serializer. *)
Lemma buildRpcData_plain i n data :
  n ≠ RPC_TYPE_CALL -> n ≠ RPC_TYPE_CALLBACK ->
  buildRpcData {| rpc_id := i; rpc_type := VNum n; rpc_data := data |}
  = Ok (packr_pack (VArr [i; VNum n; data])).
Proof.
  intros H1 H2. unfold buildRpcData. cbn [rpc_id rpc_type rpc_data].
  cbn [JsValue.loose_eq_num].
  destruct (Z.eqb_spec n RPC_TYPE_CALL); [done|].
  by destruct (Z.eqb_spec n RPC_TYPE_CALLBACK).
Qed.

Lemma buildRpcData_items i n (items : list (value * value)) :
  n = RPC_TYPE_CALL \/ n = RPC_TYPE_CALLBACK ->
  buildRpcData {| rpc_id := i; rpc_type := VNum n;
                  rpc_data := VArr (map (fun td => arg_item td.1 td.2) items) |}
  = Ok (packr_pack
          (VArr [i; VNum n; VArr (map (fun td => VArr [td.1; td.2]) items)])).
Proof.
  intros Hn. unfold buildRpcData. cbn [rpc_id rpc_type rpc_data].
  assert (Hc : JsValue.loose_eq_num (VNum n) RPC_TYPE_CALL
               || JsValue.loose_eq_num (VNum n) RPC_TYPE_CALLBACK = true).
  { destruct Hn as [->| ->]; reflexivity. }
  rewrite Hc. cbn [JsValue.array_map]. by rewrite build_items.
Qed.

(** What [parseRpcData] makes of what the serializer gives back. *)
Lemma parseRpcData_plain buffer i n data :
  packr_unpack buffer = Ok (VArr [i; VNum n; data]) ->
  n ≠ RPC_TYPE_CALL -> n ≠ RPC_TYPE_CALLBACK ->
  parseRpcData buffer = Ok {| rpc_id := i; rpc_type := VNum n; rpc_data := data |}.
Proof.
  intros Hu H1 H2. unfold parseRpcData. rewrite Hu.
  cbn [mbind result_bind JsValue.iterate].
  unfold JsValue.pattern_nth. cbn [lookup list_lookup default from_option id
    JsValue.loose_eq_num].
  destruct (Z.eqb_spec n RPC_TYPE_CALL); [done|].
  by destruct (Z.eqb_spec n RPC_TYPE_CALLBACK).
Qed.

Lemma parseRpcData_items buffer i n (pairs : list (value * value)) :
  packr_unpack buffer
  = Ok (VArr [i; VNum n; VArr (map (fun td => VArr [td.1; td.2]) pairs)]) ->
  n = RPC_TYPE_CALL \/ n = RPC_TYPE_CALLBACK ->
  parseRpcData buffer
  = Ok {| rpc_id := i; rpc_type := VNum n;
          rpc_data := VArr (map (fun td => arg_item td.1 td.2) pairs) |}.
Proof.
  intros Hu Hn. unfold parseRpcData. rewrite Hu.
  assert (Hc : JsValue.loose_eq_num (VNum n) RPC_TYPE_CALL
               || JsValue.loose_eq_num (VNum n) RPC_TYPE_CALLBACK = true).
  { destruct Hn as [->| ->]; reflexivity. }
  cbn [mbind result_bind JsValue.iterate].
  change (JsValue.pattern_nth [i; VNum n; ?d] 0) with i.
  change (JsValue.pattern_nth [i; VNum n; ?d] 1) with (VNum n).
  match goal with
  | |- context [JsValue.pattern_nth [i; VNum n; ?d] 2] =>
      change (JsValue.pattern_nth [i; VNum n; d] 2) with d
  end.
  cbv zeta. rewrite Hc. cbn [JsValue.array_map]. by rewrite parse_items.
Qed.

End MessageCodecFacts.

(** Items that are the same give the same pairs. *)
Lemma items_pairs (items items' : list (value * value)) :
  map (fun td => arg_item td.1 td.2) items = map (fun td => arg_item td.1 td.2) items' ->
  map (fun td => VArr [td.1; td.2]) items = map (fun td => VArr [td.1; td.2]) items'.
Proof.
  revert items'.
  induction items as [|[t d] items IH]; intros [|[t' d'] items']; try done.
  cbn [map fst snd]. unfold arg_item at 1 3. intros [= -> -> Hrest].
  by rewrite (IH _ Hrest).
Qed.

(** [C3] Message codec round trip.  With a serializer whose [unpack]
    undoes its [pack]: for a message whose type is one of CALL, RETURN,
    CALLBACK and ERROR, and whose data, for CALL and CALLBACK, is a list
    of items [{type, data}], [buildRpcData] returns the buffer the
    serializer makes of the triple [[id, type, wire]], where [wire] is,
    for CALL and CALLBACK, the list of the pairs [[type, data]] of the
    items, in order, and the data as it is otherwise; [parseRpcData] of
    that buffer is the message.  And on any buffer that the serializer
    reads as a triple [[id, type, data]] with that type, [parseRpcData]
    returns [{id, type, data}] with, for CALL and CALLBACK, each pair
    [[t, d]] of the data made the item [{type: t, data: d}], and with
    the data as it is otherwise. *)
Theorem message_codec_roundtrip `{Packr} (m : RPC_DATA) (n : Z) :
  (forall v, packr_unpack (packr_pack v) = Ok v) ->
  rpc_type m = VNum n ->
  n ∈ [RPC_TYPE_CALL; RPC_TYPE_RETURN; RPC_TYPE_CALLBACK; RPC_TYPE_ERROR] ->
  (n = RPC_TYPE_CALL \/ n = RPC_TYPE_CALLBACK ->
   exists items : list (value * value),
     rpc_data m = VArr (map (fun td => arg_item td.1 td.2) items)) ->
  exists wire,
    buildRpcData m = Ok (packr_pack (VArr [rpc_id m; VNum n; wire]))
    /\ (forall items : list (value * value),
          n = RPC_TYPE_CALL \/ n = RPC_TYPE_CALLBACK ->
          rpc_data m = VArr (map (fun td => arg_item td.1 td.2) items) ->
          wire = VArr (map (fun td => VArr [td.1; td.2]) items))
    /\ (n ≠ RPC_TYPE_CALL -> n ≠ RPC_TYPE_CALLBACK -> wire = rpc_data m)
    /\ parseRpcData (packr_pack (VArr [rpc_id m; VNum n; wire])) = Ok m
    /\ forall buffer id data,
         packr_unpack buffer = Ok (VArr [id; VNum n; data]) ->
         (forall pairs : list (value * value),
            n = RPC_TYPE_CALL \/ n = RPC_TYPE_CALLBACK ->
            data = VArr (map (fun td => VArr [td.1; td.2]) pairs) ->
            parseRpcData buffer
            = Ok {| rpc_id := id; rpc_type := VNum n;
                    rpc_data := VArr (map (fun td => arg_item td.1 td.2) pairs) |})
         /\ (n ≠ RPC_TYPE_CALL -> n ≠ RPC_TYPE_CALLBACK ->
             parseRpcData buffer
             = Ok {| rpc_id := id; rpc_type := VNum n; rpc_data := data |}).
Proof.
  intros Hlaw Ht Hn Hitems. destruct m as [id type data]. cbn in Ht, Hitems. subst type.
  cbn [rpc_id rpc_data].
  assert (Hparse : forall buffer id' data',
    packr_unpack buffer = Ok (VArr [id'; VNum n; data']) ->
    (forall pairs : list (value * value),
       n = RPC_TYPE_CALL \/ n = RPC_TYPE_CALLBACK ->
       data' = VArr (map (fun td => VArr [td.1; td.2]) pairs) ->
       parseRpcData buffer
       = Ok {| rpc_id := id'; rpc_type := VNum n;
               rpc_data := VArr (map (fun td => arg_item td.1 td.2) pairs) |})
    /\ (n ≠ RPC_TYPE_CALL -> n ≠ RPC_TYPE_CALLBACK ->
        parseRpcData buffer
        = Ok {| rpc_id := id'; rpc_type := VNum n; rpc_data := data' |})).
  { intros buffer id' data' Hu. split.
    - intros pairs Hc ->. by apply parseRpcData_items.
    - intros H1 H2. by apply parseRpcData_plain. }
  destruct (decide (n = RPC_TYPE_CALL \/ n = RPC_TYPE_CALLBACK)) as [Hc|Hc].
  - destruct (Hitems Hc) as [items ->].
    exists (VArr (map (fun td => VArr [td.1; td.2]) items)).
    split; [by apply buildRpcData_items|]. split.
    { intros items' _ [= Heq]. by rewrite (items_pairs _ _ Heq). }
    split; [tauto|]. split; [|done].
    apply parseRpcData_items; [by rewrite Hlaw|done].
  - exists data. split; [apply buildRpcData_plain; tauto|].
    split; [tauto|]. split; [done|]. split; [|done].
    apply parseRpcData_plain; [by rewrite Hlaw|tauto..].
Qed.

Lemma message_codec_roundtrip_witness :
  (forall v, @packr_unpack toy_packr (@packr_pack toy_packr v) = Ok v)
  /\ rpc_type toy_call = VNum RPC_TYPE_CALL
  /\ RPC_TYPE_CALL ∈ [RPC_TYPE_CALL; RPC_TYPE_RETURN; RPC_TYPE_CALLBACK; RPC_TYPE_ERROR]
  /\ (exists items : list (value * value),
        rpc_data toy_call = VArr (map (fun td => arg_item td.1 td.2) items))
  /\ @buildRpcData toy_packr toy_call
     = Ok (@packr_pack toy_packr
             (VArr [VNum 7; VNum RPC_TYPE_CALL;
                    VArr [VArr [VNum RPC_DATA_ARG_TYPE_OTHERS; VStr "hello"];
                          VArr [VNum RPC_DATA_ARG_TYPE_FUNCTION; VNum 8]]]))
  /\ @parseRpcData toy_packr
       (@packr_pack toy_packr
          (VArr [VNum 7; VNum RPC_TYPE_CALL;
                 VArr [VArr [VNum RPC_DATA_ARG_TYPE_OTHERS; VStr "hello"];
                       VArr [VNum RPC_DATA_ARG_TYPE_FUNCTION; VNum 8]]]))
     = Ok toy_call.
Proof.
  pose (m := toy_call).
  pose (items := [(VNum RPC_DATA_ARG_TYPE_OTHERS, VStr "hello");
                  (VNum RPC_DATA_ARG_TYPE_FUNCTION, VNum 8)]).
  assert (Ht : rpc_type m = VNum RPC_TYPE_CALL) by reflexivity.
  assert (Hn : RPC_TYPE_CALL
               ∈ [RPC_TYPE_CALL; RPC_TYPE_RETURN; RPC_TYPE_CALLBACK; RPC_TYPE_ERROR])
    by (apply list_elem_of_here).
  assert (Hi : exists items : list (value * value),
             rpc_data m = VArr (map (fun td => arg_item td.1 td.2) items)).
  { exists items. reflexivity. }
  refine (conj toy_unpack_pack (conj Ht (conj Hn (conj Hi _)))).
  destruct (@message_codec_roundtrip toy_packr m RPC_TYPE_CALL toy_unpack_pack Ht Hn
              (fun _ => Hi)) as (wire & Hbuild & Hwire & _ & Hparse & _).
  rewrite (Hwire items (or_introl eq_refl) eq_refl) in Hbuild, Hparse.
  split; [exact Hbuild|exact Hparse].
Defined.

(** ** Cipher state *)

(** [C5] Cipher state, as the code derives and uses it.  For the empty
    pre-key [buildKeyIv] gives no key and no IV, and [encrypt] and
    [decrypt] return their input.  For a non-empty pre-key the salt is the
    SHA-512 digest of the pre-key, PBKDF2 over the pre-key with that salt,
    10 iterations and SHA-256 gives a 256-bit AES-GCM key and a 256-bit
    buffer, and the whole buffer, all its 32 bytes, is the [iv] parameter
    of every AES-GCM encryption and decryption: of [encrypt], of [decrypt]
    and of each frame the encode stream writes. *)
Theorem cipher_state_derivation `{SubtleCrypto} (password : string)
    (data : Uint8Array) (records : list Uint8Array) :
  (forall p km n, length (subtle_deriveBits p km n) = n / 8) ->
  password ≠ EmptyString ->
  let pbkdf2Params :=
    {| pbkdf2_name := "PBKDF2";
       pbkdf2_salt := subtle_digest "SHA-512" (TextEncoder_encode password);
       pbkdf2_iterations := 10; pbkdf2_hash := "SHA-256" |} in
  let keyMaterial :=
    subtle_importKey "raw" (TextEncoder_encode password) "PBKDF2" false
      ["deriveBits"; "deriveKey"] in
  let key :=
    subtle_deriveKey pbkdf2Params keyMaterial
      {| aes_name := "AES-GCM"; aes_length := 256 |} true ["encrypt"; "decrypt"] in
  let buffer := subtle_deriveBits pbkdf2Params keyMaterial 256 in
  let gcm := {| gcm_name := "AES-GCM"; gcm_iv := Some buffer |} in
  (buildKeyIv EmptyString 10 = (None, None)
   /\ encrypt data None None = data
   /\ decrypt data None None = Ok data)
  /\ buildKeyIv password 10 = (Some key, Some buffer)
  /\ length buffer = 32
  /\ encrypt data (Some key) (Some buffer) = subtle_encrypt gcm key data
  /\ decrypt data (Some key) (Some buffer) = subtle_decrypt gcm key data
  /\ createEncodeStream_run (buildKeyIv password 10) records
     = Ok (map (fun record =>
                  le32 (Z.of_nat (length (subtle_encrypt gcm key record)))
                    ++ le32 HEADER_CHECK ++ subtle_encrypt gcm key record)
             records).
Proof.
  intros Hbits Hpw pbkdf2Params keyMaterial key buffer gcm.
  assert (Hk : buildKeyIv password 10 = (Some key, Some buffer)).
  { unfold buildKeyIv. cbn [JS_RPC_WITH_CRYPTO negb].
    by destruct (String.eqb_spec password EmptyString). }
  split; [done|]. split; [done|].
  split; [unfold buffer; by rewrite Hbits|].
  split; [done|]. split; [done|].
  rewrite Hk. exact (createEncodeStream_run_ok (Some key) (Some buffer) records).
Qed.

Lemma toy_deriveBits_length p km n :
  length (@subtle_deriveBits toy_crypto p km n) = n / 8.
Proof. cbn [subtle_deriveBits toy_crypto]. apply length_replicate. Qed.

Lemma cipher_state_derivation_witness :
  (forall p km n, length (@subtle_deriveBits toy_crypto p km n) = n / 8)
  /\ "ab" ≠ EmptyString
  /\ @buildKeyIv toy_crypto "ab" 10 = (Some [x61; x62], Some (replicate 32 x00))
  /\ @createEncodeStream_run toy_crypto (@buildKeyIv toy_crypto "ab" 10) [[x01]]
     = Ok [[x11; x00; x00; x00; x5f; x70; xf7; xb1; x01] ++ replicate 16 x20].
Proof.
  assert (Hpw : "ab" ≠ EmptyString) by done.
  refine (conj toy_deriveBits_length (conj Hpw _)).
  pose proof (@cipher_state_derivation toy_crypto "ab" [x01] [[x01]]
                toy_deriveBits_length Hpw) as (_ & Hk & _ & _ & _ & Hrun).
  exact (conj Hk Hrun).
Defined.

(** [C5] as the specification has it fails: the IV given to AES-GCM is
    not the first 12 bytes of the derived buffer (with the cipher
    [toy_crypto], whose output shows the length of the IV it was given). *)
Lemma iv_first_12_bytes_counterexample :
  ~ (forall (password : string) (data : Uint8Array) key buffer,
       password ≠ EmptyString ->
       @buildKeyIv toy_crypto password 10 = (Some key, Some buffer) ->
       @encrypt toy_crypto data (Some key) (Some buffer)
       = @subtle_encrypt toy_crypto
           {| gcm_name := "AES-GCM"; gcm_iv := Some (take 12 buffer) |} key data).
Proof.
  intros Hclaim.
  specialize (Hclaim "ab" [x01] [x61; x62] (replicate 32 x00)).
  assert (Hpw : "ab" ≠ EmptyString) by done.
  specialize (Hclaim Hpw eq_refl). vm_compute in Hclaim. discriminate Hclaim.
Qed.

(** ** Client engine: [apiInvoke] *)

Ltac unfold_M :=
  unfold map_set, map_delete, writer_write, apiInvoke_finally, next_uniqueKeyID,
    Promise_withResolvers;
  unfold mbind, mret, M_bind, M_ret, modify, throw, lift, get_state;
  cbv beta iota.

Ltac unfold_set :=
  unfold set_callbackFunctionMap, set_uniqueKeyID, set_promises, set_written,
    set_applied, slot, waiter;
  cbn [uniqueKeyID callbackFunctionMap promises written applied].

Lemma lookup_register_slots fs key m k :
  register_slots fs key m !! k
  = if decide (key <= k < key + Z.of_nat (length fs))%Z
    then slot k <$> fs !! Z.to_nat (k - key)
    else m !! k.
Proof.
  revert key m. induction fs as [|f fs IH]; intros key m; cbn [register_slots length].
  - case_decide; [lia|done].
  - rewrite IH. destruct (decide (k = key)) as [->|Hne].
    + rewrite decide_False by lia. rewrite lookup_insert_eq.
      rewrite decide_True by lia. by rewrite Z.sub_diag.
    + rewrite lookup_insert_ne by done.
      repeat case_decide; try lia; [|done].
      replace (Z.to_nat (k - key)) with (S (Z.to_nat (k - (key + 1)))) by lia.
      done.
Qed.

Section ApiInvoke.
Context `{Packr}.

(** The loop over the arguments when every function among them is an
    [AsyncFunction]: one slot per function, under consecutive keys. *)
Lemma apiInvoke_args_ok args : forall keys argArray st,
  Forall is_async (functions_of args) ->
  apiInvoke_args args keys argArray st
  = (set_callbackFunctionMap
       (register_slots (functions_of args) (uniqueKeyID st) (callbackFunctionMap st))
       (set_uniqueKeyID (uniqueKeyID st + Z.of_nat (length (functions_of args))) st),
     Ok (keys ++ seqZ (uniqueKeyID st) (Z.of_nat (length (functions_of args))),
         argArray ++ arg_array_of args (uniqueKeyID st))).
Proof.
  induction args as [|[v|f|f called] args IH]; intros keys argArray st Hasync.
  - cbn. rewrite Z.add_0_r, !app_nil_r. by destruct st.
  - cbn [apiInvoke_args functions_of arg_array_of].
    rewrite IH by done. by rewrite <- (assoc (++)).
  - cbn [functions_of] in Hasync. apply Forall_cons in Hasync as [Hf Hfs].
    cbn [apiInvoke_args functions_of arg_array_of length register_slots].
    rewrite bool_decide_eq_true_2 by done. cbn [negb]. unfold_M.
    rewrite IH by done. cbn [uniqueKeyID callbackFunctionMap set_uniqueKeyID
      set_callbackFunctionMap].
    rewrite Nat2Z.inj_succ.
    rewrite (seqZ_cons (uniqueKeyID st) (Z.succ (Z.of_nat (length (functions_of args)))))
      by lia.
    rewrite <- !(assoc (++)). cbn [app].
    replace (Z.pred (Z.succ (Z.of_nat (length (functions_of args)))))
      with (Z.of_nat (length (functions_of args))) by lia.
    replace (Z.succ (uniqueKeyID st)) with (uniqueKeyID st + 1)%Z by lia.
    destruct st. unfold_set. do 2 f_equal. lia.
  - cbn [apiInvoke_args functions_of arg_array_of].
    rewrite IH by done. by rewrite <- (assoc (++)).
Qed.

(** The loop over the arguments when a function that is not an
    [AsyncFunction] is met: the slots of the functions before it are
    registered, and the loop throws. *)
Lemma apiInvoke_args_throw pre bad post : forall keys argArray st,
  Forall is_async (functions_of pre) ->
  ~ is_async bad ->
  apiInvoke_args (pre ++ ArgFunction bad :: post) keys argArray st
  = (set_callbackFunctionMap
       (register_slots (functions_of pre) (uniqueKeyID st) (callbackFunctionMap st))
       (set_uniqueKeyID (uniqueKeyID st + Z.of_nat (length (functions_of pre))) st),
     Throw (usage_error (received_type bad))).
Proof.
  induction pre as [|[v|f|f called] pre IH]; intros keys argArray st Hasync Hbad.
  - cbn [app apiInvoke_args functions_of length register_slots].
    rewrite bool_decide_eq_false_2 by done. cbn [negb]. unfold_M.
    rewrite Z.add_0_r. by destruct st.
  - cbn [app apiInvoke_args functions_of]. by rewrite IH.
  - cbn [functions_of] in Hasync. apply Forall_cons in Hasync as [Hf Hfs].
    cbn [app apiInvoke_args functions_of length register_slots].
    rewrite bool_decide_eq_true_2 by done. cbn [negb]. unfold_M.
    rewrite IH by done. cbn [uniqueKeyID callbackFunctionMap set_uniqueKeyID
      set_callbackFunctionMap].
    destruct st. unfold_set. do 2 f_equal. lia.
  - cbn [app apiInvoke_args functions_of]. by rewrite IH.
Qed.

(** Arguments with a function that is not an [AsyncFunction] split at
    the first such function. *)
Lemma first_not_async args f :
  ArgFunction f ∈ args -> ~ is_async f ->
  exists pre bad post,
    args = pre ++ ArgFunction bad :: post
    /\ Forall is_async (functions_of pre) /\ ~ is_async bad.
Proof.
  induction args as [|a args IH]; intros Hin Hf; [by apply elem_of_nil in Hin|].
  destruct a as [v|g|g called].
  - apply elem_of_cons in Hin as [Hin|Hin]; [done|].
    destruct (IH Hin Hf) as (pre & bad & post & -> & Hpre & Hbad).
    by exists (ArgValue v :: pre), bad, post.
  - destruct (decide (fn_constructor_name g = Some "AsyncFunction")) as [Hg|Hg].
    + apply elem_of_cons in Hin as [Hin|Hin]; [by injection Hin as ->|].
      destruct (IH Hin Hf) as (pre & bad & post & -> & Hpre & Hbad).
      exists (ArgFunction g :: pre), bad, post. split; [done|].
      split; [|done]. cbn [functions_of]. by constructor.
    + by exists [], g, args.
  - apply elem_of_cons in Hin as [Hin|Hin]; [done|].
    destruct (IH Hin Hf) as (pre & bad & post & -> & Hpre & Hbad).
    by exists (ArgCallable g called :: pre), bad, post.
Qed.

Lemma elem_of_functions_of f args :
  f ∈ functions_of args <-> ArgFunction f ∈ args.
Proof.
  induction args as [|[v|g|g called] args IH]; cbn [functions_of].
  - split; intros Hin; by apply elem_of_nil in Hin.
  - rewrite IH, elem_of_cons. split; [by right|]. by intros [?|?].
  - rewrite !elem_of_cons, IH. split; (intros [Heq|Hin]; [left|by right]); congruence.
  - rewrite IH, elem_of_cons. split; [by right|]. by intros [?|?].
Qed.

Lemma not_all_async args :
  ~ Forall is_async (functions_of args) ->
  exists pre bad post,
    args = pre ++ ArgFunction bad :: post
    /\ Forall is_async (functions_of pre) /\ ~ is_async bad.
Proof.
  intros Hn. apply not_Forall_Exists in Hn; [|apply _].
  apply Exists_exists in Hn as (f & Hin & Hf).
  apply elem_of_functions_of in Hin. by eapply first_not_async.
Qed.

(** [buildRpcItemData] when every call of an element returns, and when
    one throws. *)
Lemma buildRpcItemData_ok (items : list arg_array_item) :
  Forall item_returns items ->
  buildRpcItemData items
  = Ok (VArr (map (fun td => arg_item td.1 td.2) (map wire_item items))).
Proof.
  intros Hret. unfold buildRpcItemData.
  match goal with
  | |- ?m ≫= _ = _ =>
      assert (Hmap : m = Ok (map (fun td => arg_item td.1 td.2) (map wire_item items)))
  end.
  { induction Hret as [|item items Hitem _ IH]; [done|].
    cbn [JsValue.map_result map]. rewrite IH.
    by destruct item as [v|key|[v|e]]. }
  by rewrite Hmap.
Qed.

Lemma buildRpcItemData_throw (items : list arg_array_item) :
  ~ Forall item_returns items ->
  exists e, buildRpcItemData items = Throw e.
Proof.
  intros Hret. unfold buildRpcItemData.
  match goal with
  | |- exists e, ?m ≫= _ = _ => assert (Hmap : exists e, m = Throw e)
  end.
  { induction items as [|item items IH]; [by destruct Hret|].
    cbn [JsValue.map_result].
    destruct (decide (item_returns item)) as [Hitem|Hitem].
    - destruct IH as [e IH]; [by intros Hrest; apply Hret; constructor|].
      exists e. rewrite IH. by destruct item as [v|key|[v|e']].
    - destruct item as [v|key|[v|e]]; try by destruct Hitem. by exists e. }
  destruct Hmap as [e ->]. by exists e.
Qed.

Lemma arg_array_of_returns (args : list js_arg) : forall key,
  Forall item_returns (arg_array_of args key) <-> callables_return args.
Proof.
  unfold callables_return.
  induction args as [|[v|f|f [v|e]] args IH]; intros key; cbn [arg_array_of];
    [done|..]; rewrite !Forall_cons, IH; cbn; tauto.
Qed.

Lemma buildRpcData_call (i : Z) (argArray : list arg_array_item) :
  buildRpcData {| rpc_id := VNum i; rpc_type := VNum RPC_TYPE_CALL;
                  rpc_data := VArr (map (fun td => arg_item td.1 td.2)
                                      (map wire_item argArray)) |}
  = Ok (call_buffer i argArray).
Proof.
  unfold buildRpcData, call_buffer.
  cbn [rpc_id rpc_type rpc_data JsValue.loose_eq_num orb JsValue.array_map].
  replace (RPC_TYPE_CALL =? RPC_TYPE_CALL)%Z with true by done. cbn [orb].
  rewrite build_items. cbn [mbind result_bind]. by rewrite map_map.
Qed.

(** [apiInvoke] when a function among the arguments is not an
    [AsyncFunction]: the state it leaves and what it throws. *)
Lemma apiInvoke_begin_throw fnName pre bad post st :
  Forall is_async (functions_of pre) ->
  ~ is_async bad ->
  apiInvoke_begin fnName (pre ++ ArgFunction bad :: post) st
  = ({| uniqueKeyID :=
          uniqueKeyID st + 1 + Z.of_nat (length (functions_of pre));
        callbackFunctionMap :=
          register_slots (functions_of pre) (uniqueKeyID st + 1)
            (<[uniqueKeyID st := waiter (uniqueKeyID st) (length (promises st))]>
               (callbackFunctionMap st));
        promises := promises st ++ [Pending];
        written := written st;
        applied := applied st |},
     Throw (usage_error (received_type bad))).
Proof.
  intros Hpre Hbad. unfold apiInvoke_begin. unfold_M.
  rewrite apiInvoke_args_throw by done. by destruct st.
Qed.

(** [apiInvoke] when every function among the arguments is an
    [AsyncFunction] and no callable among them throws: the CALL message is
    written and the invocation is suspended. *)
Lemma apiInvoke_begin_ok fnName args st :
  Forall is_async (functions_of args) ->
  callables_return args ->
  apiInvoke_begin fnName args st
  = ({| uniqueKeyID :=
          uniqueKeyID st + 1 + Z.of_nat (length (functions_of args));
        callbackFunctionMap :=
          register_slots (functions_of args) (uniqueKeyID st + 1)
            (<[uniqueKeyID st := waiter (uniqueKeyID st) (length (promises st))]>
               (callbackFunctionMap st));
        promises := promises st ++ [Pending];
        written :=
          written st
          ++ [call_buffer (uniqueKeyID st)
                (ItemValue (VStr fnName) :: arg_array_of args (uniqueKeyID st + 1))];
        applied := applied st |},
     Ok {| inv_id := uniqueKeyID st; inv_promise := length (promises st);
           inv_keys :=
             seqZ (uniqueKeyID st + 1) (Z.of_nat (length (functions_of args))) |}).
Proof.
  intros Hargs Hret. unfold apiInvoke_begin. unfold_M.
  rewrite apiInvoke_args_ok by done. cbv beta iota.
  rewrite buildRpcItemData_ok.
  2:{ constructor; [done|]. by apply arg_array_of_returns. }
  cbn [mbind result_bind]. rewrite buildRpcData_call. unfold_M. by destruct st.
Qed.

(** [apiInvoke] when every function among the arguments is an
    [AsyncFunction] and a callable among them throws: the slots are
    registered and deleted again, nothing is written, and what the
    callable threw is thrown. *)
Lemma apiInvoke_begin_called_throws fnName args st :
  Forall is_async (functions_of args) ->
  ~ callables_return args ->
  exists e,
    apiInvoke_begin fnName args st
    = ({| uniqueKeyID :=
            uniqueKeyID st + 1 + Z.of_nat (length (functions_of args));
          callbackFunctionMap :=
            foldl (fun m key => delete key m)
              (register_slots (functions_of args) (uniqueKeyID st + 1)
                 (<[uniqueKeyID st := waiter (uniqueKeyID st) (length (promises st))]>
                    (callbackFunctionMap st)))
              (seqZ (uniqueKeyID st + 1) (Z.of_nat (length (functions_of args))));
          promises := promises st ++ [Pending];
          written := written st;
          applied := applied st |},
       Throw e).
Proof.
  intros Hargs Hret. unfold apiInvoke_begin. unfold_M.
  rewrite apiInvoke_args_ok by done. cbv beta iota.
  destruct (buildRpcItemData_throw
              (ItemValue (VStr fnName) :: arg_array_of args (uniqueKeyID st + 1)))
    as [e He].
  { intros Hall. apply Forall_cons in Hall as [_ Hall].
    by apply arg_array_of_returns in Hall. }
  cbn [app]. unfold_set. cbn [app] in He. rewrite He. cbn [mbind result_bind].
  unfold_M. exists e. by destruct st.
Qed.

(** An [apiInvoke] that is suspended met only [AsyncFunction]s and
    callables that return. *)
Lemma apiInvoke_begin_inv fnName args st st1 inv :
  apiInvoke_begin fnName args st = (st1, Ok inv) ->
  Forall is_async (functions_of args) /\ callables_return args.
Proof.
  intros Hbegin.
  destruct (decide (Forall is_async (functions_of args))) as [Hargs|Hargs].
  2:{ destruct (not_all_async args Hargs) as (pre & bad & post & -> & Hpre & Hbad).
      by rewrite apiInvoke_begin_throw in Hbegin. }
  split; [done|].
  destruct (decide (callables_return args)) as [Hret|Hret]; [done|].
  destruct (apiInvoke_begin_called_throws fnName args st Hargs Hret) as [e He].
  by rewrite He in Hbegin.
Qed.

End ApiInvoke.

(** ** Client engine: promises and the table *)

(** What a rejection makes of the state of a promise. *)
Lemma settle_lookup_eq q s (ps : list promise_state) :
  settle q s ps !! q
  = (fun old => match old with Pending => s | _ => old end) <$> ps !! q.
Proof.
  unfold settle. destruct (ps !! q) as [[| |]|] eqn:E; rewrite ?E; try done.
  rewrite list_lookup_insert_eq; [done|]. by eapply lookup_lt_Some.
Qed.

Lemma settle_lookup_ne q s (ps : list promise_state) p :
  p ≠ q -> settle q s ps !! p = ps !! p.
Proof.
  intros Hne. unfold settle. destruct (ps !! q) as [[| |]|]; try done.
  by rewrite list_lookup_insert_ne.
Qed.

Lemma length_settle q s (ps : list promise_state) :
  length (settle q s ps) = length ps.
Proof.
  unfold settle. destruct (ps !! q) as [[| |]|]; try done. apply length_insert.
Qed.

Lemma lookup_foldl_delete (keys : list Z) (m : gmap Z CALLBACK_ITEM) k :
  foldl (fun m key => delete key m) m keys !! k
  = if decide (k ∈ keys) then None else m !! k.
Proof.
  revert m. induction keys as [|key keys IH]; intros m; cbn [foldl].
  - rewrite decide_False; [done|]. apply not_elem_of_nil.
  - rewrite IH. destruct (decide (k = key)) as [->|Hne].
    + rewrite lookup_delete_eq. rewrite (decide_True (P := key ∈ key :: keys));
        [by case_decide|]. apply elem_of_cons. by left.
    + rewrite lookup_delete_ne by done.
      repeat case_decide; try done; exfalso.
      * by match goal with Hn : k ∉ _ :: _ |- _ => apply Hn; apply elem_of_cons; right end.
      * match goal with Hi : k ∈ _ :: _ |- _ => apply elem_of_cons in Hi as [?|?] end; done.
Qed.

(** [reject_all]: the table is emptied, every promise the table refers
    to is rejected if it was pending, and the others are as they were. *)
Lemma reject_all_promises error (m : gmap Z CALLBACK_ITEM) (ps : list promise_state) :
  let ps' :=
    map_fold (fun _ o ps =>
                match item_promise o with
                | Some p => settle p (Rejected error) ps
                | None => ps
                end) ps m in
  length ps' = length ps
  /\ (forall p, (exists k o, m !! k = Some o /\ item_promise o = Some p) ->
        ps' !! p
        = (fun old => match old with Pending => Rejected error | _ => old end)
            <$> ps !! p)
  /\ (forall p, (forall k o, m !! k = Some o -> item_promise o ≠ Some p) ->
        ps' !! p = ps !! p)
  /\ (forall p, ps' !! p = ps !! p
                \/ ps' !! p
                   = (fun old => match old with Pending => Rejected error | _ => old end)
                       <$> ps !! p).
Proof.
  cbv zeta.
  apply (map_fold_weak_ind
    (fun r m =>
       length r = length ps
       /\ (forall p, (exists k o, m !! k = Some o /\ item_promise o = Some p) ->
             r !! p
             = (fun old => match old with Pending => Rejected error | _ => old end)
                 <$> ps !! p)
       /\ (forall p, (forall k o, m !! k = Some o -> item_promise o ≠ Some p) ->
             r !! p = ps !! p)
       /\ (forall p, r !! p = ps !! p
                     \/ r !! p
                        = (fun old => match old with Pending => Rejected error | _ => old end)
                            <$> ps !! p))).
  - split; [done|]. split; [|split; [done|by left]].
    intros p (k & o & Hk & _). by rewrite lookup_empty in Hk.
  - intros i x m' r Hi (Hlen & Href & Hnot & Hany).
    assert (Hstep : forall q p,
      item_promise x = Some q ->
      settle q (Rejected error) r !! p
      = if decide (p = q)
        then (fun old => match old with Pending => Rejected error | _ => old end)
               <$> ps !! p
        else r !! p).
    { intros q p Hq. case_decide as Hpq.
      - subst p. rewrite settle_lookup_eq.
        destruct (Hany q) as [->| ->]; [done|]. by destruct (ps !! q) as [[| |]|].
      - by apply settle_lookup_ne. }
    split; [destruct (item_promise x); [by rewrite length_settle|done]|].
    split; [|split].
    + intros p (k & o & Hk & Hp). destruct (decide (k = i)) as [->|Hki].
      * rewrite lookup_insert_eq in Hk. injection Hk as <-. rewrite Hp.
        rewrite (Hstep p p Hp). by rewrite decide_True.
      * rewrite lookup_insert_ne in Hk by done.
        destruct (item_promise x) as [q|] eqn:Hq; [|by eauto].
        rewrite (Hstep q p eq_refl). case_decide; [done|by eauto].
    + intros p Hp.
      assert (Hm' : forall k o, m' !! k = Some o -> item_promise o ≠ Some p).
      { intros k o Hk. apply (Hp k). rewrite lookup_insert_ne; [done|].
        intros ->. by rewrite Hi in Hk. }
      destruct (item_promise x) as [q|] eqn:Hq; [|by eauto].
      rewrite (Hstep q p eq_refl). case_decide as Hpq; [|by eauto].
      subst q. exfalso. apply (Hp i x); [apply lookup_insert_eq|done].
    + intros p. destruct (item_promise x) as [q|] eqn:Hq; [|by eauto].
      rewrite (Hstep q p eq_refl). case_decide; [by right|by eauto].
Qed.

Lemma reject_all_table error st : callbackFunctionMap (reject_all error st) = ∅.
Proof. done. Qed.

Lemma reject_all_referenced error st key o p :
  callbackFunctionMap st !! key = Some o -> item_promise o = Some p ->
  promises (reject_all error st) !! p
  = (fun old => match old with Pending => Rejected error | _ => old end)
      <$> promises st !! p.
Proof.
  intros Hk Hp. unfold reject_all. unfold_set.
  destruct (reject_all_promises error (callbackFunctionMap st) (promises st))
    as (_ & Href & _). apply Href. eauto.
Qed.

Lemma reject_all_length error st :
  length (promises (reject_all error st)) = length (promises st).
Proof.
  unfold reject_all. unfold_set.
  by destruct (reject_all_promises error (callbackFunctionMap st) (promises st))
    as (Hlen & _).
Qed.

(** ** Client engine: the inbound handler *)

Lemma callback_args_throw items e :
  callback_args items = Throw e -> exists msg, e = TypeError msg.
Proof.
  destruct items as [| |b|n|s|b|l|fields]; cbn [callback_args];
    try (intros [= <-]; by eexists).
  induction l as [|v l IH]; cbn [JsValue.map_result]; [done|].
  destruct (JsValue.get v "data") as [d|e'] eqn:Hget; cbn [mbind result_bind].
  - destruct (JsValue.map_result _ l); cbn [mbind result_bind]; [done|].
    intros [= <-]. by apply IH.
  - intros [= <-]. destruct v; cbn in Hget; try done; injection Hget as <-; by eexists.
Qed.

Section Handler.
Context `{Packr}.

Lemma onmessage_try_eval buffer st :
  onmessage_try buffer st
  = match parseRpcData buffer with
    | Throw e => (st, Throw e)
    | Ok data =>
        match map_get (callbackFunctionMap st) (rpc_id data) with
        | None => (st, Ok tt)
        | Some o => onmessage_found data (rpc_data data) o st
        end
    end.
Proof.
  unfold onmessage_try. unfold_M.
  destruct (parseRpcData buffer) as [data|e]; [|done].
  by destruct (map_get (callbackFunctionMap st) (rpc_id data)).
Qed.

(** An ERROR record for a result waiter: the promise is rejected with
    the remote message and stack, and the table is left as it is. *)
Lemma onmessage_found_error data items o p message stack remote st :
  rpc_type data = VNum RPC_TYPE_ERROR ->
  item_promise o = Some p ->
  JsValue.get (rpc_data data) "message" = Ok message ->
  JsValue.get (rpc_data data) "stack" = Ok stack ->
  new_RPCError message stack = Ok remote ->
  onmessage_found data items o st
  = (set_promises (settle p (Rejected remote) (promises st)) st, Ok tt).
Proof.
  intros Ht Hp Hm Hs Hr. unfold onmessage_found, reject_with_remote_error.
  rewrite Ht, Hp, Hm, Hs. cbn [JsValue.loose_eq_num].
  change (RPC_TYPE_ERROR =? RPC_TYPE_ERROR)%Z with true.
  change (RPC_TYPE_ERROR =? RPC_TYPE_RETURN)%Z with false.
  change (RPC_TYPE_ERROR =? RPC_TYPE_CALLBACK)%Z with false.
  unfold_M. by rewrite Hr.
Qed.

(** A RETURN record for a result waiter: the entry is deleted and the
    promise resolved. *)
Lemma onmessage_found_return data items o p n st :
  rpc_type data = VNum RPC_TYPE_RETURN ->
  rpc_id data = VNum n ->
  item_promise o = Some p ->
  onmessage_found data items o st
  = (set_promises (settle p (Fulfilled (rpc_data data)) (promises st))
       (set_callbackFunctionMap (delete n (callbackFunctionMap st)) st),
     Ok tt).
Proof.
  intros Ht Hn Hp. unfold onmessage_found, resolve_with.
  rewrite Ht, Hn, Hp. cbn [JsValue.loose_eq_num].
  change (RPC_TYPE_RETURN =? RPC_TYPE_ERROR)%Z with false.
  change (RPC_TYPE_RETURN =? RPC_TYPE_RETURN)%Z with true.
  change (RPC_TYPE_RETURN =? RPC_TYPE_CALLBACK)%Z with false.
  by unfold_M.
Qed.

(** A record whose type does not fit the entry its id names: the handler
    throws a [TypeError]; a RETURN has deleted the entry before. *)
Lemma onmessage_found_mismatch data o n st :
  rpc_id data = VNum n ->
  (rpc_type data = VNum RPC_TYPE_CALLBACK /\ item_callback o = None)
  \/ ((rpc_type data = VNum RPC_TYPE_RETURN \/ rpc_type data = VNum RPC_TYPE_ERROR)
      /\ item_promise o = None) ->
  exists msg,
    onmessage_found data (rpc_data data) o st
    = ((if JsValue.loose_eq_num (rpc_type data) RPC_TYPE_RETURN
        then set_callbackFunctionMap (delete n (callbackFunctionMap st)) st
        else st),
       Throw (TypeError msg)).
Proof.
  intros Hn [[Ht Ho]|[[Ht|Ht] Ho]]; unfold onmessage_found; rewrite Ht, ?Hn;
    cbn [JsValue.loose_eq_num].
  - change (RPC_TYPE_CALLBACK =? RPC_TYPE_ERROR)%Z with false.
    change (RPC_TYPE_CALLBACK =? RPC_TYPE_RETURN)%Z with false.
    change (RPC_TYPE_CALLBACK =? RPC_TYPE_CALLBACK)%Z with true.
    unfold apply_callback. rewrite Ho. unfold_M.
    destruct (callback_args (rpc_data data)) as [args|e] eqn:Hargs.
    + by eexists.
    + apply callback_args_throw in Hargs as [msg ->]. by eexists.
  - change (RPC_TYPE_RETURN =? RPC_TYPE_ERROR)%Z with false.
    change (RPC_TYPE_RETURN =? RPC_TYPE_RETURN)%Z with true.
    unfold resolve_with. rewrite Ho. unfold_M. by eexists.
  - change (RPC_TYPE_ERROR =? RPC_TYPE_ERROR)%Z with true.
    change (RPC_TYPE_ERROR =? RPC_TYPE_RETURN)%Z with false.
    unfold reject_with_remote_error. rewrite Ho. unfold_M. by eexists.
Qed.

End Handler.

Lemma parse_error_record :
  @parseRpcData toy_packr error_record
  = Ok {| rpc_id := VNum 0; rpc_type := VNum RPC_TYPE_ERROR;
          rpc_data := VObj [("message", VStr "boom");
                            ("stack", VStr "Error: boom at fail")] |}.
Proof. unfold parseRpcData, error_record. by rewrite toy_unpack_pack. Qed.

Lemma parse_return_record :
  @parseRpcData toy_packr return_record
  = Ok {| rpc_id := VNum 0; rpc_type := VNum RPC_TYPE_RETURN;
          rpc_data := VStr "done" |}.
Proof. unfold parseRpcData, return_record. by rewrite toy_unpack_pack. Qed.

Lemma one_call_state :
  callbackFunctionMap one_call = {[ 0%Z := waiter 0 0 ]}
  /\ promises one_call = [Pending].
Proof.
  unfold one_call. rewrite (@apiInvoke_begin_ok toy_packr "fail" [] client_init);
    [|constructor..]. done.
Qed.

(** [C1] What the handler does with an ERROR record, at a table with one
    result waiter, under id 0: the promise of the waiter is rejected with
    an error that has the remote message and the remote stack, and the
    entry of the waiter is still in the table.  A RETURN record for the
    same id removes the entry. *)
Theorem error_leaves_waiter_registered :
  callbackFunctionMap one_call !! 0%Z = Some (waiter 0 0)
  /\ promises (@onmessage toy_packr error_record one_call)
     = [Rejected (RPCError (VStr "boom") (Some (VStr "Error: boom at fail")))]
  /\ callbackFunctionMap (@onmessage toy_packr error_record one_call) !! 0%Z
     = Some (waiter 0 0)
  /\ promises (@onmessage toy_packr return_record one_call) = [Fulfilled (VStr "done")]
  /\ callbackFunctionMap (@onmessage toy_packr return_record one_call) !! 0%Z = None.
Proof.
  destruct one_call_state as [Hm Hp].
  assert (H0 : callbackFunctionMap one_call !! 0%Z = Some (waiter 0 0)).
  { rewrite Hm. apply lookup_singleton_eq. }
  split; [done|].
  unfold onmessage. rewrite !onmessage_try_eval.
  rewrite parse_error_record, parse_return_record.
  cbn [rpc_id rpc_data map_get]. rewrite H0.
  rewrite (onmessage_found_error _ _ _ 0 (VStr "boom") (VStr "Error: boom at fail")
             (RPCError (VStr "boom") (Some (VStr "Error: boom at fail"))))
    by done.
  rewrite (onmessage_found_return _ _ _ 0 0%Z) by done.
  unfold_set. rewrite Hp, H0, lookup_delete_eq. done.
Qed.

(** [C9] A record whose type does not fit the role of the entry its id
    names (a CALLBACK for an entry without a callback, a RETURN or an
    ERROR for an entry without a promise) makes the [try] block of the
    handler throw a [TypeError]; the [catch] then rejects, with that
    error, the promise of every entry in the table at that moment, that
    is every entry the table had except, for a RETURN, the one just
    deleted, and clears the table. *)
Theorem role_mismatch_fails_all `{Packr} (st : client_state)
    (buffer : Uint8Array) (data : RPC_DATA) (id : Z) (o : CALLBACK_ITEM) :
  parseRpcData buffer = Ok data ->
  rpc_id data = VNum id ->
  callbackFunctionMap st !! id = Some o ->
  (rpc_type data = VNum RPC_TYPE_CALLBACK /\ item_callback o = None)
  \/ ((rpc_type data = VNum RPC_TYPE_RETURN \/ rpc_type data = VNum RPC_TYPE_ERROR)
      /\ item_promise o = None) ->
  exists st' msg,
    onmessage_try buffer st = (st', Throw (TypeError msg))
    /\ callbackFunctionMap st'
       = (if JsValue.loose_eq_num (rpc_type data) RPC_TYPE_RETURN
          then delete id (callbackFunctionMap st)
          else callbackFunctionMap st)
    /\ promises st' = promises st
    /\ onmessage buffer st = reject_all (TypeError msg) st'
    /\ callbackFunctionMap (onmessage buffer st) = ∅
    /\ (forall key o' p,
          callbackFunctionMap st' !! key = Some o' -> item_promise o' = Some p ->
          promises (onmessage buffer st) !! p
          = (fun old => match old with
                        | Pending => Rejected (TypeError msg)
                        | _ => old
                        end) <$> promises st !! p).
Proof.
  intros Hparse Hid Ho Hmis.
  destruct (onmessage_found_mismatch data o id st Hid Hmis) as [msg Hfound].
  assert (Htry : onmessage_try buffer st
                 = ((if JsValue.loose_eq_num (rpc_type data) RPC_TYPE_RETURN
                     then set_callbackFunctionMap (delete id (callbackFunctionMap st)) st
                     else st),
                    Throw (TypeError msg))).
  { rewrite onmessage_try_eval, Hparse, Hid. cbn [map_get]. by rewrite Ho. }
  eexists _, msg. split; [exact Htry|].
  assert (Hp : promises (if JsValue.loose_eq_num (rpc_type data) RPC_TYPE_RETURN
                         then set_callbackFunctionMap
                                (delete id (callbackFunctionMap st)) st
                         else st) = promises st) by (by case_match).
  split; [|split; [exact Hp|]].
  { by case_match. }
  unfold onmessage. rewrite Htry.
  split; [done|]. split; [done|].
  intros key o' p Hkey Hpo'. rewrite <- Hp. by eapply reject_all_referenced.
Qed.

Lemma parse_stray_callback_record :
  @parseRpcData toy_packr stray_callback_record
  = Ok {| rpc_id := VNum 0; rpc_type := VNum RPC_TYPE_CALLBACK;
          rpc_data := VArr [arg_item (VNum RPC_DATA_ARG_TYPE_OTHERS)
                              (VStr "progress 0")] |}.
Proof. unfold parseRpcData, stray_callback_record. by rewrite toy_unpack_pack. Qed.

Lemma call_with_callback_state :
  callbackFunctionMap call_with_callback
  = <[1%Z := slot 1 async_fn]> {[ 0%Z := waiter 0 0 ]}
  /\ promises call_with_callback = [Pending].
Proof.
  unfold call_with_callback.
  rewrite (@apiInvoke_begin_ok toy_packr "progress" [ArgFunction async_fn] client_init);
    [done|by repeat constructor..].
Qed.

Lemma role_mismatch_fails_all_witness :
  @parseRpcData toy_packr stray_callback_record
  = Ok {| rpc_id := VNum 0; rpc_type := VNum RPC_TYPE_CALLBACK;
          rpc_data := VArr [arg_item (VNum RPC_DATA_ARG_TYPE_OTHERS)
                              (VStr "progress 0")] |}
  /\ callbackFunctionMap call_with_callback !! 0%Z = Some (waiter 0 0)
  /\ item_callback (waiter 0 0) = None
  /\ callbackFunctionMap (@onmessage toy_packr stray_callback_record call_with_callback)
     = ∅
  /\ exists msg,
       promises (@onmessage toy_packr stray_callback_record call_with_callback) !! 0
       = Some (Rejected (TypeError msg)).
Proof.
  destruct call_with_callback_state as [Hm Hp].
  assert (H0 : callbackFunctionMap call_with_callback !! 0%Z = Some (waiter 0 0)).
  { rewrite Hm. by rewrite lookup_insert_ne, lookup_singleton_eq. }
  refine (conj parse_stray_callback_record (conj H0 (conj eq_refl _))).
  destruct (@role_mismatch_fails_all toy_packr call_with_callback
              stray_callback_record _ 0%Z (waiter 0 0)
              parse_stray_callback_record eq_refl H0 (or_introl (conj eq_refl eq_refl)))
    as (st' & msg & Htry & Hkeep & Hps & Hcatch & Hclear & Hrej).
  split; [exact Hclear|]. exists msg.
  assert (H0' : callbackFunctionMap st' !! 0%Z = Some (waiter 0 0)).
  { rewrite Hkeep. exact H0. }
  rewrite (Hrej 0%Z (waiter 0 0) 0 H0' eq_refl), Hp. reflexivity.
Defined.

(** ** Client engine: the claims about [apiInvoke] *)




(** [C6] An invocation that has written its CALL message holds, as the
    keys to delete, exactly the ids under which it registered a callback
    slot, one per function argument.  Whatever the table has become when
    the invocation is resumed, with the rejection of the write, with the
    value its promise was resolved with or with the error its promise was
    rejected with, none of these ids is in the table when the invocation
    returns or throws. *)
Theorem callback_slots_removed_on_settlement `{Packr} (st st1 : client_state)
    (fnName : string) (args : list js_arg) (inv : invocation) :
  apiInvoke_begin fnName args st = (st1, Ok inv) ->
  (exists buffer, written st1 = written st ++ [buffer])
  /\ inv_keys inv
     = seqZ (uniqueKeyID st + 1) (Z.of_nat (length (functions_of args)))
  /\ (forall i f, functions_of args !! i = Some f ->
        callbackFunctionMap st1 !! (uniqueKeyID st + 1 + Z.of_nat i)%Z
        = Some (slot (uniqueKeyID st + 1 + Z.of_nat i) f))
  /\ (forall key, key ≠ inv_id inv -> key ∉ inv_keys inv ->
        callbackFunctionMap st1 !! key = callbackFunctionMap st !! key)
  /\ (forall st2 error,
        exists st3,
          apiInvoke_write_rejected inv error st2 = (st3, Throw error)
          /\ forall key, key ∈ inv_keys inv -> callbackFunctionMap st3 !! key = None)
  /\ (forall st2 v,
        promises st2 !! inv_promise inv = Some (Fulfilled v) ->
        exists st3,
          apiInvoke_resume inv st2 = (st3, Ok (Some v))
          /\ forall key, key ∈ inv_keys inv -> callbackFunctionMap st3 !! key = None)
  /\ (forall st2 error,
        promises st2 !! inv_promise inv = Some (Rejected error) ->
        exists st3,
          apiInvoke_resume inv st2 = (st3, Throw error)
          /\ forall key, key ∈ inv_keys inv -> callbackFunctionMap st3 !! key = None).
Proof.
  intros Hbegin.
  destruct (apiInvoke_begin_inv _ _ _ _ _ Hbegin) as [Hargs Hret].
  rewrite apiInvoke_begin_ok in Hbegin by done.
  injection Hbegin as <- <-. cbn [written inv_keys inv_id inv_promise callbackFunctionMap].
  assert (Hgone : forall st2 key,
    key ∈ seqZ (uniqueKeyID st + 1) (Z.of_nat (length (functions_of args))) ->
    foldl (fun m k => delete k m) (callbackFunctionMap st2)
      (seqZ (uniqueKeyID st + 1) (Z.of_nat (length (functions_of args)))) !! key
    = None).
  { intros st2 key Hkey. rewrite lookup_foldl_delete. by rewrite decide_True. }
  split; [by eexists|]. split; [done|]. split; [|split; [|split; [|split]]].
  - intros i f Hi. rewrite lookup_register_slots.
    pose proof (lookup_lt_Some _ _ _ Hi).
    rewrite decide_True by lia.
    replace (Z.to_nat (uniqueKeyID st + 1 + Z.of_nat i - (uniqueKeyID st + 1))) with i
      by lia.
    by rewrite Hi.
  - intros key Hid Hkey. rewrite lookup_register_slots.
    rewrite elem_of_seqZ in Hkey. rewrite decide_False by lia.
    by rewrite lookup_insert_ne.
  - intros st2 error. eexists. split; [reflexivity|].
    intros key Hkey. unfold_set. by apply Hgone.
  - intros st2 v Hv. unfold apiInvoke_resume. unfold_M.
    cbn [inv_promise inv_keys]. rewrite Hv. eexists. split; [reflexivity|].
    intros key Hkey. unfold_set. by apply Hgone.
  - intros st2 error He. unfold apiInvoke_resume. unfold_M.
    cbn [inv_promise inv_keys]. rewrite He. eexists. split; [reflexivity|].
    intros key Hkey. unfold_set. by apply Hgone.
Qed.

Lemma callback_slots_removed_on_settlement_witness :
  exists st1 inv,
    @apiInvoke_begin toy_packr "progress" [ArgFunction async_fn] client_init
    = (st1, Ok inv)
    /\ inv_keys inv = [1%Z]
    /\ callbackFunctionMap st1 !! 1%Z = Some (slot 1 async_fn)
    /\ forall st2 error,
         exists st3,
           @apiInvoke_write_rejected inv error st2 = (st3, Throw error)
           /\ callbackFunctionMap st3 !! 1%Z = None.
Proof.
  assert (Hargs : Forall is_async (functions_of [ArgFunction async_fn]))
    by (by repeat constructor).
  assert (Hret : callables_return [ArgFunction async_fn])
    by (by repeat constructor).
  pose proof (@apiInvoke_begin_ok toy_packr "progress" [ArgFunction async_fn]
                client_init Hargs Hret) as Hbegin.
  eexists _, _. split; [exact Hbegin|].
  destruct (@callback_slots_removed_on_settlement toy_packr _ _ _ _ _ Hbegin)
    as (_ & Hkeys & Hslots & _ & Hwrite & _).
  split; [exact Hkeys|]. split; [exact (Hslots 0 async_fn eq_refl)|].
  intros st2 error. destruct (Hwrite st2 error) as (st3 & Hrej & Hgone).
  exists st3. split; [exact Hrej|]. apply Hgone. apply list_elem_of_here.
Defined.

(** ** The engine over time *)

Lemma found_effect_refl n o st : found_effect n o st st.
Proof. by repeat split. Qed.

Lemma found_effect_trans n o st1 st2 st3 :
  found_effect n o st1 st2 -> found_effect n o st2 st3 -> found_effect n o st1 st3.
Proof.
  intros (Hu1 & Hw1 & Hl1 & Hk1 & Hs1 & Hp1) (Hu2 & Hw2 & Hl2 & Hk2 & Hs2 & Hp2).
  repeat split; try congruence.
  - intros k Hk. by rewrite Hk2, Hk1.
  - intros k o' Hk. by apply Hs1, Hs2.
  - intros q Hq. by rewrite Hp2, Hp1.
Qed.

Lemma M_pres_bind {A B} R (m : M A) (f : A -> M B) :
  (forall st1 st2 st3, R st1 st2 -> R st2 st3 -> R st1 st3) ->
  M_pres R m -> (forall a, M_pres R (f a)) -> M_pres R (m ≫= f).
Proof.
  intros Htrans Hm Hf st st' r. unfold mbind, M_bind.
  destruct (m st) as [st1 [a|e]] eqn:Em.
  - intros Hfa. eapply Htrans; [by eapply Hm|by eapply Hf].
  - intros [= <- <-]. by eapply Hm.
Qed.

Lemma M_pres_modify R (f : client_state -> client_state) :
  (forall st, R st (f st)) -> M_pres R (modify f).
Proof. intros Hf st st' r [= <- <-]. apply Hf. Qed.

Lemma M_pres_same {A} R (m : M A) :
  (forall st, R st st) -> (forall st, (m st).1 = st) -> M_pres R m.
Proof. intros Hrefl Hm st st' r Hr. specialize (Hm st). rewrite Hr in Hm. cbn in Hm. by subst. Qed.

Lemma found_effect_settle n o p s st :
  item_promise o = Some p ->
  found_effect n o st (set_promises (settle p s (promises st)) st).
Proof.
  intros Hp. repeat split; try done.
  - unfold_set. apply length_settle.
  - intros q Hq. unfold_set. apply settle_lookup_ne. congruence.
Qed.

Lemma found_effect_delete n o st :
  found_effect n o st (set_callbackFunctionMap (delete n (callbackFunctionMap st)) st).
Proof.
  repeat split; try done.
  - intros k Hk. unfold_set. by apply lookup_delete_ne.
  - intros k o'. unfold_set. intros Hk. apply lookup_delete_Some in Hk. tauto.
Qed.

Lemma found_effect_applied n o a st : found_effect n o st (set_applied a st).
Proof. by repeat split. Qed.

(** Splits a goal about the engine after the keys of an invocation are
    deleted into the goal before the deletion, with the lemma [lem]. *)
Ltac before_finally lem :=
  match goal with
  | |- context [ {| eng_state :=
                      set_callbackFunctionMap (foldl _ _ (inv_keys ?inv)) ?S;
                    eng_suspended := ?su; eng_ended := ?en |} ] =>
      apply (lem {| eng_state := S; eng_suspended := su; eng_ended := en |} inv)
  end.

Section EngineFacts.
Context `{Packr}.

(** Handling a record found in the table changes nothing but the entry
    under its id, the promise of that entry and the log of calls. *)
Lemma onmessage_found_effect data items o n :
  rpc_id data = VNum n ->
  M_pres (found_effect n o) (onmessage_found data items o).
Proof.
  intros Hn. unfold onmessage_found. rewrite Hn.
  pose proof (found_effect_trans n o) as Htrans.
  pose proof (found_effect_refl n o) as Hrefl.
  apply M_pres_bind; [done| |intros _; apply M_pres_bind; [done| |intros _]].
  - destruct (JsValue.loose_eq_num _ _); [|by apply M_pres_same].
    unfold reject_with_remote_error.
    destruct (item_promise o) as [p|] eqn:Hp; [|by apply M_pres_same].
    apply M_pres_bind; [done|by apply M_pres_same|intros message].
    apply M_pres_bind; [done|by apply M_pres_same|intros stack].
    apply M_pres_bind; [done|by apply M_pres_same|intros remote].
    apply M_pres_modify. intros st. exact (found_effect_settle n o p _ st Hp).
  - destruct (JsValue.loose_eq_num _ _); [|by apply M_pres_same].
    apply M_pres_bind; [done| |intros _].
    + apply M_pres_modify. intros st. apply found_effect_delete.
    + unfold resolve_with.
      destruct (item_promise o) as [p|] eqn:Hp; [|by apply M_pres_same].
      apply M_pres_modify. intros st. exact (found_effect_settle n o p _ st Hp).
  - destruct (JsValue.loose_eq_num _ _); [|by apply M_pres_same].
    apply M_pres_bind; [done|by apply M_pres_same|intros args].
    unfold apply_callback.
    destruct (item_callback o); [|by apply M_pres_same].
    apply M_pres_modify. intros st. apply found_effect_applied.
Qed.

(** What starting an invocation does to the engine, whether it throws on
    a function argument, throws what a callable threw, after deleting the
    keys [gone], or is suspended. *)
Lemma step_invoke e fnName args :
  exists fs w suspended ended gone,
    step e (EvInvoke fnName args)
    = {| eng_state :=
           set_callbackFunctionMap
             (foldl (fun m key => delete key m)
                (callbackFunctionMap
                   {| uniqueKeyID :=
                        uniqueKeyID (eng_state e) + 1 + Z.of_nat (length fs);
                      callbackFunctionMap :=
                        register_slots fs (uniqueKeyID (eng_state e) + 1)
                          (<[uniqueKeyID (eng_state e) :=
                               waiter (uniqueKeyID (eng_state e))
                                 (length (promises (eng_state e)))]>
                             (callbackFunctionMap (eng_state e)));
                      promises := promises (eng_state e) ++ [Pending];
                      written := w;
                      applied := applied (eng_state e) |})
                (inv_keys {| inv_id := 0; inv_promise := 0; inv_keys := gone |}))
             {| uniqueKeyID :=
                  uniqueKeyID (eng_state e) + 1 + Z.of_nat (length fs);
                callbackFunctionMap :=
                  register_slots fs (uniqueKeyID (eng_state e) + 1)
                    (<[uniqueKeyID (eng_state e) :=
                         waiter (uniqueKeyID (eng_state e))
                           (length (promises (eng_state e)))]>
                       (callbackFunctionMap (eng_state e)));
                promises := promises (eng_state e) ++ [Pending];
                written := w;
                applied := applied (eng_state e) |};
         eng_suspended := suspended;
         eng_ended := ended |}
    /\ (forall k, k ∈ gone ->
          (uniqueKeyID (eng_state e) < k)%Z)
    /\ (suspended = eng_suspended e
        \/ suspended
           = <[uniqueKeyID (eng_state e) :=
                 ({| inv_id := uniqueKeyID (eng_state e);
                     inv_promise := length (promises (eng_state e));
                     inv_keys :=
                       seqZ (uniqueKeyID (eng_state e) + 1) (Z.of_nat (length fs)) |},
                  AwaitWrite)]> (eng_suspended e)).
Proof.
  cbn [step].
  destruct (decide (Forall is_async (functions_of args))) as [Hargs|Hargs].
  - destruct (decide (callables_return args)) as [Hret|Hret].
    + rewrite apiInvoke_begin_ok by done. eexists _, _, _, _, [].
      split; [reflexivity|]. split; [by intros k ?%elem_of_nil|by right].
    + destruct (apiInvoke_begin_called_throws fnName args (eng_state e) Hargs Hret)
        as [e' ->].
      eexists _, _, _, _, _. split; [reflexivity|].
      split; [|by left]. intros k Hk. apply elem_of_seqZ in Hk. lia.
  - destruct (not_all_async args Hargs) as (pre & bad & post & -> & Hpre & Hbad).
    rewrite apiInvoke_begin_throw by done. eexists _, _, _, _, [].
    split; [reflexivity|]. split; [by intros k ?%elem_of_nil|by left].
Qed.

(** What deleting the keys of an invocation does. *)
Lemma leak_inv_finally id p bound table e inv suspended ended :
  leak_inv id p bound table e ->
  (forall k, k ∈ inv_keys inv -> (k < id \/ bound <= k)%Z) ->
  (forall i inv' ph, suspended !! i = Some (inv', ph) ->
     exists i' ph', eng_suspended e !! i' = Some (inv', ph')) ->
  leak_inv id p bound table
    {| eng_state :=
         set_callbackFunctionMap
           (foldl (fun m key => delete key m) (callbackFunctionMap (eng_state e))
              (inv_keys inv)) (eng_state e);
       eng_suspended := suspended; eng_ended := ended |}.
Proof.
  intros (Hb & Hk & Hp & Hu & Hs) Hkeys Hsub.
  repeat split; cbn [eng_state eng_suspended]; unfold_set; try done.
  - intros k Hkb. rewrite lookup_foldl_delete, decide_False; [by apply Hk|].
    intros Hin. apply Hkeys in Hin. lia.
  - intros k o. rewrite lookup_foldl_delete. case_decide; [done|]. apply Hu.
  - intros i inv' ph Hi. destruct (Hsub _ _ _ Hi) as (i' & ph' & Hi'). by eapply Hs.
Qed.

(** The entries left behind stay through every event that is not a
    rejection of the whole pipeline. *)
Lemma leak_inv_step id p bound table e ev :
  (id < bound)%Z ->
  leak_inv id p bound table e ->
  quiet (seqZ id (bound - id)) (eng_state e) ev ->
  leak_inv id p bound table (step e ev).
Proof.
  intros Hlt Hinv Hq. pose proof Hinv as (Hb & Hk & Hp & Hu & Hs).
  destruct ev as [fnName args|i|i error|i|buffer|error].
  - destruct (step_invoke e fnName args)
      as (fs & w & suspended & ended & gone & -> & Hgone & Hsusp).
    pose proof (lookup_lt_Some _ _ _ Hp) as Hplt.
    before_finally (fun e inv => leak_inv_finally id p bound table e inv);
      [|intros k Hkin; apply Hgone in Hkin; lia|by eauto].
    repeat split; cbn [eng_state eng_suspended]; unfold_set.
    + lia.
    + intros k Hkb. rewrite lookup_register_slots, decide_False by lia.
      rewrite lookup_insert_ne by lia. by apply Hk.
    + by rewrite lookup_app_l.
    + intros k o. rewrite lookup_register_slots. case_decide.
      * destruct (fs !! _); [|done]. by intros [= <-].
      * destruct (decide (k = uniqueKeyID (eng_state e))) as [->|Hne].
        -- rewrite lookup_insert_eq. intros [= <-]. cbn. intros [= <-]. lia.
        -- rewrite lookup_insert_ne by done. apply Hu.
    + intros i inv ph Hi k Hkin. destruct Hsusp as [->| ->]; [by eapply Hs|].
      destruct (decide (i = uniqueKeyID (eng_state e))) as [->|Hne].
      * rewrite lookup_insert_eq in Hi. injection Hi as <- <-.
        cbn [inv_keys] in Hkin. apply elem_of_seqZ in Hkin. lia.
      * rewrite lookup_insert_ne in Hi by done. by eapply Hs.
  - cbn [step]. destruct (eng_suspended e !! i) as [[inv [|]]|] eqn:Hi; [|done..].
    repeat split; cbn [eng_state eng_suspended]; try done.
    intros i' inv' ph Hi' k Hkin. destruct (decide (i' = i)) as [->|Hne].
    + rewrite lookup_insert_eq in Hi'. injection Hi' as <- <-. by eapply Hs.
    + rewrite lookup_insert_ne in Hi' by done. by eapply Hs.
  - cbn [step]. destruct (eng_suspended e !! i) as [[inv [|]]|] eqn:Hi; [|done..].
    unfold apiInvoke_write_rejected. unfold_M.
    apply leak_inv_finally; [done|by eapply Hs|].
    intros i' inv' ph Hi'. apply lookup_delete_Some in Hi' as [_ Hi']. eauto.
  - cbn [step]. destruct (eng_suspended e !! i) as [[inv [|]]|] eqn:Hi; [done| |done].
    unfold apiInvoke_resume. unfold_M.
    destruct (promises (eng_state e) !! inv_promise inv) as [[|v|error]|]; [done| | |done].
    + apply leak_inv_finally; [done|by eapply Hs|].
      intros i' inv' ph Hi'. apply lookup_delete_Some in Hi' as [_ Hi']. eauto.
    + apply leak_inv_finally; [done|by eapply Hs|].
      intros i' inv' ph Hi'. apply lookup_delete_Some in Hi' as [_ Hi']. eauto.
  - cbn [quiet] in Hq. destruct Hq as (data & st' & Hparse & Htry & Hid).
    cbn [step]. unfold onmessage. rewrite Htry.
    rewrite onmessage_try_eval, Hparse in Htry.
    destruct (rpc_id data) as [| | |n| | | |] eqn:Hn; cbn [map_get] in Htry;
      try (injection Htry as <-; by destruct e).
    destruct (callbackFunctionMap (eng_state e) !! n) as [o|] eqn:Ho;
      [|injection Htry as <-; by destruct e].
    apply (onmessage_found_effect data _ o n Hn) in Htry
      as (Hu' & Hw' & Hl' & Hk' & Hs' & Hp').
    assert (Hnid : ~ (id <= n < bound)%Z).
    { intros Hnb. apply (Hid n); [|done]. apply elem_of_seqZ. lia. }
    repeat split; cbn [eng_state eng_suspended].
    + lia.
    + intros k Hkb. rewrite Hk' by lia. by apply Hk.
    + rewrite Hp'; [done|]. intros Hop. apply Hnid. rewrite (Hu n o Ho Hop). lia.
    + intros k o' Hko'. apply Hu. by apply Hs'.
    + done.
  - done.
Qed.

Lemma leak_inv_run id p bound table evs : forall e,
  (id < bound)%Z ->
  leak_inv id p bound table e ->
  quiet_trace (seqZ id (bound - id)) e evs ->
  leak_inv id p bound table (run e evs).
Proof.
  induction evs as [|ev evs IH]; intros e Hlt Hinv Hq; [done|].
  destruct Hq as [Hev Hevs]. cbn [run foldl]. apply IH; [done| |done].
  by apply leak_inv_step.
Qed.

(** The handler keeps the counter and the number of promises, and adds
    no entry to the table. *)
Lemma onmessage_frame buffer st :
  uniqueKeyID (onmessage buffer st) = uniqueKeyID st
  /\ length (promises (onmessage buffer st)) = length (promises st)
  /\ (forall k o, callbackFunctionMap (onmessage buffer st) !! k = Some o ->
        callbackFunctionMap st !! k = Some o).
Proof.
  assert (Htry : forall st' r, onmessage_try buffer st = (st', r) ->
    uniqueKeyID st' = uniqueKeyID st
    /\ length (promises st') = length (promises st)
    /\ (forall k o, callbackFunctionMap st' !! k = Some o ->
          callbackFunctionMap st !! k = Some o)).
  { intros st' r. rewrite onmessage_try_eval.
    destruct (parseRpcData buffer) as [data|e]; [|by intros [= <- <-]].
    destruct (rpc_id data) as [| | |n| | | |] eqn:Hn; cbn [map_get];
      try by intros [= <- <-].
    destruct (callbackFunctionMap st !! n) as [o|]; [|by intros [= <- <-]].
    intros Hf. apply (onmessage_found_effect data _ o n Hn) in Hf
      as (Hu' & Hw' & Hl' & Hk' & Hs' & Hp'). done. }
  unfold onmessage. destruct (onmessage_try buffer st) as [st' [[]|error]] eqn:E.
  - by apply (Htry st' (Ok tt)).
  - destruct (Htry st' (Throw error) eq_refl) as (Hu' & Hl' & Hs').
    split; [done|]. split; [by rewrite reject_all_length|].
    intros k o. rewrite reject_all_table, lookup_empty. done.
Qed.

(** [engine_wf] holds of the initial engine and is kept by every event. *)
Lemma engine_wf_init : engine_wf engine_init.
Proof.
  split.
  - intros id inv ph Hi. cbn in Hi. by rewrite lookup_empty in Hi.
  - intros key o p Hk. cbn in Hk. by rewrite lookup_empty in Hk.
Qed.

Lemma engine_wf_finally e inv suspended ended :
  engine_wf e ->
  (forall i inv' ph, suspended !! i = Some (inv', ph) ->
     exists i' ph', eng_suspended e !! i' = Some (inv', ph')) ->
  engine_wf
    {| eng_state :=
         set_callbackFunctionMap
           (foldl (fun m key => delete key m) (callbackFunctionMap (eng_state e))
              (inv_keys inv)) (eng_state e);
       eng_suspended := suspended; eng_ended := ended |}.
Proof.
  intros [Hs Ht] Hsub. split; cbn [eng_state eng_suspended]; unfold_set.
  - intros i inv' ph Hi. destruct (Hsub _ _ _ Hi) as (i' & ph' & Hi'). by eapply Hs.
  - intros key o p. rewrite lookup_foldl_delete. case_decide; [done|]. apply Ht.
Qed.

Lemma engine_wf_step e ev : engine_wf e -> engine_wf (step e ev).
Proof.
  intros Hwf. pose proof Hwf as [Hs Ht].
  destruct ev as [fnName args|i|i error|i|buffer|error].
  - destruct (step_invoke e fnName args)
      as (fs & w & suspended & ended & gone & -> & Hgone & Hsusp).
    before_finally engine_wf_finally; [|by eauto].
    split; cbn [eng_state eng_suspended]; unfold_set.
    + intros i inv ph Hi.
      assert (Hold : forall inv' ph', eng_suspended e !! i = Some (inv', ph') ->
        (inv_id inv' < uniqueKeyID (eng_state e) + 1 + Z.of_nat (length fs))%Z
        /\ forall key, key ∈ inv_keys inv' ->
             (key < uniqueKeyID (eng_state e) + 1 + Z.of_nat (length fs))%Z).
      { intros inv' ph' Hi'. destruct (Hs _ _ _ Hi') as [Hid Hkeys].
        split; [lia|]. intros key Hkey. apply Hkeys in Hkey. lia. }
      destruct Hsusp as [->| ->]; [by eapply Hold|].
      destruct (decide (i = uniqueKeyID (eng_state e))) as [->|Hne].
      * rewrite lookup_insert_eq in Hi. injection Hi as <- <-.
        cbn [inv_id inv_keys]. split; [lia|].
        intros key Hkey. apply elem_of_seqZ in Hkey. lia.
      * rewrite lookup_insert_ne in Hi by done. by eapply Hold.
    + intros key o p. rewrite lookup_register_slots, length_app. cbn [length].
      case_decide.
      * destruct (fs !! _); [|done]. by intros [= <-].
      * destruct (decide (key = uniqueKeyID (eng_state e))) as [->|Hne].
        -- rewrite lookup_insert_eq. intros [= <-]. cbn. intros [= <-]. lia.
        -- rewrite lookup_insert_ne by done. intros Hk Hp.
           pose proof (Ht _ _ _ Hk Hp). lia.
  - cbn [step]. destruct (eng_suspended e !! i) as [[inv [|]]|] eqn:Hi; [|done..].
    split; cbn [eng_state eng_suspended]; [|done].
    intros i' inv' ph Hi'. destruct (decide (i' = i)) as [->|Hne].
    + rewrite lookup_insert_eq in Hi'. injection Hi' as <- <-. by eapply Hs.
    + rewrite lookup_insert_ne in Hi' by done. by eapply Hs.
  - cbn [step]. destruct (eng_suspended e !! i) as [[inv [|]]|] eqn:Hi; [|done..].
    unfold apiInvoke_write_rejected. unfold_M.
    apply engine_wf_finally; [done|].
    intros i' inv' ph Hi'. apply lookup_delete_Some in Hi' as [_ Hi']. eauto.
  - cbn [step]. destruct (eng_suspended e !! i) as [[inv [|]]|] eqn:Hi; [done| |done].
    unfold apiInvoke_resume. unfold_M.
    destruct (promises (eng_state e) !! inv_promise inv) as [[|v|error]|]; [done| | |done].
    + apply engine_wf_finally; [done|].
      intros i' inv' ph Hi'. apply lookup_delete_Some in Hi' as [_ Hi']. eauto.
    + apply engine_wf_finally; [done|].
      intros i' inv' ph Hi'. apply lookup_delete_Some in Hi' as [_ Hi']. eauto.
  - cbn [step]. destruct (onmessage_frame buffer (eng_state e)) as (Hu & Hl & Hsub).
    split; cbn [eng_state eng_suspended].
    + intros i inv ph Hi. rewrite Hu. by eapply Hs.
    + intros key o p Hk Hp. rewrite Hl. eapply Ht; [by apply Hsub|done].
  - cbn [step]. split; cbn [eng_state eng_suspended].
    + intros i inv ph Hi. by eapply Hs.
    + intros key o p Hk. unfold reject in Hk.
      by rewrite reject_all_table, lookup_empty in Hk.
Qed.

Lemma engine_wf_run evs : forall e, engine_wf e -> engine_wf (run e evs).
Proof.
  induction evs as [|ev evs IH]; intros e Hwf; [done|].
  cbn [run foldl]. apply IH. by apply engine_wf_step.
Qed.

End EngineFacts.

(** [C10] An invocation that throws on a function argument that is not
    an [AsyncFunction] leaves in the table the waiter it registered under
    its call id and the slots of the function arguments before the
    offending one, with the promise of the waiter pending.  They are
    there after the throw and after every later run of the engine in
    which the pipeline is not rejected as a whole (no call of [reject],
    no record whose handling throws) and no record bears one of their
    ids, which were never sent; such a rejection then clears the table
    and rejects the promise. *)
Theorem local_failure_leaks_entries `{Packr} (e : engine) (fnName : string)
    (pre post : list js_arg) (bad : js_function) (evs : list event) :
  engine_wf e ->
  Forall is_async (functions_of pre) ->
  ~ is_async bad ->
  let id := uniqueKeyID (eng_state e) in
  let p := length (promises (eng_state e)) in
  let bound := (id + 1 + Z.of_nat (length (functions_of pre)))%Z in
  let e1 := step e (EvInvoke fnName (pre ++ ArgFunction bad :: post)) in
  quiet_trace (seqZ id (bound - id)) e1 evs ->
  let e2 := run e1 evs in
  eng_ended e1 = eng_ended e ++ [(id, Throw (usage_error (received_type bad)))]
  /\ eng_suspended e1 = eng_suspended e
  /\ callbackFunctionMap (eng_state e2) !! id = Some (waiter id p)
  /\ (forall i f, functions_of pre !! i = Some f ->
        callbackFunctionMap (eng_state e2) !! (id + 1 + Z.of_nat i)%Z
        = Some (slot (id + 1 + Z.of_nat i) f))
  /\ promises (eng_state e2) !! p = Some Pending
  /\ forall error,
       callbackFunctionMap (eng_state (step e2 (EvReject error))) = ∅
       /\ promises (eng_state (step e2 (EvReject error))) !! p
          = Some (Rejected error).
Proof.
  intros [Hs Ht] Hpre Hbad id p bound e1 Hquiet e2.
  assert (He1 : e1
    = {| eng_state :=
           {| uniqueKeyID := bound;
              callbackFunctionMap :=
                register_slots (functions_of pre) (id + 1)
                  (<[id := waiter id p]> (callbackFunctionMap (eng_state e)));
              promises := promises (eng_state e) ++ [Pending];
              written := written (eng_state e);
              applied := applied (eng_state e) |};
         eng_suspended := eng_suspended e;
         eng_ended :=
           eng_ended e ++ [(id, Throw (usage_error (received_type bad)))] |}).
  { unfold e1. cbn [step]. by rewrite apiInvoke_begin_throw. }
  assert (Hinv : leak_inv id p bound (callbackFunctionMap (eng_state e1)) e1).
  { rewrite He1. repeat split; cbn [eng_state eng_suspended]; unfold_set.
    - lia.
    - unfold p. by rewrite lookup_app_r, Nat.sub_diag.
    - intros k o. rewrite lookup_register_slots. case_decide.
      + destruct (functions_of pre !! _); [|done]. by intros [= <-].
      + destruct (decide (k = id)) as [->|Hne]; [done|].
        rewrite lookup_insert_ne by done. intros Hk Hp.
        pose proof (Ht _ _ _ Hk Hp). unfold p in *. lia.
    - intros i inv ph Hi k Hk. left. destruct (Hs _ _ _ Hi) as [_ Hkeys].
      by apply Hkeys. }
  assert (Hlt : (id < bound)%Z) by (unfold bound; lia).
  pose proof (leak_inv_run id p bound _ evs e1 Hlt Hinv Hquiet)
    as (Hb2 & Hk2 & Hp2 & Hu2 & Hs2).
  fold e2 in Hb2, Hk2, Hp2, Hu2, Hs2.
  assert (Hid : callbackFunctionMap (eng_state e2) !! id = Some (waiter id p)).
  { rewrite Hk2 by lia. rewrite He1. cbn [eng_state]. unfold_set.
    rewrite lookup_register_slots, decide_False by lia. apply lookup_insert_eq. }
  split; [by rewrite He1|]. split; [by rewrite He1|]. split; [exact Hid|].
  split; [|split; [exact Hp2|]].
  - intros i f Hi. pose proof (lookup_lt_Some _ _ _ Hi).
    rewrite Hk2 by (unfold bound; lia). rewrite He1. cbn [eng_state]. unfold_set.
    rewrite lookup_register_slots, decide_True by lia.
    replace (Z.to_nat (id + 1 + Z.of_nat i - (id + 1))) with i by lia.
    by rewrite Hi.
  - intros error. cbn [step eng_state]. unfold reject. split; [done|].
    rewrite (reject_all_referenced error _ id (waiter id p) p Hid eq_refl).
    by rewrite Hp2.
Qed.

Lemma local_failure_leaks_entries_witness :
  engine_wf engine_init
  /\ Forall is_async (functions_of [ArgFunction async_fn])
  /\ ~ is_async plain_fn
  /\ @quiet_trace toy_packr (seqZ 0 (0 + 1 + 1 - 0)) leaky_engine later_events
  /\ callbackFunctionMap (eng_state (@run toy_packr leaky_engine later_events)) !! 0%Z
     = Some (waiter 0 0)
  /\ callbackFunctionMap (eng_state (@run toy_packr leaky_engine later_events)) !! 1%Z
     = Some (slot 1 async_fn)
  /\ promises (eng_state (@run toy_packr leaky_engine later_events)) !! 0
     = Some Pending
  /\ eng_ended (@run toy_packr leaky_engine later_events)
     = [(0%Z, Throw (usage_error "Function")); (2%Z, Ok (VStr "hello x"))].
Proof.
  pose (e1 := leaky_engine).
  assert (Hpre : Forall is_async (functions_of [ArgFunction async_fn]))
    by (by repeat constructor).
  assert (Hbad : ~ is_async plain_fn) by done.
  assert (Hq : @quiet_trace toy_packr (seqZ 0 (0 + 1 + 1 - 0)) e1 later_events).
  { cbn [quiet_trace later_events quiet].
    split; [done|]. split; [done|]. split; [|done].
    eexists _, _. split; [vm_compute; reflexivity|].
    split; [vm_compute; reflexivity|].
    intros id Hid. apply elem_of_seqZ in Hid. intros [= Heq]. lia. }
  refine (conj engine_wf_init (conj Hpre (conj Hbad (conj Hq _)))).
  destruct (@local_failure_leaks_entries toy_packr engine_init "progress"
              [ArgFunction async_fn] [] plain_fn later_events
              engine_wf_init Hpre Hbad Hq)
    as (_ & _ & Hid & Hslots & Hp & _).
  split; [exact Hid|]. split; [exact (Hslots 0 async_fn eq_refl)|].
  split; [exact Hp|]. vm_compute. reflexivity.
Defined.

(** ** The reconnect loop *)





(* ===================================================================== *)
(** * Part III: more of the library                                       *)
(* ===================================================================== *)

(** ** Reading and writing numbers *)

Lemma le32_mod v : le32 (v mod 2 ^ 32) = le32 v.
Proof.
  assert (Hk : forall k, (0 <= k <= 24)%Z ->
    Js.to_u8 ((v mod 2 ^ 32) / 2 ^ k) = Js.to_u8 (v / 2 ^ k)).
  { intros k Hk. rewrite <- (to_u8_mod (_ / _)), <- (to_u8_mod (v / _)). f_equal.
    rewrite (Z.div_mod v (2 ^ 32)) at 2 by lia.
    assert (2 ^ 32 = 2 ^ (32 - k) * 2 ^ k)%Z as Hp.
    { rewrite <- Z.pow_add_r by lia. f_equal. lia. }
    rewrite Hp at 2.
    replace (2 ^ (32 - k) * 2 ^ k * (v / 2 ^ 32) + v mod 2 ^ 32)%Z
      with (v mod 2 ^ 32 + (2 ^ (32 - k) * (v / 2 ^ 32)) * 2 ^ k)%Z by lia.
    rewrite Z.div_add by lia.
    assert (2 ^ (32 - k) = 2 ^ (24 - k) * 2 ^ 8)%Z as ->.
    { rewrite <- Z.pow_add_r by lia. f_equal. lia. }
    replace (v mod 2 ^ 32 / 2 ^ k + 2 ^ (24 - k) * 2 ^ 8 * (v / 2 ^ 32))%Z
      with (v mod 2 ^ 32 / 2 ^ k + (2 ^ (24 - k) * (v / 2 ^ 32)) * 2 ^ 8)%Z by lia.
    by rewrite Z.mod_add by lia. }
  unfold le32. rewrite (Hk 8%Z), (Hk 16%Z), (Hk 24%Z) by lia.
  f_equal. specialize (Hk 0%Z). rewrite !Z.pow_0_r, !Z.div_1_r in Hk. apply Hk. lia.
Qed.

Lemma writeUInt32LE_at pre a b c d post value :
  writeUInt32LE (pre ++ a :: b :: c :: d :: post) value (length pre)
  = Ok (pre ++ le32 value ++ post).
Proof.
  unfold writeUInt32LE. rewrite length_app. cbn [length].
  destruct (Nat.ltb_spec (length pre + S (S (S (S (length post))))) (length pre + 4));
    [lia|]. f_equal.
  rewrite !sar_and_255, !and_255, !to_u8_mod by lia.
  rewrite !insert_app_r_alt by lia.
  replace (length pre + 3 - length pre) with 3 by lia.
  replace (length pre + 2 - length pre) with 2 by lia.
  replace (length pre + 1 - length pre) with 1 by lia.
  rewrite Nat.sub_diag. reflexivity.
Qed.

(** The four stores of [writeUInt32LE] put the little-endian bytes of
    the value at [offset]. *)
Lemma writeUInt32LE_spec buffer value offset :
  offset + 4 <= length buffer ->
  writeUInt32LE buffer value offset
  = Ok (take offset buffer ++ le32 value ++ drop (offset + 4) buffer).
Proof.
  intros Hb.
  assert (Hlen : length (take offset buffer) = offset) by (rewrite length_take; lia).
  destruct (drop offset buffer) as [|a [|b [|c [|d post]]]] eqn:Hd;
    try (apply (f_equal length) in Hd; rewrite length_drop in Hd; cbn in Hd; lia).
  assert (Hpost : drop (offset + 4) buffer = post).
  { by rewrite <- drop_drop, Hd. }
  pose proof (writeUInt32LE_at (take offset buffer) a b c d post value) as Hw.
  rewrite Hlen, <- Hd, take_drop in Hw. by rewrite Hw, Hpost.
Qed.

(** The bytes [readUInt32LE] reads are the little-endian bytes of the
    number it returns. *)
Lemma readUInt32LE_bytes buffer offset v :
  readUInt32LE buffer offset = Ok v ->
  (0 <= v < 2 ^ 32)%Z
  /\ offset + 4 <= length buffer
  /\ take 4 (drop offset buffer) = le32 v.
Proof.
  intros Hr.
  assert (Hb : offset + 4 <= length buffer).
  { unfold readUInt32LE in Hr.
    destruct (Nat.ltb_spec (length buffer) (offset + 4)); [done|lia]. }
  assert (Hlen : length (take offset buffer) = offset) by (rewrite length_take; lia).
  destruct (drop offset buffer) as [|a [|b [|c [|d post]]]] eqn:Hd;
    try (apply (f_equal length) in Hd; rewrite length_drop in Hd; cbn in Hd; lia).
  pose proof (readUInt32LE_at (take offset buffer) a b c d post) as Hat.
  rewrite Hlen, <- Hd, take_drop in Hat. rewrite Hat in Hr. injection Hr as <-.
  pose proof (u8_range a). pose proof (u8_range b).
  pose proof (u8_range c). pose proof (u8_range d).
  split; [lia|]. split; [done|]. cbn [take]. unfold le32.
  set (v := (Js.u8 a + Js.u8 b * 2 ^ 8 + Js.u8 c * 2 ^ 16 + Js.u8 d * 2 ^ 24)%Z).
  assert (Hb0 : (v mod 256 = Js.u8 a)%Z).
  { unfold v.
    replace (Js.u8 a + Js.u8 b * 2 ^ 8 + Js.u8 c * 2 ^ 16 + Js.u8 d * 2 ^ 24)%Z
      with (Js.u8 a + (Js.u8 b + Js.u8 c * 2 ^ 8 + Js.u8 d * 2 ^ 16) * 256)%Z by lia.
    rewrite Z.mod_add by lia. apply Z.mod_small. lia. }
  assert (Hb1 : ((v / 2 ^ 8) mod 256 = Js.u8 b)%Z).
  { unfold v.
    replace (Js.u8 a + Js.u8 b * 2 ^ 8 + Js.u8 c * 2 ^ 16 + Js.u8 d * 2 ^ 24)%Z
      with (Js.u8 a + (Js.u8 b + (Js.u8 c + Js.u8 d * 2 ^ 8) * 256) * 2 ^ 8)%Z by lia.
    rewrite Z.div_add, (Z.div_small (Js.u8 a)) by lia.
    rewrite Z.add_0_l, Z.mod_add by lia. apply Z.mod_small. lia. }
  assert (Hb2 : ((v / 2 ^ 16) mod 256 = Js.u8 c)%Z).
  { unfold v.
    replace (Js.u8 a + Js.u8 b * 2 ^ 8 + Js.u8 c * 2 ^ 16 + Js.u8 d * 2 ^ 24)%Z
      with (Js.u8 a + Js.u8 b * 2 ^ 8 + (Js.u8 c + Js.u8 d * 256) * 2 ^ 16)%Z by lia.
    rewrite Z.div_add, (Z.div_small (_ + _)) by lia.
    rewrite Z.add_0_l, Z.mod_add by lia. apply Z.mod_small. lia. }
  assert (Hb3 : ((v / 2 ^ 24) mod 256 = Js.u8 d)%Z).
  { unfold v.
    replace (Js.u8 a + Js.u8 b * 2 ^ 8 + Js.u8 c * 2 ^ 16 + Js.u8 d * 2 ^ 24)%Z
      with (Js.u8 a + Js.u8 b * 2 ^ 8 + Js.u8 c * 2 ^ 16 + Js.u8 d * 2 ^ 24)%Z by lia.
    rewrite Z.div_add, (Z.div_small (_ + _)) by lia.
    rewrite Z.add_0_l. apply Z.mod_small. lia. }
  rewrite <- (to_u8_mod v), <- (to_u8_mod (v / 2 ^ 8)), <- (to_u8_mod (v / 2 ^ 16)),
    <- (to_u8_mod (v / 2 ^ 24)).
  by rewrite Hb0, Hb1, Hb2, Hb3, !to_u8_u8.
Qed.

(** [X1] A number written by [writeUInt32LE] at an offset where four
    bytes fit is read back by [readUInt32LE] at that offset, reduced
    modulo 2^32; the write keeps the length of the buffer and changes no
    byte outside the four. *)
Theorem readUInt32LE_after_writeUInt32LE (buffer : Uint8Array) (value : Z)
    (offset : nat) :
  offset + 4 <= length buffer ->
  exists written,
    writeUInt32LE buffer value offset = Ok written
    /\ length written = length buffer
    /\ readUInt32LE written offset = Ok (value mod 2 ^ 32)%Z
    /\ forall i, i < offset \/ offset + 4 <= i -> written !! i = buffer !! i.
Proof.
  intros Hb. eexists. split; [by apply writeUInt32LE_spec|].
  assert (Hlen : length (take offset buffer) = offset) by (rewrite length_take; lia).
  split; [|split].
  - rewrite !length_app, length_le32, Hlen, length_drop. lia.
  - pose proof (readUInt32LE_le32 (take offset buffer) (value mod 2 ^ 32)
                  (drop (offset + 4) buffer)) as Hr.
    rewrite Hlen, le32_mod in Hr. apply Hr. apply Z.mod_pos_bound. lia.
  - intros i [Hi|Hi].
    + rewrite lookup_app_l by lia. by rewrite lookup_take_lt.
    + rewrite lookup_app_r by lia. rewrite lookup_app_r by (rewrite length_le32; lia).
      rewrite lookup_drop, Hlen, length_le32. f_equal. lia.
Qed.

Lemma readUInt32LE_after_writeUInt32LE_witness :
  2 + 4 <= length (replicate 8 xff)
  /\ writeUInt32LE (replicate 8 xff) (-2) 2
     = Ok [xff; xff; xfe; xff; xff; xff; xff; xff]
  /\ readUInt32LE [xff; xff; xfe; xff; xff; xff; xff; xff] 2 = Ok 4294967294%Z.
Proof.
  assert (Hb : 2 + 4 <= length (replicate 8 xff)) by (cbn; lia).
  destruct (readUInt32LE_after_writeUInt32LE (replicate 8 xff) (-2) 2 Hb)
    as (written & Hw & _ & Hr & _).
  assert (Hbytes : written = [xff; xff; xfe; xff; xff; xff; xff; xff]).
  { vm_compute in Hw. by injection Hw as <-. }
  split; [exact Hb|]. rewrite <- Hbytes. split; [exact Hw|exact Hr].
Defined.

(** ** Concatenation and framing *)

(** [X3] [Uint8Array_concat] never throws: each [set] stays inside the
    result buffer, and the result is the bytes of the buffers in order,
    as many as their lengths add up to. *)
Theorem Uint8Array_concat_in_order (buffers : list Uint8Array) :
  Uint8Array_concat buffers = Ok (concat buffers)
  /\ length (concat buffers) = sum_list (length <$> buffers)
  /\ forall before buffer after,
       buffers = before ++ buffer :: after ->
       take (length buffer) (drop (length (concat before)) (concat buffers)) = buffer.
Proof.
  split; [apply Uint8Array_concat_ok|]. split.
  - induction buffers as [|b bs IH]; [done|].
    cbn [concat fmap list_fmap sum_list]. rewrite length_app. cbn. by rewrite <- IH.
  - intros before buffer after ->. rewrite concat_app. cbn [concat].
    by rewrite drop_app_length, take_app_length.
Qed.

Section Framing.
Context `{SubtleCrypto}.
Implicit Types (key : option CryptoKey) (iv : option Uint8Array).

Lemma plain_frame_eq data : frame None None data = plain_frame data.
Proof. done. Qed.

Lemma readUInt32LE_ok buffer offset :
  offset + 4 <= length buffer -> exists v, readUInt32LE buffer offset = Ok v.
Proof.
  intros Hb. unfold readUInt32LE.
  destruct (Nat.ltb_spec (length buffer) (offset + 4)); [lia|]. by eexists.
Qed.


(** Without a key the loop never throws, and what it has not returned as
    records is still there: the frames of the new records followed by the
    rest make up the buffer from [offset] on. *)
Lemma parseBufferData_loop_plain fuel : forall buffer queue offset,
  offset <= length buffer ->
  length buffer - offset < 8 * fuel ->
  exists new rest console,
    parseBufferData_loop fuel buffer None None queue offset
    = Some (Ok {| pr_queue := queue ++ new;
                  pr_remain := match console with Some _ => [] | None => rest end;
                  pr_console := console |})
    /\ drop offset buffer = concat (map plain_frame new) ++ rest.
Proof.
  induction fuel as [|fuel IH]; intros buffer queue offset Ho Hf; [lia|].
  cbn [parseBufferData_loop].
  destruct (Nat.ltb_spec offset (length buffer)); cbn [negb].
  2:{ exists [], [], None. rewrite app_nil_r. split; [done|].
      by rewrite drop_ge by lia. }
  destruct (Nat.ltb_spec (length buffer) (offset + 8)).
  { exists [], (drop offset buffer), None. by rewrite app_nil_r. }
  destruct (readUInt32LE_ok buffer offset) as [len Hlen]; [lia|].
  destruct (readUInt32LE_ok buffer (offset + 4)) as [magic Hmagic]; [lia|].
  rewrite Hlen, Hmagic.
  destruct (Nat.ltb_spec (length buffer) (offset + 4 + 4 + Z.to_nat len)).
  { exists [], (drop offset buffer), None. rewrite app_nil_r.
    by replace (offset + 4 + 4 - 8) with offset by lia. }
  destruct (Z.eqb_spec HEADER_CHECK magic) as [Heq|Hne]; cbn [negb].
  2:{ exists [], (drop offset buffer), (Some (len, magic)). by rewrite app_nil_r. }
  subst magic. unfold decrypt. cbn [JS_RPC_WITH_CRYPTO negb].
  set (data := subarray buffer (offset + 4 + 4) (offset + 4 + 4 + Z.to_nat len)).
  destruct (IH buffer (queue ++ [data]) (offset + 4 + 4 + Z.to_nat len))
    as (new & rest & console & Hrun & Hrest); [lia|lia|].
  exists (data :: new), rest, console. rewrite Hrun, <- (assoc (++)).
  split; [done|].
  apply readUInt32LE_bytes in Hlen as (Hlr & _ & Hl4).
  apply readUInt32LE_bytes in Hmagic as (_ & _ & Hm4).
  assert (Hdlen : length data = Z.to_nat len).
  { unfold data, subarray. rewrite length_take, length_drop. lia. }
  cbn [map concat]. unfold plain_frame at 1. rewrite Hdlen, Z2Nat.id by lia.
  rewrite <- !(assoc (++)), <- Hrest, <- Hl4, <- Hm4.
  rewrite <- (take_drop 4 (drop offset buffer)) at 1. f_equal.
  rewrite drop_drop.
  rewrite <- (take_drop 4 (drop (offset + 4) buffer)) at 1. f_equal.
  rewrite drop_drop.
  rewrite <- (take_drop (Z.to_nat len) (drop (offset + 4 + 4) buffer)) at 1.
  unfold data, subarray.
  replace (offset + 4 + 4 + Z.to_nat len - (offset + 4 + 4)) with (Z.to_nat len) by lia.
  by rewrite drop_drop.
Qed.


End Framing.

(** [X4] [buildBufferData] frames record by record.  Without a key it
    never throws, and the buffer built is 8 bytes longer for each record
    than the records it frames.  With or without a key, when the buffers
    of two queues are built, the buffer built for the two queues one
    after the other is the two buffers one after the other, so that the
    frames of [createEncodeStream], built one record at a time, are those
    of the whole queue; a buffer built is 8 bytes longer for each record
    than the encrypted records it frames. *)
Theorem buildBufferData_appends `{SubtleCrypto} (key : option CryptoKey)
    (iv : option Uint8Array) (queue1 queue2 : list Uint8Array) :
  (exists buffer,
     buildBufferData queue1 None iv = Ok buffer
     /\ length buffer = sum_list ((fun data => 8 + length data) <$> queue1))
  /\ forall buffer1 buffer2,
       buildBufferData queue1 key iv = Ok buffer1 ->
       buildBufferData queue2 key iv = Ok buffer2 ->
       buildBufferData (queue1 ++ queue2) key iv = Ok (buffer1 ++ buffer2)
       /\ length buffer1
          = sum_list ((fun data => 8 + length (encrypt data key iv)) <$> queue1)
       /\ (forall encoded, createEncodeStream_run (key, iv) queue1 = Ok encoded ->
             concat encoded = buffer1).
Proof.
  assert (Hlen : forall key' (queue : list Uint8Array),
    length (concat (map (frame key' iv) queue))
    = sum_list ((fun data => 8 + length (encrypt data key' iv)) <$> queue)).
  { intros key' queue. induction queue as [|d q IH]; [done|].
    cbn [map concat]. by rewrite fmap_cons, length_app, length_frame, IH. }
  split.
  - eexists. rewrite buildBufferData_ok. split; [done|]. apply (Hlen None).
  - intros buffer1 buffer2. rewrite !buildBufferData_ok. intros [= <-] [= <-].
    split; [by rewrite map_app, concat_app|]. split; [apply Hlen|].
    intros encoded. rewrite createEncodeStream_run_ok. by intros [= <-].
Qed.

Lemma buildBufferData_appends_witness :
  @buildBufferData toy_crypto [[x01]; [x02; x03]] None None
  = Ok ([x01; x00; x00; x00; x5f; x70; xf7; xb1; x01]
        ++ [x02; x00; x00; x00; x5f; x70; xf7; xb1; x02; x03]).
Proof.
  apply (proj2 (@buildBufferData_appends toy_crypto None None [[x01]] [[x02; x03]]));
    reflexivity.
Defined.

(** [X5] Without a key, [parseBufferData] returns on every buffer and
    never throws, and no byte is lost: framing again the records it
    returns gives the beginning of the buffer; what follows is the carry it
    returns, unless it wrote the check error, in which case the carry is
    empty and what follows is dropped. *)
Theorem parseBufferData_keeps_bytes `{SubtleCrypto} (buffer : Uint8Array) :
  exists r rebuilt rest,
    parseBufferData buffer None None = Some (Ok r)
    /\ buildBufferData (pr_queue r) None None = Ok rebuilt
    /\ buffer = rebuilt ++ rest
    /\ (pr_console r = None -> pr_remain r = rest)
    /\ (pr_console r ≠ None -> pr_remain r = []).
Proof.
  destruct (parseBufferData_loop_plain (S (length buffer)) buffer [] 0)
    as (new & rest & console & Hrun & Hrest); [lia|lia|].
  eexists _, _, rest. split; [exact Hrun|]. cbn [pr_queue pr_remain pr_console app].
  split; [apply buildBufferData_ok|]. split; [exact Hrest|].
  by destruct console.
Qed.



(** ** The [processPackets] stream *)

Section Packets.
Context `{SubtleCrypto}.

Lemma parseBufferData_plain (buffer : Uint8Array) :
  exists new rest console,
    parseBufferData buffer None None
    = Some (Ok {| pr_queue := new;
                  pr_remain := match console with Some _ => [] | None => rest end;
                  pr_console := console |})
    /\ buffer = concat (map plain_frame new) ++ rest.
Proof.
  destruct (parseBufferData_loop_plain (S (length buffer)) buffer [] 0)
    as (new & rest & console & Hrun & Hrest); [lia|lia|].
  by exists new, rest, console.
Qed.

Lemma processPackets_transform_plain (last chunk : Uint8Array) :
  exists new rest console,
    processPackets_transform last chunk
    = Some (Ok (match console with Some _ => [] | None => rest end,
                match new with [] => None | _ => Some (concat (map plain_frame new)) end,
                console))
    /\ last ++ chunk = concat (map plain_frame new) ++ rest.
Proof.
  unfold processPackets_transform. rewrite Uint8Array_concat_ok.
  cbn [concat]. rewrite app_nil_r.
  destruct (parseBufferData_plain (last ++ chunk))
    as (new & rest & console & -> & Hrest).
  exists new, rest, console. split; [|done]. cbn [pr_queue pr_remain pr_console].
  destruct new as [|d new]; [done|].
  cbn [length Nat.ltb Nat.leb]. by rewrite buildBufferData_ok.
Qed.

End Packets.

(** [X7] The [processPackets] stream never errors, whatever the chunks:
    every buffer it enqueues is one or more whole frames, and as long as
    no check error is written, the buffers enqueued followed by the final
    carry are the bytes received, so that the stream only moves the chunk
    boundaries to frame boundaries. *)
Theorem processPackets_regroups `{SubtleCrypto} (last : Uint8Array)
    (chunks : list Uint8Array) :
  exists run final,
    processPackets_run last chunks = Some run
    /\ pk_end run = Ok final
    /\ length (pk_out run) <= length chunks
    /\ Forall (fun out => exists records,
                 records ≠ [] /\ out = concat (map plain_frame records))
         (pk_out run)
    /\ (pk_console run = [] ->
        concat (pk_out run) ++ final = last ++ concat chunks).
Proof.
  revert last. induction chunks as [|chunk chunks IH]; intros last.
  { eexists _, _. split; [done|]. cbn. split; [done|]. split; [done|].
    split; [done|]. by rewrite app_nil_r. }
  destruct (processPackets_transform_plain last chunk)
    as (new & rest & console & Hstep & Hbytes).
  cbn [processPackets_run]. rewrite Hstep.
  destruct (IH (match console with Some _ => [] | None => rest end))
    as (run & final & -> & Hend & Hlen & Hout & Hcat).
  eexists _, final. split; [done|]. cbn [pk_out pk_console pk_end].
  split; [done|]. split; [|split].
  - rewrite length_app. destruct new; cbn; lia.
  - apply Forall_app. split; [|done].
    destruct new as [|d new]; cbn [option_list]; [done|].
    apply Forall_singleton. by exists (d :: new).
  - destruct console as [line|]; [done|]. cbn [option_list app]. intros Hquiet.
    cbn [concat]. rewrite (assoc (++) last), Hbytes, <- (assoc (++)).
    rewrite <- Hcat by done. rewrite concat_app, <- (assoc (++)). f_equal.
    destruct new as [|d new]; [done|]. exact (app_nil_r _).
Qed.

(** ** Records the cipher rejects *)

Section Forged.
Context `{SubtleCrypto}.
Implicit Types (key : option CryptoKey) (iv : option Uint8Array).

(** The loop throws only what [decrypt] throws, on the payload of a whole
    frame whose check word is right. *)
Lemma parseBufferData_loop_throw fuel : forall buffer key iv queue offset e,
  parseBufferData_loop fuel buffer key iv queue offset = Some (Throw e) ->
  exists o len,
    readUInt32LE buffer o = Ok len
    /\ readUInt32LE buffer (o + 4) = Ok HEADER_CHECK
    /\ o + 8 + Z.to_nat len <= length buffer
    /\ decrypt (subarray buffer (o + 8) (o + 8 + Z.to_nat len)) key iv = Throw e.
Proof.
  induction fuel as [|fuel IH]; intros buffer key iv queue offset e; [done|].
  cbn [parseBufferData_loop].
  destruct (Nat.ltb_spec offset (length buffer)); cbn [negb]; [|done].
  destruct (Nat.ltb_spec (length buffer) (offset + 8)); [done|].
  destruct (readUInt32LE buffer offset) as [len|] eqn:Hlen.
  2:{ destruct (readUInt32LE_ok buffer offset) as [v Hv]; [lia|]. congruence. }
  destruct (readUInt32LE buffer (offset + 4)) as [magic|] eqn:Hmagic.
  2:{ destruct (readUInt32LE_ok buffer (offset + 4)) as [v Hv]; [lia|]. congruence. }
  destruct (Nat.ltb_spec (length buffer) (offset + 4 + 4 + Z.to_nat len)); [done|].
  destruct (Z.eqb_spec HEADER_CHECK magic) as [<-|]; cbn [negb]; [|done].
  destruct (decrypt _ key iv) as [buf|e'] eqn:Hdec.
  - apply IH.
  - intros [= ->]. exists offset, len.
    replace (offset + 8) with (offset + 4 + 4) by lia. done.
Qed.

(** A whole frame at [offset] whose payload [decrypt] rejects. *)
Lemma parseBufferData_loop_forged fuel pre key iv payload post queue e :
  (Z.of_nat (length payload) < 2 ^ 32)%Z ->
  decrypt payload key iv = Throw e ->
  parseBufferData_loop (S fuel) (pre ++ plain_frame payload ++ post) key iv queue
    (length pre)
  = Some (Throw e).
Proof.
  intros Hlen Hdec. unfold plain_frame. rewrite <- !(assoc (++)).
  set (n := Z.of_nat (length payload)).
  set (buffer := pre ++ le32 n ++ le32 HEADER_CHECK ++ payload ++ post).
  assert (Hblen : length buffer = length pre + 8 + length payload + length post).
  { unfold buffer. rewrite !length_app, !length_le32. lia. }
  assert (Hfirst : readUInt32LE buffer (length pre) = Ok n).
  { apply readUInt32LE_le32. lia. }
  assert (Hsecond : readUInt32LE buffer (length pre + 4) = Ok HEADER_CHECK).
  { unfold buffer. rewrite (assoc (++) pre).
    replace (length pre + 4) with (length (pre ++ le32 n))
      by (by rewrite length_app).
    by apply readUInt32LE_le32. }
  assert (Hdata : subarray buffer (length pre + 4 + 4)
                    (length pre + 4 + 4 + Z.to_nat n) = payload).
  { unfold subarray, buffer, n. rewrite Nat2Z.id.
    replace (length pre + 4 + 4 + length payload - (length pre + 4 + 4))
      with (length payload) by lia.
    rewrite (assoc (++) pre), (assoc (++) (pre ++ _)).
    replace (length pre + 4 + 4)
      with (length ((pre ++ le32 (Z.of_nat (length payload))) ++ le32 HEADER_CHECK))
      by (rewrite !length_app, !length_le32; lia).
    by rewrite drop_app_length, take_app_length. }
  cbn [parseBufferData_loop]. rewrite Hfirst, Hsecond, Hdata, Hdec, Hblen.
  unfold n. rewrite Nat2Z.id.
  repeat match goal with
  | |- context [?a <? ?b] =>
      destruct (Nat.ltb_spec a b); try lia; cbn [negb]
  end.
  done.
Qed.

Section WithCipherLaw.
Hypothesis subtle_decrypt_encrypt :
  forall p k d, subtle_decrypt p k (subtle_encrypt p k d) = Ok d.

Lemma parseBufferData_loop_frames_forged (records : list Uint8Array) :
  forall fuel pre key iv payload post queue e,
  length records < fuel ->
  Forall (fits key iv) records ->
  (Z.of_nat (length payload) < 2 ^ 32)%Z ->
  decrypt payload key iv = Throw e ->
  parseBufferData_loop fuel
    (pre ++ concat (map (frame key iv) records) ++ plain_frame payload ++ post)
    key iv queue (length pre)
  = Some (Throw e).
Proof.
  induction records as [|r rs IH];
    intros fuel pre key iv payload post queue e Hfuel Hfit Hlen Hdec;
    (destruct fuel as [|fuel]; [cbn in Hfuel; lia|]).
  - cbn [map concat app]. by apply parseBufferData_loop_forged.
  - apply Forall_cons in Hfit as [Hr Hrs].
    cbn [map concat]. rewrite <- (assoc (++)).
    rewrite parseBufferData_loop_frame by done.
    rewrite <- length_app, (assoc (++) pre).
    apply IH; [cbn in Hfuel; lia|done..].
Qed.

End WithCipherLaw.
End Forged.

(** [X8] [parseBufferData] returns on every buffer, and when it throws
    there is a key and the error is the one the cipher threw on the
    payload of a whole frame with the right check word: the frame layout
    itself never makes it throw. *)
Theorem parseBufferData_throws_only_from_decrypt `{SubtleCrypto}
    (buffer : Uint8Array) (key : option CryptoKey) (iv : option Uint8Array) :
  is_Some (parseBufferData buffer key iv)
  /\ forall e,
       parseBufferData buffer key iv = Some (Throw e) ->
       exists k offset payload,
         key = Some k
         /\ take (8 + length payload) (drop offset buffer) = plain_frame payload
         /\ subtle_decrypt {| gcm_name := "AES-GCM"; gcm_iv := iv |} k payload
            = Throw e.
Proof.
  split; [apply parseBufferData_total|]. intros e Hthrow.
  apply parseBufferData_loop_throw in Hthrow as (o & len & Hlen & Hmagic & Hb & Hdec).
  apply readUInt32LE_bytes in Hlen as (Hlr & _ & Hl4).
  apply readUInt32LE_bytes in Hmagic as (_ & _ & Hm4).
  destruct key as [k|]; [|done].
  exists k, o, (subarray buffer (o + 8) (o + 8 + Z.to_nat len)).
  split; [done|]. split; [|exact Hdec].
  assert (Hplen : length (subarray buffer (o + 8) (o + 8 + Z.to_nat len))
                  = Z.to_nat len).
  { unfold subarray. rewrite length_take, length_drop. lia. }
  unfold plain_frame. rewrite Hplen, Z2Nat.id by lia.
  rewrite <- Hl4, <- Hm4. unfold subarray.
  replace (o + 8 + Z.to_nat len - (o + 8)) with (Z.to_nat len) by lia.
  replace (8 + Z.to_nat len) with (4 + (4 + Z.to_nat len)) by lia.
  rewrite <- !take_take_drop, !drop_drop.
  by replace (o + 4 + 4) with (o + 8) by lia.
Qed.

(** [X9] A record the cipher rejects takes with it the records before it
    in the same call: when the carry and the chunk together are whole
    frames of good records followed by a frame whose payload [decrypt]
    throws on, [transform] of the decode stream throws before it has
    enqueued anything, so the stream delivers none of these records, is
    errored with the error of the cipher, and sees no later chunk. *)
Theorem forged_record_stops_decode_stream `{SubtleCrypto}
    (key : option CryptoKey) (iv : option Uint8Array)
    (records : list Uint8Array) (payload rest last chunk : Uint8Array)
    (later : list Uint8Array) (e : exn) :
  (forall p k d, subtle_decrypt p k (subtle_encrypt p k d) = Ok d) ->
  Forall (fits key iv) records ->
  (Z.of_nat (length payload) < 2 ^ 32)%Z ->
  decrypt payload key iv = Throw e ->
  last ++ chunk = concat (map (frame key iv) records) ++ plain_frame payload ++ rest ->
  parseBufferData (last ++ chunk) key iv = Some (Throw e)
  /\ createDecodeStream_run (key, iv) last (chunk :: later) = Some ([], Throw e).
Proof.
  intros Hlaw Hfit Hlen Hdec Hbytes.
  assert (Hparse : parseBufferData (last ++ chunk) key iv = Some (Throw e)).
  { unfold parseBufferData. rewrite Hbytes.
    apply (parseBufferData_loop_frames_forged Hlaw records _ []); [|done..].
    rewrite !length_app. pose proof (length_frames key iv records). lia. }
  split; [done|].
  cbn [createDecodeStream_run createDecodeStream_transform].
  rewrite Uint8Array_concat_ok. cbn [concat]. by rewrite app_nil_r, Hparse.
Qed.

Lemma forged_record_stops_decode_stream_witness :
  @createDecodeStream_run toy_crypto toy_key_iv [x10; x00; x00]
    (([x00; x5f; x70; xf7; xb1] ++ replicate 16 x20
      ++ [x01; x00; x00; x00; x5f; x70; xf7; xb1; x03; x09])
     :: [[x10; x00; x00; x00; x5f; x70; xf7; xb1] ++ replicate 16 x20])
  = Some ([], Throw OperationError).
Proof.
  refine (proj2 (@forged_record_stops_decode_stream toy_crypto
    (Some (TextEncoder_encode "ab")) (Some (replicate 32 x00)) [[]] [x03] [x09]
    [x10; x00; x00] _ _ OperationError toy_decrypt_encrypt _ _ _ _)).
  - repeat constructor. 
  - done.
  - reflexivity.
  - reflexivity.
Defined.

(** ** More of the inbound handler *)

Lemma callback_args_items (items : list (value * value)) :
  callback_args (VArr (map (fun td => arg_item td.1 td.2) items))
  = Ok (map snd items).
Proof.
  cbn [callback_args]. induction items as [|[t d] items IH]; [done|].
  cbn [map JsValue.map_result]. rewrite IH. reflexivity.
Qed.

Lemma foldl_delete_empty (keys : list Z) :
  foldl (fun m key => delete key m) (∅ : gmap Z CALLBACK_ITEM) keys = ∅.
Proof.
  apply map_eq. intros k. rewrite lookup_foldl_delete, lookup_empty. by case_decide.
Qed.

Section HandlerCases.
Context `{Packr}.

Lemma onmessage_unknown buffer data st :
  parseRpcData buffer = Ok data ->
  map_get (callbackFunctionMap st) (rpc_id data) = None ->
  onmessage buffer st = st.
Proof.
  intros Hparse Hget. unfold onmessage. by rewrite onmessage_try_eval, Hparse, Hget.
Qed.

Lemma onmessage_return buffer n v o p st :
  parseRpcData buffer
  = Ok {| rpc_id := VNum n; rpc_type := VNum RPC_TYPE_RETURN; rpc_data := v |} ->
  callbackFunctionMap st !! n = Some o ->
  item_promise o = Some p ->
  onmessage buffer st
  = set_promises (settle p (Fulfilled v) (promises st))
      (set_callbackFunctionMap (delete n (callbackFunctionMap st)) st).
Proof.
  intros Hparse Ho Hp. unfold onmessage. rewrite onmessage_try_eval, Hparse.
  cbn [rpc_id map_get]. rewrite Ho.
  by rewrite (onmessage_found_return _ _ o p n).
Qed.

Lemma onmessage_error buffer n err o p message stack remote st :
  parseRpcData buffer
  = Ok {| rpc_id := VNum n; rpc_type := VNum RPC_TYPE_ERROR; rpc_data := err |} ->
  callbackFunctionMap st !! n = Some o ->
  item_promise o = Some p ->
  JsValue.get err "message" = Ok message ->
  JsValue.get err "stack" = Ok stack ->
  new_RPCError message stack = Ok remote ->
  onmessage buffer st
  = set_promises (settle p (Rejected remote) (promises st)) st.
Proof.
  intros Hparse Ho Hp Hm Hs Hr. unfold onmessage. rewrite onmessage_try_eval, Hparse.
  cbn [rpc_id map_get]. rewrite Ho.
  by rewrite (onmessage_found_error _ _ o p message stack remote).
Qed.

(** An ERROR record whose message [RPCError] cannot convert: the
    constructor throws, and the [catch] fails every pending call. *)
Lemma onmessage_error_unconverted buffer n err o p message stack e st :
  parseRpcData buffer
  = Ok {| rpc_id := VNum n; rpc_type := VNum RPC_TYPE_ERROR; rpc_data := err |} ->
  callbackFunctionMap st !! n = Some o ->
  item_promise o = Some p ->
  JsValue.get err "message" = Ok message ->
  JsValue.get err "stack" = Ok stack ->
  new_RPCError message stack = Throw e ->
  onmessage buffer st = reject_all e st.
Proof.
  intros Hparse Ho Hp Hm Hs Hr. unfold onmessage. rewrite onmessage_try_eval, Hparse.
  cbn [rpc_id map_get]. rewrite Ho.
  unfold onmessage_found, reject_with_remote_error.
  cbn [rpc_type rpc_data JsValue.loose_eq_num]. rewrite Hp, Hm, Hs.
  change (RPC_TYPE_ERROR =? RPC_TYPE_ERROR)%Z with true.
  unfold_M. by rewrite Hr.
Qed.

Lemma onmessage_callback buffer key (items : list (value * value)) o f st :
  parseRpcData buffer
  = Ok {| rpc_id := VNum key; rpc_type := VNum RPC_TYPE_CALLBACK;
          rpc_data := VArr (map (fun td => arg_item td.1 td.2) items) |} ->
  callbackFunctionMap st !! key = Some o ->
  item_callback o = Some f ->
  onmessage buffer st = set_applied (applied st ++ [(f, map snd items)]) st.
Proof.
  intros Hparse Ho Hf. unfold onmessage. rewrite onmessage_try_eval, Hparse.
  cbn [rpc_id rpc_data map_get]. rewrite Ho.
  unfold onmessage_found. cbn [rpc_type rpc_data JsValue.loose_eq_num].
  change (RPC_TYPE_CALLBACK =? RPC_TYPE_ERROR)%Z with false.
  change (RPC_TYPE_CALLBACK =? RPC_TYPE_RETURN)%Z with false.
  change (RPC_TYPE_CALLBACK =? RPC_TYPE_CALLBACK)%Z with true.
  rewrite callback_args_items. unfold apply_callback. rewrite Hf. by unfold_M.
Qed.

End HandlerCases.

(** [X10] Once the RETURN record of a call has been handled, a later
    record that bears the same id (a second RETURN, an ERROR, a CALLBACK)
    is dropped: the handler changes nothing, so a call is settled by the
    first RETURN that reaches it. *)
Theorem late_record_is_dropped `{Packr} (st : client_state) (buffer : Uint8Array)
    (n : Z) (v : value) (o : CALLBACK_ITEM) (p : nat) :
  parseRpcData buffer
  = Ok {| rpc_id := VNum n; rpc_type := VNum RPC_TYPE_RETURN; rpc_data := v |} ->
  callbackFunctionMap st !! n = Some o ->
  item_promise o = Some p ->
  callbackFunctionMap (onmessage buffer st) = delete n (callbackFunctionMap st)
  /\ promises (onmessage buffer st) = settle p (Fulfilled v) (promises st)
  /\ forall later data,
       parseRpcData later = Ok data ->
       rpc_id data = VNum n ->
       onmessage later (onmessage buffer st) = onmessage buffer st.
Proof.
  intros Hparse Ho Hp. rewrite (onmessage_return buffer n v o p) by done.
  split; [done|]. split; [done|].
  intros later data Hlater Hid. apply (onmessage_unknown later data); [done|].
  rewrite Hid. cbn [map_get]. unfold_set. apply lookup_delete_eq.
Qed.

Lemma late_record_is_dropped_witness :
  @onmessage toy_packr error_record (@onmessage toy_packr return_record one_call)
  = @onmessage toy_packr return_record one_call.
Proof.
  destruct one_call_state as [Htable _].
  assert (Ho : callbackFunctionMap one_call !! 0%Z = Some (waiter 0 0)).
  { rewrite Htable. apply lookup_singleton_eq. }
  destruct (@late_record_is_dropped toy_packr one_call return_record 0 (VStr "done")
              (waiter 0 0) 0 parse_return_record Ho eq_refl) as (_ & _ & Hlate).
  exact (Hlate error_record _ parse_error_record eq_refl).
Defined.

(** [X11] A CALLBACK record whose id names an entry with a callback
    calls that callback once, with the payloads of the items in order,
    whatever the types of the items say; the entry stays in the table, and
    nothing is written and no promise is touched, so the same callback can
    be called again by a later record. *)
Theorem callback_record_calls_slot `{Packr} (st : client_state)
    (buffer : Uint8Array) (key : Z) (items : list (value * value))
    (o : CALLBACK_ITEM) (f : js_function) :
  parseRpcData buffer
  = Ok {| rpc_id := VNum key; rpc_type := VNum RPC_TYPE_CALLBACK;
          rpc_data := VArr (map (fun td => arg_item td.1 td.2) items) |} ->
  callbackFunctionMap st !! key = Some o ->
  item_callback o = Some f ->
  onmessage buffer st = set_applied (applied st ++ [(f, map snd items)]) st
  /\ applied (onmessage buffer (onmessage buffer st))
     = applied st ++ [(f, map snd items); (f, map snd items)].
Proof.
  intros Hparse Ho Hf.
  rewrite !(onmessage_callback buffer key items o f) by done.
  split; [done|]. unfold_set. by rewrite <- (assoc (++)).
Qed.

Lemma callback_record_calls_slot_witness :
  applied (@onmessage toy_packr
             (@packr_pack toy_packr
                (VArr [VNum 1; VNum RPC_TYPE_CALLBACK;
                       VArr [VArr [VNum RPC_DATA_ARG_TYPE_OTHERS; VStr "progress 0"];
                             VArr [VNum RPC_DATA_ARG_TYPE_FUNCTION; VNum 5]]]))
             call_with_callback)
  = [(async_fn, [VStr "progress 0"; VNum 5])].
Proof.
  pose (buffer := @packr_pack toy_packr
    (VArr [VNum 1; VNum RPC_TYPE_CALLBACK;
           VArr [VArr [VNum RPC_DATA_ARG_TYPE_OTHERS; VStr "progress 0"];
                 VArr [VNum RPC_DATA_ARG_TYPE_FUNCTION; VNum 5]]])).
  assert (Hparse : @parseRpcData toy_packr buffer
    = Ok {| rpc_id := VNum 1; rpc_type := VNum RPC_TYPE_CALLBACK;
            rpc_data := VArr (map (fun td => arg_item td.1 td.2)
                                [(VNum RPC_DATA_ARG_TYPE_OTHERS, VStr "progress 0");
                                 (VNum RPC_DATA_ARG_TYPE_FUNCTION, VNum 5)]) |}).
  { unfold parseRpcData, buffer. by rewrite toy_unpack_pack. }
  assert (Ho : callbackFunctionMap call_with_callback !! 1%Z = Some (slot 1 async_fn)).
  { unfold call_with_callback.
    rewrite (@apiInvoke_begin_ok toy_packr "progress" [ArgFunction async_fn]
               client_init); [|by repeat constructor..].
    reflexivity. }
  destruct (@callback_record_calls_slot toy_packr call_with_callback buffer 1 _
              (slot 1 async_fn) async_fn Hparse Ho eq_refl) as [-> _].
  unfold call_with_callback.
  rewrite (@apiInvoke_begin_ok toy_packr "progress" [ArgFunction async_fn]
             client_init); [|by repeat constructor..].
  reflexivity.
Defined.

(** [X12] [reject(error)] empties the table and fails the calls that
    wait: an invocation whose waiter was in the table with a pending
    promise throws [error] when it is resumed.  A second [reject] changes
    nothing, and a record that [parseRpcData] throws on has the effect of
    [reject] with what it threw. *)
Theorem reject_fails_pending_calls `{Packr} (st : client_state) (error : exn)
    (inv : invocation) (o : CALLBACK_ITEM) :
  callbackFunctionMap st !! inv_id inv = Some o ->
  item_promise o = Some (inv_promise inv) ->
  promises st !! inv_promise inv = Some Pending ->
  callbackFunctionMap (reject error st) = ∅
  /\ (exists st',
        apiInvoke_resume inv (reject error st) = (st', Throw error)
        /\ callbackFunctionMap st' = ∅)
  /\ (forall error', reject error' (reject error st) = reject error st)
  /\ (forall buffer,
        parseRpcData buffer = Throw error -> onmessage buffer st = reject error st).
Proof.
  intros Ho Hp Hpending. split; [done|]. split; [|split].
  - unfold apiInvoke_resume, reject. unfold_M.
    rewrite (reject_all_referenced error st _ o _ Ho Hp), Hpending.
    cbn [fmap option_fmap option_map].
    eexists. split; [reflexivity|]. unfold_set. apply foldl_delete_empty.
  - intros error'. unfold reject. unfold reject_all at 1.
    rewrite reject_all_table, map_fold_empty.
    assert (Hsame : forall st', callbackFunctionMap st' = ∅ ->
      set_callbackFunctionMap ∅ (set_promises (promises st') st') = st').
    { intros [] Htable. cbn in Htable. by subst. }
    apply Hsame, reject_all_table.
  - intros buffer Hparse. unfold onmessage. by rewrite onmessage_try_eval, Hparse.
Qed.

Lemma reject_fails_pending_calls_witness :
  exists st',
    apiInvoke_resume {| inv_id := 0; inv_promise := 0; inv_keys := [] |}
      (reject (PlainError "closed") one_call)
    = (st', Throw (PlainError "closed"))
    /\ callbackFunctionMap st' = ∅.
Proof.
  destruct one_call_state as [Htable Hpromises].
  assert (Ho : callbackFunctionMap one_call !! 0%Z = Some (waiter 0 0)).
  { rewrite Htable. apply lookup_singleton_eq. }
  assert (Hpending : promises one_call !! 0 = Some Pending) by (by rewrite Hpromises).
  exact (proj1 (proj2 (@reject_fails_pending_calls toy_packr one_call
    (PlainError "closed") {| inv_id := 0; inv_promise := 0; inv_keys := [] |}
    (waiter 0 0) Ho eq_refl Hpending))).
Defined.

(** ** More of the engine over time *)

Lemma written_reject_all error st : written (reject_all error st) = written st.
Proof. done. Qed.

Section EngineMore.
Context `{Packr}.

Lemma onmessage_written buffer st : written (onmessage buffer st) = written st.
Proof.
  assert (Htry : forall st' r, onmessage_try buffer st = (st', r) ->
    written st' = written st).
  { intros st' r. rewrite onmessage_try_eval.
    destruct (parseRpcData buffer) as [data|e]; [|by intros [= <- <-]].
    destruct (rpc_id data) as [| | |n| | | |] eqn:Hn; cbn [map_get];
      try by intros [= <- <-].
    destruct (callbackFunctionMap st !! n) as [o|]; [|by intros [= <- <-]].
    intros Hf. by apply (onmessage_found_effect data _ o n Hn) in Hf as (_ & Hw & _). }
  unfold onmessage. destruct (onmessage_try buffer st) as [st' [[]|error]] eqn:E.
  - by eapply Htry.
  - rewrite written_reject_all. by eapply Htry.
Qed.

Lemma ids_below_init : ids_below engine_init.
Proof.
  split.
  - intros key o Hk. cbn in Hk. by rewrite lookup_empty in Hk.
  - intros id inv ph Hi. cbn in Hi. by rewrite lookup_empty in Hi.
Qed.

Lemma ids_below_finally e inv suspended ended :
  ids_below e ->
  (forall i inv' ph, suspended !! i = Some (inv', ph) ->
     exists ph', eng_suspended e !! i = Some (inv', ph')) ->
  ids_below
    {| eng_state :=
         set_callbackFunctionMap
           (foldl (fun m key => delete key m) (callbackFunctionMap (eng_state e))
              (inv_keys inv)) (eng_state e);
       eng_suspended := suspended; eng_ended := ended |}.
Proof.
  intros [Ht Hs] Hsub. split; cbn [eng_state eng_suspended]; unfold_set.
  - intros key o. rewrite lookup_foldl_delete. case_decide; [done|]. apply Ht.
  - intros i inv' ph Hi. destruct (Hsub _ _ _ Hi) as (ph' & Hi'). by eapply Hs.
Qed.

Lemma ids_below_step e ev : ids_below e -> ids_below (step e ev).
Proof.
  intros Hb. pose proof Hb as [Ht Hs].
  destruct ev as [fnName args|i|i error|i|buffer|error].
  - destruct (step_invoke e fnName args)
      as (fs & w & suspended & ended & gone & -> & Hgone & Hsusp).
    before_finally ids_below_finally; [|by eauto].
    split; cbn [eng_state eng_suspended]; unfold_set.
    + intros key o. rewrite lookup_register_slots. case_decide; [lia|].
      destruct (decide (key = uniqueKeyID (eng_state e))) as [->|Hne]; [lia|].
      rewrite lookup_insert_ne by done. intros Hk. apply Ht in Hk. lia.
    + intros i inv ph. destruct Hsusp as [->| ->]; [apply Hs|].
      destruct (decide (i = uniqueKeyID (eng_state e))) as [->|Hne].
      * rewrite lookup_insert_eq. by intros [= <- <-].
      * rewrite lookup_insert_ne by done. apply Hs.
  - cbn [step]. destruct (eng_suspended e !! i) as [[inv [|]]|] eqn:Hi; [|done..].
    split; cbn [eng_state eng_suspended]; [done|].
    intros i' inv' ph. destruct (decide (i' = i)) as [->|Hne].
    + rewrite lookup_insert_eq. intros [= <- <-]. by eapply Hs.
    + rewrite lookup_insert_ne by done. apply Hs.
  - cbn [step]. destruct (eng_suspended e !! i) as [[inv [|]]|] eqn:Hi; [|done..].
    unfold apiInvoke_write_rejected. unfold_M.
    apply ids_below_finally; [done|].
    intros i' inv' ph Hi'. apply lookup_delete_Some in Hi' as [_ Hi']. eauto.
  - cbn [step]. destruct (eng_suspended e !! i) as [[inv [|]]|] eqn:Hi; [done| |done].
    unfold apiInvoke_resume. unfold_M.
    destruct (promises (eng_state e) !! inv_promise inv) as [[|v|error]|]; [done| | |done].
    + apply ids_below_finally; [done|].
      intros i' inv' ph Hi'. apply lookup_delete_Some in Hi' as [_ Hi']. eauto.
    + apply ids_below_finally; [done|].
      intros i' inv' ph Hi'. apply lookup_delete_Some in Hi' as [_ Hi']. eauto.
  - cbn [step]. destruct (onmessage_frame buffer (eng_state e)) as (Hu & Hl & Hsub).
    split; cbn [eng_state eng_suspended]; [|done].
    intros key o Hk. rewrite Hu. eapply Ht. by apply Hsub.
  - cbn [step]. split; cbn [eng_state eng_suspended]; [|done].
    intros key o Hk. unfold reject in Hk.
    by rewrite reject_all_table, lookup_empty in Hk.
Qed.

Lemma ids_below_run evs : forall e, ids_below e -> ids_below (run e evs).
Proof.
  induction evs as [|ev evs IH]; intros e Hb; [done|].
  cbn [run foldl]. apply IH. by apply ids_below_step.
Qed.

Section WithSerializerLaw.
Hypothesis unpack_pack : forall v, packr_unpack (packr_pack v) = Ok v.

Lemma parse_call_buffer (id : Z) (argArray : list arg_array_item) :
  parseRpcData (call_buffer id argArray) = Ok (call_record id argArray).
Proof.
  destruct (roundtrip_items unpack_pack (VNum id) RPC_TYPE_CALL (map wire_item argArray))
    as (buffer & Hbuild & Hparse); [by left|].
  rewrite buildRpcData_call in Hbuild. injection Hbuild as <-.
  rewrite Hparse. unfold call_record. by rewrite map_map.
Qed.

End WithSerializerLaw.
End EngineMore.

(** [X13] Ids are never reused while they are in use.  In every state
    the engine reaches from its initial state, the call id and the
    callback keys a new invocation takes are all different, none of them
    is a key of the table, and none of them is the call id or a callback
    key of an invocation that is suspended: an invocation never
    overwrites the entry of another one, and its [finally] never deletes
    one. *)
Theorem call_ids_are_fresh `{Packr} (evs : list event) (fnName : string)
    (args : list js_arg) (st1 : client_state) (inv : invocation) :
  apiInvoke_begin fnName args (eng_state (run engine_init evs)) = (st1, Ok inv) ->
  NoDup (inv_id inv :: inv_keys inv)
  /\ (forall key, key ∈ inv_id inv :: inv_keys inv ->
        callbackFunctionMap (eng_state (run engine_init evs)) !! key = None
        /\ eng_suspended (run engine_init evs) !! key = None
        /\ forall i inv' ph,
             eng_suspended (run engine_init evs) !! i = Some (inv', ph) ->
             key ∉ inv_id inv' :: inv_keys inv').
Proof.
  intros Hbegin.
  pose proof (engine_wf_run evs engine_init engine_wf_init) as [Hwf _].
  pose proof (ids_below_run evs engine_init ids_below_init) as [Ht Hs].
  set (e := run engine_init evs) in *.
  destruct (apiInvoke_begin_inv _ _ _ _ _ Hbegin) as [Hargs Hret].
  rewrite apiInvoke_begin_ok in Hbegin by done.
  injection Hbegin as <- <-. cbn [inv_id inv_keys].
  assert (Hge : forall key,
    key ∈ uniqueKeyID (eng_state e)
          :: seqZ (uniqueKeyID (eng_state e) + 1)
               (Z.of_nat (length (functions_of args))) ->
    (uniqueKeyID (eng_state e) <= key)%Z).
  { intros key Hkey. apply elem_of_cons in Hkey as [->|Hkey]; [lia|].
    apply elem_of_seqZ in Hkey. lia. }
  split.
  - apply NoDup_cons. split; [|apply NoDup_seqZ].
    intros Hin. apply elem_of_seqZ in Hin. lia.
  - intros key Hkey. apply Hge in Hkey. split; [|split].
    + destruct (callbackFunctionMap (eng_state e) !! key) as [o|] eqn:Hk; [|done].
      apply Ht in Hk. lia.
    + destruct (eng_suspended e !! key) as [[inv' ph]|] eqn:Hk; [|done].
      pose proof (Hs _ _ _ Hk). destruct (Hwf _ _ _ Hk) as [Hid _]. lia.
    + intros i inv' ph Hi Hin. destruct (Hwf _ _ _ Hi) as [Hid Hkeys].
      apply elem_of_cons in Hin as [->|Hin]; [lia|]. apply Hkeys in Hin. lia.
Qed.

Lemma call_ids_are_fresh_witness :
  NoDup [3%Z; 4%Z]
  /\ forall key, key ∈ [3%Z; 4%Z] ->
       callbackFunctionMap (eng_state (@run toy_packr engine_init
         [EvInvoke "progress" [ArgFunction async_fn]; EvInvoke "hello" []])) !! key
       = None.
Proof.
  pose (evs := [EvInvoke "progress" [ArgFunction async_fn]; EvInvoke "hello" []]).
  assert (Hbegin :
    @apiInvoke_begin toy_packr "again" [ArgFunction async_fn]
      (eng_state (@run toy_packr engine_init evs))
    = ((@apiInvoke_begin toy_packr "again" [ArgFunction async_fn]
          (eng_state (@run toy_packr engine_init evs))).1,
       Ok {| inv_id := 3; inv_promise := 2; inv_keys := [4%Z] |})).
  { by vm_compute. }
  destruct (@call_ids_are_fresh toy_packr evs "again" [ArgFunction async_fn] _ _ Hbegin)
    as [Hnodup Hfresh].
  split; [exact Hnodup|]. intros key Hkey. by destruct (Hfresh key Hkey) as [Hk _].
Defined.

(** [X15] The client writes nothing but CALL messages, one for each
    invocation that gets as far as its write: an event either leaves the
    buffers written as they are, or it is an [apiInvoke] that is now
    suspended on its write and has written one buffer more, and with a
    serializer whose [unpack] undoes its [pack] that buffer parses as the
    CALL message that bears the call id, the function name as its first
    item and one item per argument.  Records received, [reject] and the
    end of an invocation write nothing. *)
Theorem client_writes_only_calls `{Packr} (e : engine) (ev : event) :
  (forall v, packr_unpack (packr_pack v) = Ok v) ->
  written (eng_state (step e ev)) = written (eng_state e)
  \/ exists fnName args buffer inv,
       ev = EvInvoke fnName args
       /\ written (eng_state (step e ev)) = written (eng_state e) ++ [buffer]
       /\ parseRpcData buffer
          = Ok (call_record (uniqueKeyID (eng_state e))
                  (ItemValue (VStr fnName)
                   :: arg_array_of args (uniqueKeyID (eng_state e) + 1)))
       /\ eng_suspended (step e ev) !! uniqueKeyID (eng_state e)
          = Some (inv, AwaitWrite)
       /\ inv_id inv = uniqueKeyID (eng_state e).
Proof.
  intros Hlaw. destruct ev as [fnName args|i|i error|i|buffer|error].
  - cbn [step].
    destruct (decide (Forall is_async (functions_of args))) as [Hargs|Hargs].
    + destruct (decide (callables_return args)) as [Hret|Hret].
      * right. rewrite apiInvoke_begin_ok by done.
        eexists fnName, args, _, _. split; [done|].
        cbn [eng_state eng_suspended written].
        split; [done|]. split; [by apply parse_call_buffer|].
        cbn [inv_id]. by rewrite lookup_insert_eq.
      * left.
        by destruct (apiInvoke_begin_called_throws fnName args (eng_state e)
                       Hargs Hret) as [e' ->].
    + left. destruct (not_all_async args Hargs) as (pre & bad & post & -> & Hpre & Hbad).
      by rewrite apiInvoke_begin_throw.
  - left. cbn [step]. by destruct (eng_suspended e !! i) as [[inv [|]]|].
  - left. cbn [step]. by destruct (eng_suspended e !! i) as [[inv [|]]|].
  - left. cbn [step]. destruct (eng_suspended e !! i) as [[inv [|]]|]; try done.
    unfold apiInvoke_resume. unfold_M.
    by destruct (promises (eng_state e) !! inv_promise inv) as [[|v|error]|].
  - left. apply onmessage_written.
  - left. done.
Qed.

Lemma client_writes_only_calls_witness :
  exists buffer,
    written (eng_state (@step toy_packr engine_init
                          (EvInvoke "hello" [ArgValue (VStr "x")])))
    = [buffer]
    /\ @parseRpcData toy_packr buffer
       = Ok (call_record 0 [ItemValue (VStr "hello"); ItemValue (VStr "x")]).
Proof.
  destruct (@client_writes_only_calls toy_packr engine_init
              (EvInvoke "hello" [ArgValue (VStr "x")]) toy_unpack_pack)
    as [Hsame|(fnName & args & buffer & inv & Hev & Hw & Hparse & _)].
  - exfalso. revert Hsame. by vm_compute.
  - injection Hev as <- <-. by exists buffer.
Defined.

(** ** Server engine *)

Lemma buildRpcItemData_values (args : list value) :
  buildRpcItemData (map ItemValue args)
  = Ok (VArr (map (fun td => arg_item td.1 td.2)
                (map (fun v => (VNum RPC_DATA_ARG_TYPE_OTHERS, v)) args))).
Proof.
  rewrite buildRpcItemData_ok.
  - by rewrite !map_map.
  - apply Forall_map, Forall_forall. by intros v _.
Qed.

(** [ToString] throws nothing but a [TypeError]. *)
Lemma ToString_throw `{Runtime} (v : value) e :
  ToString v = Throw e -> exists msg, e = TypeError msg.
Proof.
  revert e.
  induction v as [| |b|n|s|b|l IHl|fields IHf] using value_ind'; intros e; try done.
  - by destruct b.
  - cbn [ToString].
    match goal with
    | |- context [mbind _ (?elements l)] =>
        assert (Hel : forall e', elements l = Throw e' -> exists msg, e' = TypeError msg)
    end.
    { induction IHl as [|x l Hx _ IHl]; [done|]. intros e'.
      assert (Hpart : forall e'',
        match x with VUndefined | VNull => Ok EmptyString | _ => ToString x end
        = Throw e'' -> exists msg, e'' = TypeError msg).
      { intros e''. destruct x; try done; apply Hx. }
      destruct (match x with VUndefined | VNull => Ok EmptyString | _ => ToString x end)
        as [part|e''] eqn:Hp; cbn [mbind result_bind].
      - match goal with
        | |- context [mbind _ (?elements l)] =>
            destruct (elements l) as [parts|e3] eqn:Hl
        end; cbn [mbind result_bind]; [done|].
        intros [= <-]. by apply IHl.
      - intros [= <-]. by apply Hpart. }
    match goal with
    | |- context [mbind _ (?elements l)] =>
        destruct (elements l) as [parts|e'] eqn:Hl
    end; cbn [mbind result_bind]; [done|].
    intros [= <-]. by apply Hel.
  - cbn [ToString]. destruct (has_own _ _); [|done]. intros [= <-]. by eexists.
Qed.

Section ServerFacts.
Context `{Packr} `{Runtime}.

Lemma buildRpcData_callback key args :
  buildRpcData {| rpc_id := key; rpc_type := VNum RPC_TYPE_CALLBACK;
                  rpc_data :=
                    VArr (map (fun td => arg_item td.1 td.2)
                            (map (fun v => (VNum RPC_DATA_ARG_TYPE_OTHERS, v)) args)) |}
  = Ok (callback_buffer (key, args)).
Proof.
  unfold buildRpcData, callback_buffer.
  cbn [rpc_id rpc_type rpc_data JsValue.loose_eq_num fst snd].
  change (RPC_TYPE_CALLBACK =? RPC_TYPE_CALL)%Z with false.
  change (RPC_TYPE_CALLBACK =? RPC_TYPE_CALLBACK)%Z with true.
  cbn [orb JsValue.array_map]. rewrite build_items. cbn [mbind result_bind].
  by rewrite map_map.
Qed.

Lemma buildRpcData_return id ret :
  buildRpcData {| rpc_id := id; rpc_type := VNum RPC_TYPE_RETURN; rpc_data := ret |}
  = Ok (return_buffer id ret).
Proof. reflexivity. Qed.

Lemma buildRpcData_error id message stack :
  buildRpcData {| rpc_id := id; rpc_type := VNum RPC_TYPE_ERROR;
                  rpc_data := VObj [("message", message); ("stack", stack)] |}
  = Ok (error_buffer id message stack).
Proof. reflexivity. Qed.

Lemma callback_ok key args st :
  callback None key args st
  = ({| srv_written := srv_written st ++ [callback_buffer (key, args)];
        srv_logged := srv_logged st |}, Ok tt).
Proof.
  unfold callback. by rewrite buildRpcItemData_values, buildRpcData_callback.
Qed.

Lemma callback_errored error key args st :
  callback (Some error) key args st
  = (st, Throw (PlainError "rpc callback writer.write()")).
Proof.
  unfold callback. by rewrite buildRpcItemData_values, buildRpcData_callback.
Qed.

Lemma run_procedure_trace params p : forall st,
  run_procedure None params p st
  = ({| srv_written := srv_written st ++ map callback_buffer (proc_trace params p).1;
        srv_logged := srv_logged st |},
     (proc_trace params p).2).
Proof.
  induction p as [v|e|i args k IH]; intros st; cbn [run_procedure proc_trace].
  - cbn [fst snd map]. rewrite app_nil_r. by destruct st.
  - cbn [fst snd map]. rewrite app_nil_r. by destruct st.
  - destruct (params !! i) as [[v|key]|]; [apply IH| |apply IH].
    rewrite callback_ok, IH.
    destruct (proc_trace params (k (Ok tt))) as [calls r].
    cbn [fst snd map srv_written srv_logged]. by rewrite <- (assoc (++)).
Qed.

Lemma run_procedure_errored error params p : forall st,
  exists r, run_procedure (Some error) params p st = (st, r).
Proof.
  induction p as [v|e|i args k IH]; intros st; cbn [run_procedure]; [by eexists..|].
  destruct (params !! i) as [[v|key]|]; [apply IH| |apply IH].
  rewrite callback_errored. apply IH.
Qed.

(** What the [try] block leaves when the writer takes what it is given:
    CALLBACK messages written, the id of the request in [dataId], and a
    RETURN box with that id if it did not throw. *)
Lemma rpcRunServerDecodeBuffer_try_shape extension buffer st :
  exists calls vars tried,
    rpcRunServerDecodeBuffer_try extension None buffer st
    = ({| srv_written := srv_written st ++ map callback_buffer calls;
          srv_logged := srv_logged st |}, vars, tried)
    /\ var_dataId vars = request_id buffer
    /\ forall box, tried = Ok box ->
         rpc_id box = request_id buffer /\ rpc_type box = VNum RPC_TYPE_RETURN.
Proof.
  assert (Hsame : st = {| srv_written := srv_written st ++ map callback_buffer [];
                          srv_logged := srv_logged st |}).
  { cbn [map]. rewrite app_nil_r. by destruct st. }
  unfold rpcRunServerDecodeBuffer_try, request_id.
  destruct (parseRpcData buffer) as [o|e];
    [|exists []; eexists _, _; split; [by rewrite <- Hsame|done]].
  destruct (items_at0 (rpc_data o) ≫= _) as [fnName|e];
    [|exists []; eexists _, _; split; [by rewrite <- Hsame|done]].
  destruct (items_slice1 (rpc_data o)) as [args|e];
    [|exists []; eexists _, _; split; [by rewrite <- Hsame|done]].
  destruct (build_params args []) as [params [[]|e]];
    [|exists []; eexists _, _; split; [by rewrite <- Hsame|done]].
  destruct (ToString fnName) as [name|e];
    [|exists []; eexists _, _; split; [by rewrite <- Hsame|done]].
  destruct (ext_method extension name) as [f|];
    [|exists []; eexists _, _; split; [by rewrite <- Hsame|done]].
  rewrite run_procedure_trace.
  destruct (proc_trace params (f params)) as [calls [ret|e]]; cbn [fst snd];
    exists calls; eexists _, _; (split; [reflexivity|]); (split; [done|]).
  - by intros box [= <-].
  - done.
Qed.

Lemma rpcRunServerDecodeBuffer_try_errored extension error buffer st :
  exists vars tried,
    rpcRunServerDecodeBuffer_try extension (Some error) buffer st = (st, vars, tried).
Proof.
  unfold rpcRunServerDecodeBuffer_try.
  destruct (parseRpcData buffer) as [o|e]; [|by eexists _, _].
  destruct (items_at0 (rpc_data o) ≫= _) as [fnName|e]; [|by eexists _, _].
  destruct (items_slice1 (rpc_data o)) as [args|e]; [|by eexists _, _].
  destruct (build_params args []) as [params [[]|e]]; [|by eexists _, _].
  destruct (ToString fnName) as [name|e]; [|by eexists _, _].
  destruct (ext_method extension name) as [f|]; [|by eexists _, _].
  destruct (run_procedure_errored error params (f params) st) as [[ret|e] ->];
    by eexists _, _.
Qed.

(** Reading the message and the stack of what was caught throws nothing
    but a [TypeError]. *)
Lemma error_fields_throw error e :
  (message ← error_message error;
   stack ← error_stack error;
   Ok (message, stack)) = Throw e ->
  exists msg, e = TypeError msg.
Proof.
  assert (Hget : forall v name e', JsValue.get v name = Throw e' ->
    exists msg, e' = TypeError msg).
  { intros [] name e' Hg; cbn in Hg; try done; injection Hg as <-; by eexists. }
  destruct error as [msg|msg|msg| |message stack|reason];
    cbn [error_message error_stack mbind result_bind]; try done.
  - destruct (match message with
              | VUndefined => Ok (VStr EmptyString)
              | _ => s ← ToString message; Ok (VStr s)
              end) as [m|e'] eqn:Hm; cbn [mbind result_bind].
    + by destruct stack.
    + intros [= <-].
      destruct message; try done;
        match type of Hm with
        | context [ToString ?v] =>
            destruct (ToString v) as [s|e3] eqn:Hs; cbn [mbind result_bind] in Hm;
              [done|]; injection Hm as <-; by apply (ToString_throw v)
        end.
  - destruct (JsValue.get reason "message") as [m|e'] eqn:Hm; cbn [mbind result_bind].
    + destruct (JsValue.get reason "stack") as [s|e''] eqn:Hs; cbn [mbind result_bind];
        [done|]. intros [= <-]. by eapply Hget.
    + intros [= <-]. by eapply Hget.
Qed.

Section WithSerializerLaw.
Hypothesis unpack_pack : forall v, packr_unpack (packr_pack v) = Ok v.

Lemma parse_callback_buffer (call : value * list value) :
  parseRpcData (callback_buffer call)
  = Ok {| rpc_id := call.1; rpc_type := VNum RPC_TYPE_CALLBACK;
          rpc_data := VArr (map (fun td => arg_item td.1 td.2)
                              (map (fun v => (VNum RPC_DATA_ARG_TYPE_OTHERS, v))
                                 call.2)) |}.
Proof.
  destruct call as [key args].
  destruct (roundtrip_items unpack_pack key RPC_TYPE_CALLBACK
              (map (fun v => (VNum RPC_DATA_ARG_TYPE_OTHERS, v)) args))
    as (buffer & Hbuild & Hparse); [by right|].
  rewrite buildRpcData_callback in Hbuild. by injection Hbuild as <-.
Qed.

Lemma parse_return_buffer id ret :
  parseRpcData (return_buffer id ret)
  = Ok {| rpc_id := id; rpc_type := VNum RPC_TYPE_RETURN; rpc_data := ret |}.
Proof.
  destruct (roundtrip_plain unpack_pack id RPC_TYPE_RETURN ret)
    as (buffer & Hbuild & Hparse); [done..|].
  rewrite buildRpcData_return in Hbuild. by injection Hbuild as <-.
Qed.

Lemma parse_error_buffer id message stack :
  parseRpcData (error_buffer id message stack)
  = Ok {| rpc_id := id; rpc_type := VNum RPC_TYPE_ERROR;
          rpc_data := VObj [("message", message); ("stack", stack)] |}.
Proof.
  destruct (roundtrip_plain unpack_pack id RPC_TYPE_ERROR
              (VObj [("message", message); ("stack", stack)]))
    as (buffer & Hbuild & Hparse); [done..|].
  rewrite buildRpcData_error in Hbuild. by injection Hbuild as <-.
Qed.

Lemma rpcRunServerDecodeBuffer_catch_shape vars tried id :
  var_dataId vars = id ->
  (forall box, tried = Ok box -> rpc_id box = id /\ rpc_type box = VNum RPC_TYPE_RETURN) ->
  match rpcRunServerDecodeBuffer_catch vars tried with
  | Ok box =>
      rpc_id box = id
      /\ (rpc_type box = VNum RPC_TYPE_RETURN \/ rpc_type box = VNum RPC_TYPE_ERROR)
  | Throw e =>
      exists error,
        tried = Throw error
        /\ (error_message error = Throw e
            \/ exists message,
                 error_message error = Ok message /\ error_stack error = Throw e)
  end.
Proof.
  intros Hid Hbox. destruct tried as [box|error]; cbn [rpcRunServerDecodeBuffer_catch].
  { destruct (Hbox box eq_refl). split; [done|by left]. }
  destruct (error_message error) as [m|e] eqn:Hm; cbn [mbind result_bind] in *.
  - destruct (error_stack error) as [s|e] eqn:Hs; cbn [mbind result_bind] in *.
    + split; [done|by right].
    + exists error. split; [done|]. right. by exists m.
  - exists error. split; [done|]. by left.
Qed.

Lemma rpcRunServerDecodeBuffer_reply_shape logger elapsed vars box t st :
  rpc_type box = VNum t ->
  t = RPC_TYPE_RETURN \/ t = RPC_TYPE_ERROR ->
  exists st' r,
    rpcRunServerDecodeBuffer_reply None logger elapsed vars box st = (st', r)
    /\ match r with
       | Ok _ =>
           exists reply,
             srv_written st' = srv_written st ++ [reply]
             /\ parseRpcData reply = Ok box
       | Throw e =>
           srv_written st' = srv_written st
           /\ exists f,
                logger = Some f
                /\ (log_line elapsed (var_fnName vars) (var_params vars) = Throw e
                    \/ exists line,
                         log_line elapsed (var_fnName vars) (var_params vars) = Ok line
                         /\ f line = Throw e)
       end.
Proof.
  intros Hbt Ht. destruct box as [id type data]. cbn in Hbt. subst type.
  destruct (roundtrip_plain unpack_pack id t data) as (reply & Hbuild & Hparse).
  { by destruct Ht as [-> | ->]. }
  { by destruct Ht as [-> | ->]. }
  unfold rpcRunServerDecodeBuffer_reply. rewrite Hbuild.
  destruct logger as [f|].
  - destruct (log_line elapsed (var_fnName vars) (var_params vars)) as [line|e] eqn:Hl.
    + destruct (f line) as [[]|e] eqn:Hf.
      * eexists _, _. split; [reflexivity|]. by exists reply.
      * eexists _, _. split; [reflexivity|]. split; [done|].
        exists f. split; [done|]. right. by exists line.
    + eexists _, _. split; [reflexivity|]. split; [done|].
      exists f. split; [done|]. by left.
  - eexists _, _. split; [reflexivity|]. by exists reply.
Qed.

(** One run of [rpcRunServerDecodeBuffer] with a writer that takes what
    it is given. *)
Lemma rpcRunServerDecodeBuffer_shape extension buffer logger clock st :
  exists st' r callbacks vars tried,
    rpcRunServerDecodeBuffer extension None buffer logger clock st = (st', r)
    /\ rpcRunServerDecodeBuffer_try extension None buffer st
       = ({| srv_written := srv_written st ++ callbacks;
             srv_logged := srv_logged st |}, vars, tried)
    /\ Forall (fun b => exists key items,
                 parseRpcData b
                 = Ok {| rpc_id := key; rpc_type := VNum RPC_TYPE_CALLBACK;
                         rpc_data := VArr items |}) callbacks
    /\ match r with
       | Ok _ =>
           exists reply t data,
             srv_written st' = srv_written st ++ callbacks ++ [reply]
             /\ parseRpcData reply
                = Ok {| rpc_id := request_id buffer; rpc_type := VNum t;
                        rpc_data := data |}
             /\ (t = RPC_TYPE_RETURN \/ t = RPC_TYPE_ERROR)
             /\ rpcRunServerDecodeBuffer_catch vars tried
                = Ok {| rpc_id := request_id buffer; rpc_type := VNum t;
                        rpc_data := data |}
       | Throw e =>
           srv_written st' = srv_written st ++ callbacks
           /\ ((exists error,
                  tried = Throw error
                  /\ (error_message error = Throw e
                      \/ exists message,
                           error_message error = Ok message
                           /\ error_stack error = Throw e))
               \/ exists f,
                    logger = Some f
                    /\ (log_line (clock.2 - clock.1) (var_fnName vars) (var_params vars)
                        = Throw e
                        \/ exists line,
                             log_line (clock.2 - clock.1) (var_fnName vars)
                               (var_params vars) = Ok line
                             /\ f line = Throw e))
       end.
Proof.
  unfold rpcRunServerDecodeBuffer.
  destruct (rpcRunServerDecodeBuffer_try_shape extension buffer st)
    as (calls & vars & tried & Htry & Hid & Hbox).
  rewrite Htry.
  assert (Hcalls : Forall (fun b => exists key items,
    parseRpcData b
    = Ok {| rpc_id := key; rpc_type := VNum RPC_TYPE_CALLBACK;
            rpc_data := VArr items |}) (map callback_buffer calls)).
  { apply Forall_map, Forall_forall. intros call _. cbn.
    rewrite parse_callback_buffer. by eexists _, _. }
  pose proof (rpcRunServerDecodeBuffer_catch_shape vars tried _ Hid Hbox) as Hcatch.
  destruct (rpcRunServerDecodeBuffer_catch vars tried) as [box|e] eqn:Hc.
  - destruct Hcatch as [Hbid Hbt].
    assert (exists t, rpc_type box = VNum t
                      /\ (t = RPC_TYPE_RETURN \/ t = RPC_TYPE_ERROR)) as (t & Hbt' & Ht).
    { destruct Hbt as [Hbt|Hbt]; eexists; (split; [exact Hbt|]); [by left|by right]. }
    destruct (rpcRunServerDecodeBuffer_reply_shape logger (clock.2 - clock.1) vars box t
                {| srv_written := srv_written st ++ map callback_buffer calls;
                   srv_logged := srv_logged st |} Hbt' Ht)
      as (st' & r & -> & Hr).
    exists st', r, (map callback_buffer calls), vars, tried.
    split; [done|]. split; [done|]. split; [done|].
    destruct r as [[]|e].
    + destruct Hr as (reply & Hw & Hparse). exists reply, t, (rpc_data box).
      rewrite Hw. cbn [srv_written]. rewrite <- (assoc (++)). split; [done|].
      assert (Hboxeq : box = {| rpc_id := request_id buffer; rpc_type := VNum t;
                                rpc_data := rpc_data box |}).
      { destruct box. cbn in *. by subst. }
      split; [by rewrite Hparse, Hboxeq at 1|]. split; [done|]. by rewrite <- Hboxeq.
    + destruct Hr as (Hw & Hlog). rewrite Hw. split; [done|]. by right.
  - eexists _, _, (map callback_buffer calls), vars, tried. split; [reflexivity|].
    split; [done|]. split; [done|]. split; [done|]. by left.
Qed.

End WithSerializerLaw.
End ServerFacts.

(** [X16] With a writer that takes what it is given,
    [rpcRunServerDecodeBuffer] answers every record at most once, and
    what decides between a reply and a rejection is stated in full.
    Whatever the buffer, the extension and the logger, the [try] block
    writes CALLBACK messages and leaves a box or what it caught.  When the
    promise of the function is fulfilled, exactly one reply follows the
    CALLBACK messages: it parses as the box the [catch] block leaves, a
    RETURN or an ERROR message which bears the id of the request (0 when
    the request could not be parsed).  When the promise is rejected, no
    reply is written, and the error is one of these: what reading
    [error.message] threw, or what reading [error.stack] threw, for the
    error the [try] block caught; or, with a logger, what making the
    logger line threw (the line is made outside the [try] block, and the
    conversion to a string of the name or of a parameter can throw), or
    what the logger threw on the line. *)
Theorem server_replies_once `{Packr} `{Runtime} (extension : extension)
    (buffer : Uint8Array) (logger : option (string -> result unit))
    (clock : Z * Z) (st : server_state) :
  (forall v, packr_unpack (packr_pack v) = Ok v) ->
  exists st' r callbacks vars tried,
    rpcRunServerDecodeBuffer extension None buffer logger clock st = (st', r)
    /\ rpcRunServerDecodeBuffer_try extension None buffer st
       = ({| srv_written := srv_written st ++ callbacks;
             srv_logged := srv_logged st |}, vars, tried)
    /\ Forall (fun b => exists key items,
                 parseRpcData b
                 = Ok {| rpc_id := key; rpc_type := VNum RPC_TYPE_CALLBACK;
                         rpc_data := VArr items |}) callbacks
    /\ match r with
       | Ok _ =>
           exists reply t data,
             srv_written st' = srv_written st ++ callbacks ++ [reply]
             /\ parseRpcData reply
                = Ok {| rpc_id := request_id buffer; rpc_type := VNum t;
                        rpc_data := data |}
             /\ (t = RPC_TYPE_RETURN \/ t = RPC_TYPE_ERROR)
             /\ rpcRunServerDecodeBuffer_catch vars tried
                = Ok {| rpc_id := request_id buffer; rpc_type := VNum t;
                        rpc_data := data |}
       | Throw e =>
           srv_written st' = srv_written st ++ callbacks
           /\ ((exists error,
                  tried = Throw error
                  /\ (error_message error = Throw e
                      \/ exists message,
                           error_message error = Ok message
                           /\ error_stack error = Throw e))
               \/ exists f,
                    logger = Some f
                    /\ (log_line (clock.2 - clock.1) (var_fnName vars) (var_params vars)
                        = Throw e
                        \/ exists line,
                             log_line (clock.2 - clock.1) (var_fnName vars)
                               (var_params vars) = Ok line
                             /\ f line = Throw e))
       end.
Proof. intros Hlaw. by apply rpcRunServerDecodeBuffer_shape. Qed.

Lemma server_replies_once_witness :
  (exists st' callbacks reply t data,
     @rpcRunServerDecodeBuffer toy_packr toy_runtime toy_extension None
       (@call_buffer toy_packr 0 [ItemValue (VStr "progress"); ItemKey 1])
       None (0%Z, 5%Z) server_init
     = (st', Ok tt)
     /\ length callbacks = 2
     /\ srv_written st' = callbacks ++ [reply]
     /\ @parseRpcData toy_packr reply
        = Ok {| rpc_id := VNum 0; rpc_type := VNum t; rpc_data := data |})
  /\ (exists st' e,
        @rpcRunServerDecodeBuffer toy_packr toy_runtime toy_extension None
          (@call_buffer toy_packr 0
             [ItemValue (VStr "hello"); ItemValue (VObj [("toString", VNum 1)])])
          (Some (fun _ => Ok tt)) (0%Z, 5%Z) server_init
        = (st', Throw e)
        /\ srv_written st' = []
        /\ e = TypeError "Cannot convert object to primitive value").
Proof.
  split.
  - destruct (@server_replies_once toy_packr toy_runtime toy_extension
                (@call_buffer toy_packr 0 [ItemValue (VStr "progress"); ItemKey 1])
                None (0%Z, 5%Z) server_init toy_unpack_pack)
      as (st' & r & callbacks & vars & tried & Hrun & _ & _ & Hr).
    assert (Hcalls : length (srv_written st') = 3 /\ r = Ok tt).
    { revert Hrun. unfold rpcRunServerDecodeBuffer, rpcRunServerDecodeBuffer_try.
      rewrite (@parse_call_buffer toy_packr toy_unpack_pack).
      vm_compute. by intros [= <- <-]. }
    destruct Hcalls as [Hlen ->].
    destruct Hr as (reply & t & data & Hw & Hparse & _).
    exists st', callbacks, reply, t, data. split; [exact Hrun|].
    rewrite Hw in Hlen. cbn [srv_written server_init app] in *.
    rewrite length_app in Hlen. cbn in Hlen.
    split; [lia|]. split; [done|].
    rewrite Hparse. unfold request_id.
    by rewrite (@parse_call_buffer toy_packr toy_unpack_pack).
  - destruct (@server_replies_once toy_packr toy_runtime toy_extension
                (@call_buffer toy_packr 0
                   [ItemValue (VStr "hello"); ItemValue (VObj [("toString", VNum 1)])])
                (Some (fun _ => Ok tt)) (0%Z, 5%Z) server_init toy_unpack_pack)
      as (st' & r & callbacks & vars & tried & Hrun & _ & _ & _).
    revert Hrun. unfold rpcRunServerDecodeBuffer, rpcRunServerDecodeBuffer_try.
    rewrite (@parse_call_buffer toy_packr toy_unpack_pack).
    vm_compute. intros [= <- <-]. by eexists _, _.
Defined.

(** [X17] With a writer whose stream is errored nothing is written and
    the promise of [rpcRunServerDecodeBuffer] is rejected, whatever the
    record; the handler of [createRpcServerHelper] is then rejected on
    the first record, so that no later record is served: at most one
    line reaches the logger. *)
Theorem errored_writer_stops_server `{Packr} `{Runtime} (extension : extension)
    (error : exn) (buffer : Uint8Array) (logger : option (string -> result unit))
    (st : server_state) :
  (forall clock, exists st' e,
     rpcRunServerDecodeBuffer extension (Some error) buffer logger clock st
     = (st', Throw e)
     /\ srv_written st' = srv_written st)
  /\ (forall clock n later, exists st' e,
        createRpcServerHelper_run extension (Some error) logger clock n
          (buffer :: later) st
        = (st', Throw e)
        /\ srv_written st' = srv_written st
        /\ length (srv_logged st') <= length (srv_logged st) + 1).
Proof.
  assert (Hone : forall clock, exists st' e,
    rpcRunServerDecodeBuffer extension (Some error) buffer logger clock st
    = (st', Throw e)
    /\ srv_written st' = srv_written st
    /\ length (srv_logged st') <= length (srv_logged st) + 1).
  { intros clock. unfold rpcRunServerDecodeBuffer.
    destruct (rpcRunServerDecodeBuffer_try_errored extension error buffer st)
      as (vars & tried & ->).
    destruct (rpcRunServerDecodeBuffer_catch vars tried) as [box|e].
    2:{ eexists _, _. split; [reflexivity|]. split; [done|lia]. }
    unfold rpcRunServerDecodeBuffer_reply.
    destruct logger as [f|].
    - destruct (log_line _ _ _) as [line|e].
      2:{ eexists _, _. split; [reflexivity|]. split; [done|lia]. }
      destruct (f line) as [[]|e].
      + destruct (buildRpcData box); eexists _, _; (split; [reflexivity|]);
          cbn [srv_written srv_logged]; rewrite ?length_app; cbn [length];
          (split; [done|lia]).
      + eexists _, _. split; [reflexivity|]. cbn [srv_written srv_logged].
        rewrite length_app. cbn [length]. split; [done|lia].
    - destruct (buildRpcData box); eexists _, _; (split; [reflexivity|]);
        (split; [done|lia]). }
  split.
  - intros clock. destruct (Hone clock) as (st' & e & Hrun & Hw & _). by exists st', e.
  - intros clock n later. cbn [createRpcServerHelper_run].
    unfold createRpcServerHelper_write.
    destruct (ext_asyncLocalStorage extension); cbn [negb].
    + destruct (Hone (clock n)) as (st' & e & -> & Hw & Hl). by exists st', e.
    + eexists _, _. split; [reflexivity|]. split; [done|lia].
Qed.

(** [X18] [rpcRunServerDecodeBuffer] never looks at the type of the
    record: two records with the same id and the same data are served
    alike, so a record that is not a CALL is run as a call all the same. *)
Theorem server_ignores_record_type `{Packr} `{Runtime} (extension : extension)
    (writer : option exn) (buffer1 buffer2 : Uint8Array) (o1 o2 : RPC_DATA)
    (logger : option (string -> result unit)) (clock : Z * Z) (st : server_state) :
  parseRpcData buffer1 = Ok o1 ->
  parseRpcData buffer2 = Ok o2 ->
  rpc_id o1 = rpc_id o2 ->
  rpc_data o1 = rpc_data o2 ->
  rpcRunServerDecodeBuffer extension writer buffer1 logger clock st
  = rpcRunServerDecodeBuffer extension writer buffer2 logger clock st.
Proof.
  intros H1 H2 Hid Hdata.
  unfold rpcRunServerDecodeBuffer, rpcRunServerDecodeBuffer_try.
  by rewrite H1, H2, Hid, Hdata.
Qed.

Lemma server_ignores_record_type_witness :
  @rpcRunServerDecodeBuffer toy_packr toy_runtime toy_extension None
    (@packr_pack toy_packr
       (VArr [VNum 7; VNum RPC_TYPE_CALLBACK;
              VArr [VArr [VNum RPC_DATA_ARG_TYPE_OTHERS; VStr "fail"]]]))
    None (0%Z, 0%Z) server_init
  = @rpcRunServerDecodeBuffer toy_packr toy_runtime toy_extension None
      (@call_buffer toy_packr 7 [ItemValue (VStr "fail")])
      None (0%Z, 0%Z) server_init.
Proof.
  eapply (@server_ignores_record_type toy_packr toy_runtime).
  - unfold parseRpcData. rewrite toy_unpack_pack. reflexivity.
  - apply (@parse_call_buffer toy_packr toy_unpack_pack).
  - reflexivity.
  - reflexivity.
Defined.

(** [X19] The handler of [createRpcServerHelper] (when [param.async] is
    not set) answers the records in the order they arrive: when every
    [write] was fulfilled, what was written is, for each record in turn,
    the CALLBACK messages of its call followed by its one reply, a RETURN
    or an ERROR message that bears the id of that record. *)
Theorem server_helper_replies_in_order `{Packr} `{Runtime} (extension : extension)
    (logger : option (string -> result unit)) (clock : nat -> Z * Z) (n : nat)
    (records : list Uint8Array) (st st' : server_state) :
  (forall v, packr_unpack (packr_pack v) = Ok v) ->
  createRpcServerHelper_run extension None logger clock n records st = (st', Ok tt) ->
  exists groups,
    srv_written st' = srv_written st ++ concat groups
    /\ Forall2 (fun record group =>
         exists callbacks reply t data,
           group = callbacks ++ [reply]
           /\ Forall (fun b => exists key items,
                        parseRpcData b
                        = Ok {| rpc_id := key; rpc_type := VNum RPC_TYPE_CALLBACK;
                                rpc_data := VArr items |}) callbacks
           /\ parseRpcData reply
              = Ok {| rpc_id := request_id record; rpc_type := VNum t;
                      rpc_data := data |}
           /\ (t = RPC_TYPE_RETURN \/ t = RPC_TYPE_ERROR))
         records groups.
Proof.
  intros Hlaw. revert n st.
  induction records as [|record records IH]; intros n st; cbn [createRpcServerHelper_run].
  { intros [= <-]. exists []. cbn [concat]. by rewrite app_nil_r. }
  unfold createRpcServerHelper_write.
  destruct (ext_asyncLocalStorage extension); cbn [negb]; [|done].
  destruct (rpcRunServerDecodeBuffer_shape Hlaw extension record logger (clock n) st)
    as (st1 & r & callbacks & vars & tried & -> & _ & Hcalls & Hr).
  destruct r as [[]|e]; [|done].
  destruct Hr as (reply & t & data & Hw & Hparse & Ht & _).
  intros Hrest. destruct (IH _ _ Hrest) as (groups & Hw' & Hgroups).
  exists ((callbacks ++ [reply]) :: groups). split.
  - rewrite Hw', Hw. cbn [concat]. by rewrite <- !(assoc (++)).
  - constructor; [|done]. by exists callbacks, reply, t, data.
Qed.

Lemma server_helper_replies_in_order_witness :
  exists st' groups,
    @createRpcServerHelper_run toy_packr toy_runtime toy_extension None None
      (fun _ => (0%Z, 0%Z)) 0
      [@call_buffer toy_packr 0 [ItemValue (VStr "hello"); ItemValue (VStr "x")];
       @call_buffer toy_packr 1 [ItemValue (VStr "fail")]] server_init
    = (st', Ok tt)
    /\ srv_written st' = concat groups
    /\ length groups = 2.
Proof.
  pose (records :=
    [@call_buffer toy_packr 0 [ItemValue (VStr "hello"); ItemValue (VStr "x")];
     @call_buffer toy_packr 1 [ItemValue (VStr "fail")]]).
  assert (Hrun : exists st',
    @createRpcServerHelper_run toy_packr toy_runtime toy_extension None None
      (fun _ => (0%Z, 0%Z)) 0 records server_init = (st', Ok tt)).
  { cbn [createRpcServerHelper_run records]. unfold createRpcServerHelper_write.
    cbn [toy_extension ext_asyncLocalStorage negb].
    unfold rpcRunServerDecodeBuffer, rpcRunServerDecodeBuffer_try.
    rewrite !(@parse_call_buffer toy_packr toy_unpack_pack).
    vm_compute. by eexists. }
  destruct Hrun as [st' Hrun].
  destruct (@server_helper_replies_in_order toy_packr toy_runtime toy_extension None
              (fun _ => (0%Z, 0%Z)) 0 records server_init st' toy_unpack_pack Hrun)
    as (groups & Hw & Hgroups).
  exists st', groups. split; [exact Hrun|]. split; [exact Hw|].
  by rewrite <- (Forall2_length _ _ _ Hgroups).
Defined.

(** ** A call from end to end *)

Lemma build_params_items (items : list (value * value)) : forall params,
  build_params (map (fun td => arg_item td.1 td.2) items) params
  = (params ++ map param_of_item items, Ok tt).
Proof.
  induction items as [|[t d] items IH]; intros params; cbn [map build_params].
  { by rewrite app_nil_r. }
  change (JsValue.get (arg_item (t, d).1 (t, d).2) "type") with (Ok t).
  change (JsValue.get (arg_item (t, d).1 (t, d).2) "data") with (Ok d).
  unfold param_of_item at 1. cbn [fst snd].
  destruct (JsValue.loose_eq_num t RPC_DATA_ARG_TYPE_FUNCTION);
    by rewrite IH, <- (assoc (++)).
Qed.

Lemma params_of_args_wire (args : list js_arg) : forall key,
  map param_of_item (map wire_item (arg_array_of args key)) = params_of_args args key.
Proof.
  induction args as [|[v|f|f [data|e]] args IH]; intros key; [done|..];
    cbn [arg_array_of map params_of_args]; by rewrite IH.
Qed.

Lemma instances_return (args : list js_arg) :
  functions_are_instances args -> callables_return args.
Proof. intros Hinst. eapply Forall_impl; [exact Hinst|]. by intros []. Qed.

Lemma params_of_args_callback (args : list js_arg) : forall key i v,
  functions_are_instances args ->
  params_of_args args key !! i = Some (ParamCallback v) ->
  exists k f,
    v = VNum k /\ (key <= k)%Z
    /\ functions_of args !! Z.to_nat (k - key) = Some f.
Proof.
  induction args as [|[w|f|f called] args IH]; intros key i v Hinst; [done|..];
    cbn [params_of_args functions_of]; apply Forall_cons in Hinst as [Harg Hinst];
    [| |done].
  - destruct i as [|i]; [done|]. by apply IH.
  - destruct i as [|i].
    + intros [= <-]. exists key, f. by rewrite Z.sub_diag.
    + intros Hi. destruct (IH _ _ _ Hinst Hi) as (k & g & -> & Hk & Hg).
      exists k, g. split; [done|]. split; [lia|].
      by replace (Z.to_nat (k - key)) with (S (Z.to_nat (k - (key + 1)))) by lia.
Qed.

Lemma proc_trace_keys params p : forall call,
  call ∈ (proc_trace params p).1 ->
  exists i, params !! i = Some (ParamCallback call.1).
Proof.
  induction p as [v|e|i args k IH]; intros call; cbn [proc_trace fst].
  - by intros ?%elem_of_nil.
  - by intros ?%elem_of_nil.
  - destruct (params !! i) as [[v|key]|] eqn:Hi; [apply IH| |apply IH].
    specialize (IH (Ok tt) call).
    destruct (proc_trace params (k (Ok tt))) as [calls r]. cbn [fst] in *.
    intros [->|Hin]%elem_of_cons; [by exists i|by apply IH].
Qed.

Section EndToEnd.
Context `{Packr} `{Runtime}.
Hypothesis unpack_pack : forall v, packr_unpack (packr_pack v) = Ok v.

(** The server on a record whose data is a list of items, the first of
    which holds the name. *)
Lemma rpcRunServerDecodeBuffer_call extension buffer logger clock st
    id type t0 fnName name (items : list (value * value)) calls outcome reply :
  parseRpcData buffer
  = Ok {| rpc_id := id; rpc_type := type;
          rpc_data := VArr (arg_item t0 fnName
                            :: map (fun td => arg_item td.1 td.2) items) |} ->
  (forall f, logger = Some f ->
     exists line,
       log_line (clock.2 - clock.1) fnName (map param_of_item items) = Ok line
       /\ f line = Ok tt) ->
  ToString fnName = Ok name ->
  serve extension name (map param_of_item items) = (calls, outcome) ->
  match outcome with
  | Ok ret => reply = return_buffer id ret
  | Throw error =>
      exists m s,
        error_message error = Ok m /\ error_stack error = Ok s
        /\ reply = error_buffer id m s
  end ->
  exists st',
    rpcRunServerDecodeBuffer extension None buffer logger clock st = (st', Ok tt)
    /\ srv_written st' = srv_written st ++ map callback_buffer calls ++ [reply].
Proof.
  intros Hparse Hlog Hname Hserve Hreply.
  unfold rpcRunServerDecodeBuffer, rpcRunServerDecodeBuffer_try.
  rewrite Hparse. cbn [rpc_id rpc_data items_at0 items_slice1 JsValue.iterate
    mbind result_bind].
  change (JsValue.pattern_nth (arg_item t0 fnName :: ?l) 0) with (arg_item t0 fnName).
  change (JsValue.get (arg_item t0 fnName) "data") with (Ok fnName).
  cbn [drop]. rewrite drop_0, build_params_items, Hname. cbn [app].
  assert (Hend : forall id' box st1,
    srv_written st1 = srv_written st ++ map callback_buffer calls ->
    buildRpcData box = Ok reply ->
    exists st',
      rpcRunServerDecodeBuffer_reply None logger (clock.2 - clock.1)
        {| var_dataId := id'; var_fnName := fnName;
           var_params := map param_of_item items |} box st1
      = (st', Ok tt)
      /\ srv_written st' = srv_written st ++ map callback_buffer calls ++ [reply]).
  { intros id' box st1 Hw Hbuild. unfold rpcRunServerDecodeBuffer_reply.
    rewrite Hbuild. cbn [var_fnName var_params]. destruct logger as [f|].
    - destruct (Hlog f eq_refl) as (line & -> & ->). eexists. split; [reflexivity|].
      cbn [server_write srv_written]. by rewrite Hw, <- (assoc (++)).
    - eexists. split; [reflexivity|].
      cbn [server_write srv_written]. by rewrite Hw, <- (assoc (++)). }
  unfold serve in Hserve.
  destruct (ext_method extension name) as [f|].
  - rewrite run_procedure_trace, Hserve. cbn [fst snd].
    destruct outcome as [ret|error].
    + subst reply. cbn [rpcRunServerDecodeBuffer_catch]. by apply Hend.
    + destruct Hreply as (m & s & Hm & Hs & ->).
      cbn [rpcRunServerDecodeBuffer_catch]. rewrite Hm, Hs. cbn [mbind result_bind].
      by apply Hend.
  - injection Hserve as <- <-. destruct Hreply as (m & s & Hm & Hs & ->).
    cbn [rpcRunServerDecodeBuffer_catch]. rewrite Hm, Hs. cbn [mbind result_bind].
    apply Hend; [|done]. cbn [map]. by rewrite app_nil_r.
Qed.

(** The server on the CALL message of an [apiInvoke]. *)
Lemma rpcRunServerDecodeBuffer_invoke extension logger clock srv
    id fnName args calls outcome reply :
  (forall f, logger = Some f ->
     exists line,
       log_line (clock.2 - clock.1) (VStr fnName) (params_of_args args (id + 1))
       = Ok line
       /\ f line = Ok tt) ->
  serve extension fnName (params_of_args args (id + 1)) = (calls, outcome) ->
  match outcome with
  | Ok ret => reply = return_buffer (VNum id) ret
  | Throw error =>
      exists m s,
        error_message error = Ok m /\ error_stack error = Ok s
        /\ reply = error_buffer (VNum id) m s
  end ->
  exists srv',
    rpcRunServerDecodeBuffer extension None
      (call_buffer id (ItemValue (VStr fnName) :: arg_array_of args (id + 1)))
      logger clock srv
    = (srv', Ok tt)
    /\ srv_written srv' = srv_written srv ++ map callback_buffer calls ++ [reply].
Proof.
  intros Hlog Hserve Hreply.
  eapply (rpcRunServerDecodeBuffer_call extension _ logger clock srv (VNum id)
            (VNum RPC_TYPE_CALL) (VNum RPC_DATA_ARG_TYPE_OTHERS) (VStr fnName) fnName
            (map wire_item (arg_array_of args (id + 1)))); [| |done| |done].
  - rewrite (parse_call_buffer unpack_pack). unfold call_record.
    cbn [map wire_item fst snd]. by rewrite map_map.
  - by rewrite params_of_args_wire.
  - by rewrite params_of_args_wire.
Qed.

Lemma onmessages_cons buffer buffers st :
  onmessages (buffer :: buffers) st = onmessages buffers (onmessage buffer st).
Proof. done. Qed.

Lemma onmessages_app buffers1 buffers2 st :
  onmessages (buffers1 ++ buffers2) st = onmessages buffers2 (onmessages buffers1 st).
Proof. apply foldl_app. Qed.

(** The client on the CALLBACK messages of calls whose keys name
    callback slots. *)
Lemma onmessages_callbacks args key (calls : list (value * list value)) : forall st,
  (forall call, call ∈ calls ->
     exists k f,
       call.1 = VNum k /\ (key <= k)%Z
       /\ functions_of args !! Z.to_nat (k - key) = Some f
       /\ callbackFunctionMap st !! k = Some (slot k f)) ->
  onmessages (map callback_buffer calls) st
  = set_applied (applied st ++ client_calls args key calls) st
  /\ length (client_calls args key calls) = length calls.
Proof.
  induction calls as [|[v cargs] calls IH]; intros st Hcalls.
  { cbn. rewrite app_nil_r. by destruct st. }
  destruct (Hcalls (v, cargs)) as (k & f & Hv & Hk & Hf & Hslot); [by left|].
  cbn [fst] in Hv. subst v.
  cbn [map]. rewrite onmessages_cons.
  rewrite (onmessage_callback _ k
             (map (fun v => (VNum RPC_DATA_ARG_TYPE_OTHERS, v)) cargs) (slot k f) f);
    [|by rewrite parse_callback_buffer|done|done].
  rewrite map_map, map_id.
  destruct (IH (set_applied (applied st ++ [(f, cargs)]) st)) as [-> Hlen].
  { intros call Hin. apply Hcalls. by right. }
  assert (Hhead : client_calls args key ((VNum k, cargs) :: calls)
                  = (f, cargs) :: client_calls args key calls).
  { unfold client_calls. cbn [omap list_omap fst snd function_of_key].
    rewrite decide_True by done. by rewrite Hf. }
  rewrite Hhead. cbn [length]. split; [|by rewrite Hlen].
  unfold_set. by rewrite <- (assoc (++)).
Qed.

(** An [apiInvoke] whose function arguments are async, the server on its
    message and the client on the CALLBACK messages the server wrote. *)
Lemma remote_call_callbacks st srv extension fnName args logger clock
    calls outcome reply :
  functions_are_instances args ->
  Forall is_async (functions_of args) ->
  (forall f, logger = Some f ->
     exists line,
       log_line (clock.2 - clock.1) (VStr fnName)
         (params_of_args args (uniqueKeyID st + 1)) = Ok line
       /\ f line = Ok tt) ->
  serve extension fnName (params_of_args args (uniqueKeyID st + 1)) = (calls, outcome) ->
  match outcome with
  | Ok ret => reply = return_buffer (VNum (uniqueKeyID st)) ret
  | Throw error =>
      exists m s,
        error_message error = Ok m /\ error_stack error = Ok s
        /\ reply = error_buffer (VNum (uniqueKeyID st)) m s
  end ->
  exists st1 call srv',
    apiInvoke_begin fnName args st
    = (st1, Ok {| inv_id := uniqueKeyID st; inv_promise := length (promises st);
                  inv_keys := seqZ (uniqueKeyID st + 1)
                                (Z.of_nat (length (functions_of args))) |})
    /\ written st1 = written st ++ [call]
    /\ rpcRunServerDecodeBuffer extension None call logger clock srv = (srv', Ok tt)
    /\ srv_written srv' = srv_written srv ++ map callback_buffer calls ++ [reply]
    /\ length (client_calls args (uniqueKeyID st + 1) calls) = length calls
    /\ onmessages (map callback_buffer calls) st1
       = {| uniqueKeyID :=
              uniqueKeyID st + 1 + Z.of_nat (length (functions_of args));
            callbackFunctionMap :=
              register_slots (functions_of args) (uniqueKeyID st + 1)
                (<[uniqueKeyID st := waiter (uniqueKeyID st) (length (promises st))]>
                   (callbackFunctionMap st));
            promises := promises st ++ [Pending];
            written := written st ++ [call];
            applied := applied st
                       ++ client_calls args (uniqueKeyID st + 1) calls |}.
Proof.
  intros Hinst Hargs Hlog Hserve Hreply.
  destruct (rpcRunServerDecodeBuffer_invoke extension logger clock srv
              (uniqueKeyID st) fnName args calls outcome reply Hlog Hserve Hreply)
    as (srv' & Hrun & Hw).
  eexists _, _, srv'.
  split; [by apply apiInvoke_begin_ok; [|apply instances_return]|].
  cbn [written]. split; [done|]. split; [exact Hrun|]. split; [exact Hw|].
  match goal with
  | |- _ /\ onmessages _ ?st1 = _ =>
      destruct (onmessages_callbacks args (uniqueKeyID st + 1) calls st1) as [-> Hlen]
  end.
  - intros call Hin.
    assert (Hcall : call ∈ (proc_trace (params_of_args args (uniqueKeyID st + 1))
                              match ext_method extension fnName with
                              | Some f => f (params_of_args args (uniqueKeyID st + 1))
                              | None => ProcThrow OperationError
                              end).1).
    { unfold serve in Hserve. destruct (ext_method extension fnName).
      - by rewrite Hserve.
      - injection Hserve as <- _. by apply elem_of_nil in Hin. }
    apply proc_trace_keys in Hcall as [i Hi].
    apply params_of_args_callback in Hi as (k & f & Hv & Hk & Hf); [|done].
    exists k, f. split; [done|]. split; [done|]. split; [done|].
    cbn [callbackFunctionMap]. rewrite lookup_register_slots.
    pose proof (lookup_lt_Some _ _ _ Hf).
    rewrite decide_True by lia. by rewrite Hf.
  - split; [done|]. by unfold_set.
Qed.

End EndToEnd.

(** [X20] A call from end to end, when the procedure returns.  The
    client starts [apiInvoke] with arguments whose functions are async
    instances of [Function], the server runs [rpcRunServerDecodeBuffer]
    on the buffer the client wrote, with no logger or with a logger whose
    line can be made and which returns on it, and the client handles what
    the server wrote, in order.  Then the callbacks of the client have
    been called once for each call the procedure made of its parameters,
    in that order and with those arguments, by the function that was
    passed at that place; [apiInvoke] returns the value the procedure
    returned; and the table holds what it held before the call. *)
Theorem remote_call_returns `{Packr} `{Runtime} (st : client_state)
    (srv : server_state) (extension : extension) (fnName : string)
    (args : list js_arg) (logger : option (string -> result unit)) (clock : Z * Z)
    (calls : list (value * list value)) (ret : value) :
  (forall v, packr_unpack (packr_pack v) = Ok v) ->
  functions_are_instances args ->
  Forall is_async (functions_of args) ->
  (forall f, logger = Some f ->
     exists line,
       log_line (clock.2 - clock.1) (VStr fnName)
         (params_of_args args (uniqueKeyID st + 1)) = Ok line
       /\ f line = Ok tt) ->
  serve extension fnName (params_of_args args (uniqueKeyID st + 1)) = (calls, Ok ret) ->
  exists st1 inv call srv' replies,
    apiInvoke_begin fnName args st = (st1, Ok inv)
    /\ written st1 = written st ++ [call]
    /\ rpcRunServerDecodeBuffer extension None call logger clock srv = (srv', Ok tt)
    /\ srv_written srv' = srv_written srv ++ replies
    /\ length replies = length calls + 1
    /\ applied (onmessages replies st1)
       = applied st ++ client_calls args (uniqueKeyID st + 1) calls
    /\ length (client_calls args (uniqueKeyID st + 1) calls) = length calls
    /\ exists st3,
         apiInvoke_resume inv (onmessages replies st1) = (st3, Ok (Some ret))
         /\ forall k,
              callbackFunctionMap st3 !! k
              = if decide (uniqueKeyID st <= k
                           < uniqueKeyID st + 1
                             + Z.of_nat (length (functions_of args)))%Z
                then None
                else callbackFunctionMap st !! k.
Proof.
  intros Hlaw Hinst Hargs Hlog Hserve.
  destruct (remote_call_callbacks Hlaw st srv extension fnName args logger clock
              calls (Ok ret) (return_buffer (VNum (uniqueKeyID st)) ret)
              Hinst Hargs Hlog Hserve eq_refl)
    as (st1 & call & srv' & Hbegin & Hw & Hrun & Hsw & Hlen & Hst2).
  eexists st1, _, call, srv',
    (map callback_buffer calls ++ [return_buffer (VNum (uniqueKeyID st)) ret]).
  split; [exact Hbegin|]. split; [exact Hw|]. split; [exact Hrun|].
  split; [exact Hsw|]. split; [rewrite length_app, length_map; cbn; lia|].
  rewrite onmessages_app, Hst2. cbn [onmessages foldl].
  rewrite (onmessage_return _ (uniqueKeyID st) ret
             (waiter (uniqueKeyID st) (length (promises st))) (length (promises st)));
    [|by apply parse_return_buffer| |done].
  2:{ cbn [callbackFunctionMap]. rewrite lookup_register_slots.
      rewrite decide_False by lia. apply lookup_insert_eq. }
  unfold_set. split; [done|]. split; [exact Hlen|].
  unfold apiInvoke_resume. unfold_M. cbn [promises inv_promise inv_keys].
  rewrite settle_lookup_eq, list_lookup_middle by done.
  cbn [fmap option_fmap option_map]. eexists. split; [reflexivity|].
  intros k. unfold_set. rewrite lookup_foldl_delete.
  destruct (decide (k ∈ seqZ (uniqueKeyID st + 1)
                         (Z.of_nat (length (functions_of args))))) as [Hin|Hout].
  - apply elem_of_seqZ in Hin. by rewrite decide_True by lia.
  - rewrite elem_of_seqZ in Hout.
    destruct (decide (k = uniqueKeyID st)) as [->|Hne].
    + rewrite lookup_delete_eq. by rewrite decide_True by lia.
    + rewrite lookup_delete_ne, lookup_register_slots by done.
      rewrite !decide_False by lia. by rewrite lookup_insert_ne.
Qed.

Lemma remote_call_returns_witness :
  exists st1 inv call srv' replies st3,
    @apiInvoke_begin toy_packr "progress" [ArgFunction async_fn] client_init
    = (st1, Ok inv)
    /\ written st1 = [call]
    /\ @rpcRunServerDecodeBuffer toy_packr toy_runtime toy_extension None call
         (Some (fun _ => Ok tt)) (0%Z, 3%Z) server_init
       = (srv', Ok tt)
    /\ srv_written srv' = replies
    /\ applied (@onmessages toy_packr replies st1)
       = [(async_fn, [VStr "progress 0"]); (async_fn, [VStr "progress 1"])]
    /\ apiInvoke_resume inv (@onmessages toy_packr replies st1)
       = (st3, Ok (Some (VStr "done")))
    /\ callbackFunctionMap st3 = ∅.
Proof.
  destruct (@remote_call_returns toy_packr toy_runtime client_init server_init
              toy_extension "progress" [ArgFunction async_fn]
              (Some (fun _ => Ok tt)) (0%Z, 3%Z)
              [(VNum 1, [VStr "progress 0"]); (VNum 1, [VStr "progress 1"])]
              (VStr "done") toy_unpack_pack)
    as (st1 & inv & call & srv' & replies & Hbegin & Hw & Hrun & Hsw & _ & Happ
        & _ & st3 & Hresume & Htable).
  - by repeat constructor.
  - by repeat constructor.
  - intros f [= <-]. eexists. split; reflexivity.
  - reflexivity.
  - exists st1, inv, call, srv', replies, st3.
    split; [exact Hbegin|]. split; [exact Hw|]. split; [exact Hrun|].
    split; [exact Hsw|]. split; [exact Happ|]. split; [exact Hresume|].
    apply map_eq. intros k. rewrite Htable, lookup_empty. by case_decide.
Defined.

(** [X21] A call from end to end, when the procedure throws, or when
    the extension has no such procedure.  The arguments and the logger
    are as for a call that returns, and the message and the stack of the
    error can be read.  The server replies with an ERROR message and the
    callbacks have been called as the procedure called them.  When
    [RPCError] can convert the message, [apiInvoke] throws an [RPCError]
    that has the message of the remote error and, if it is truthy, its
    stack; the callback keys of the invocation are out of the table, and
    the entry of the call id is still in it.  When it cannot, the
    constructor throws in the handler, whose [catch] fails every pending
    call: [apiInvoke] throws that error and the table is empty. *)
Theorem remote_call_throws `{Packr} `{Runtime} (st : client_state)
    (srv : server_state) (extension : extension) (fnName : string)
    (args : list js_arg) (logger : option (string -> result unit)) (clock : Z * Z)
    (calls : list (value * list value)) (error : exn) (message stack : value) :
  (forall v, packr_unpack (packr_pack v) = Ok v) ->
  functions_are_instances args ->
  Forall is_async (functions_of args) ->
  (forall f, logger = Some f ->
     exists line,
       log_line (clock.2 - clock.1) (VStr fnName)
         (params_of_args args (uniqueKeyID st + 1)) = Ok line
       /\ f line = Ok tt) ->
  serve extension fnName (params_of_args args (uniqueKeyID st + 1))
  = (calls, Throw error) ->
  error_message error = Ok message ->
  error_stack error = Ok stack ->
  exists st1 inv call srv' replies,
    apiInvoke_begin fnName args st = (st1, Ok inv)
    /\ written st1 = written st ++ [call]
    /\ rpcRunServerDecodeBuffer extension None call logger clock srv = (srv', Ok tt)
    /\ srv_written srv' = srv_written srv ++ replies
    /\ length replies = length calls + 1
    /\ applied (onmessages replies st1)
       = applied st ++ client_calls args (uniqueKeyID st + 1) calls
    /\ (forall remote,
          new_RPCError message stack = Ok remote ->
          exists st3,
            apiInvoke_resume inv (onmessages replies st1) = (st3, Throw remote)
            /\ callbackFunctionMap st3 !! uniqueKeyID st
               = Some (waiter (uniqueKeyID st) (length (promises st)))
            /\ forall key, key ∈ inv_keys inv -> callbackFunctionMap st3 !! key = None)
    /\ (forall e,
          new_RPCError message stack = Throw e ->
          exists st3,
            apiInvoke_resume inv (onmessages replies st1) = (st3, Throw e)
            /\ callbackFunctionMap st3 = ∅).
Proof.
  intros Hlaw Hinst Hargs Hlog Hserve Hm Hs.
  destruct (remote_call_callbacks Hlaw st srv extension fnName args logger clock
              calls (Throw error) (error_buffer (VNum (uniqueKeyID st)) message stack)
              Hinst Hargs Hlog Hserve)
    as (st1 & call & srv' & Hbegin & Hw & Hrun & Hsw & Hlen & Hst2).
  { by exists message, stack. }
  eexists st1, _, call, srv',
    (map callback_buffer calls
     ++ [error_buffer (VNum (uniqueKeyID st)) message stack]).
  split; [exact Hbegin|]. split; [exact Hw|]. split; [exact Hrun|].
  split; [exact Hsw|]. split; [rewrite length_app, length_map; cbn; lia|].
  rewrite onmessages_app, Hst2. cbn [onmessages foldl].
  match goal with
  | |- context [onmessage _ ?st2] =>
      assert (Hwaiter : callbackFunctionMap st2 !! uniqueKeyID st
                        = Some (waiter (uniqueKeyID st) (length (promises st))))
  end.
  { cbn [callbackFunctionMap]. rewrite lookup_register_slots.
    rewrite decide_False by lia. apply lookup_insert_eq. }
  destruct (new_RPCError message stack) as [remote|e] eqn:Hnew.
  - rewrite (onmessage_error _ (uniqueKeyID st)
               (VObj [("message", message); ("stack", stack)])
               (waiter (uniqueKeyID st) (length (promises st))) (length (promises st))
               message stack remote);
      [|by apply parse_error_buffer|done..].
    unfold_set. split; [done|]. split; [|done]. intros ? [= <-].
    unfold apiInvoke_resume. unfold_M. cbn [promises inv_promise inv_keys].
    rewrite settle_lookup_eq, list_lookup_middle by done.
    cbn [fmap option_fmap option_map]. eexists. split; [reflexivity|].
    unfold_set. split.
    + rewrite lookup_foldl_delete, decide_False by (rewrite elem_of_seqZ; lia).
      rewrite lookup_register_slots, decide_False by lia. apply lookup_insert_eq.
    + intros key Hkey. by rewrite lookup_foldl_delete, decide_True.
  - rewrite (onmessage_error_unconverted _ (uniqueKeyID st)
               (VObj [("message", message); ("stack", stack)])
               (waiter (uniqueKeyID st) (length (promises st))) (length (promises st))
               message stack e);
      [|by apply parse_error_buffer|done..].
    split; [done|]. split; [done|]. intros ? [= <-].
    unfold apiInvoke_resume. unfold_M. cbn [inv_promise inv_keys].
    rewrite (reject_all_referenced _ _ _ _ _ Hwaiter eq_refl).
    cbn [promises]. rewrite list_lookup_middle by done.
    cbn [fmap option_fmap option_map]. eexists. split; [reflexivity|].
    unfold_set. rewrite reject_all_table.
    apply map_eq. intros k. rewrite lookup_foldl_delete, lookup_empty.
    by case_decide.
Qed.

Lemma remote_call_throws_witness :
  (exists st1 inv call srv' replies st3,
     @apiInvoke_begin toy_packr "fail" [] client_init = (st1, Ok inv)
     /\ written st1 = [call]
     /\ @rpcRunServerDecodeBuffer toy_packr toy_runtime toy_extension None call
          (Some (fun _ => Ok tt)) (0%Z, 3%Z) server_init
        = (srv', Ok tt)
     /\ srv_written srv' = replies
     /\ apiInvoke_resume inv (@onmessages toy_packr replies st1)
        = (st3, Throw (RPCError (VStr "boom") (Some (VStr "Error: boom at toy"))))
     /\ callbackFunctionMap st3 !! 0%Z = Some (waiter 0 0))
  /\ (exists st1 inv call srv' replies st3,
        @apiInvoke_begin toy_packr "refuse" [] client_init = (st1, Ok inv)
        /\ written st1 = [call]
        /\ @rpcRunServerDecodeBuffer toy_packr toy_runtime toy_extension None call
             None (0%Z, 3%Z) server_init
           = (srv', Ok tt)
        /\ srv_written srv' = replies
        /\ apiInvoke_resume inv (@onmessages toy_packr replies st1)
           = (st3, Throw (TypeError "Cannot convert object to primitive value"))
        /\ callbackFunctionMap st3 = ∅).
Proof.
  split.
  - destruct (@remote_call_throws toy_packr toy_runtime client_init server_init
                toy_extension "fail" [] (Some (fun _ => Ok tt)) (0%Z, 3%Z) []
                (PlainError "boom")
                (VStr "boom") (VStr "Error: boom at toy") toy_unpack_pack)
      as (st1 & inv & call & srv' & replies & Hbegin & Hw & Hrun & Hsw & _ & _
          & Hremote & _).
    + constructor.
    + constructor.
    + intros f [= <-]. eexists. split; reflexivity.
    + reflexivity.
    + reflexivity.
    + reflexivity.
    + destruct (Hremote _ eq_refl) as (st3 & Hresume & Htable & _).
      by exists st1, inv, call, srv', replies, st3.
  - destruct (@remote_call_throws toy_packr toy_runtime client_init server_init
                toy_extension "refuse" [] None (0%Z, 3%Z) []
                (CarrierError
                   (VObj [("message", VObj [("toString", VNum 1)]);
                          ("stack", VStr "at refuse")]))
                (VObj [("toString", VNum 1)]) (VStr "at refuse") toy_unpack_pack)
      as (st1 & inv & call & srv' & replies & Hbegin & Hw & Hrun & Hsw & _ & _
          & _ & Hthrown).
    + constructor.
    + constructor.
    + done.
    + reflexivity.
    + reflexivity.
    + reflexivity.
    + destruct (Hthrown _ eq_refl) as (st3 & Hresume & Htable).
      by exists st1, inv, call, srv', replies, st3.
Defined.

(** ** Text helpers *)

Lemma append_empty_r (s : string) : s +:+ EmptyString = s.
Proof.
  induction s as [|c s IH]; [done|].
  change (String c s +:+ EmptyString) with (String c (s +:+ EmptyString)).
  by rewrite IH.
Qed.

Lemma join_empty_cons (x : string) (l : list string) :
  join EmptyString (x :: l) = x +:+ join EmptyString l.
Proof. destruct l; cbn [join]; [by rewrite append_empty_r|done]. Qed.

(** The two digits written for a byte are hex digits and read back as
    the byte. *)
Lemma hex_byte (b : byte) :
  exists c1 c2,
    padStart2 (Number_toString16 (Js.u8 b)) = String c1 (String c2 EmptyString)
    /\ is_hex c1 && is_hex c2 = true
    /\ Js.to_u8 (parseInt16 (c1, c2)) = b.
Proof. destruct b; do 2 eexists; (split; [reflexivity|]); by vm_compute. Qed.

Lemma hex_match_join (buffer : Uint8Array) :
  map (fun h => Js.to_u8 (parseInt16 h))
    (hex_match
       (join EmptyString
          (map (fun b => padStart2 (Number_toString16 (Js.u8 b))) buffer)))
  = buffer
  /\ String.length
       (join EmptyString
          (map (fun b => padStart2 (Number_toString16 (Js.u8 b))) buffer))
     = 2 * length buffer.
Proof.
  induction buffer as [|b buffer [IH1 IH2]]; [done|].
  cbn [map]. rewrite join_empty_cons.
  destruct (hex_byte b) as (c1 & c2 & -> & Hhex & Hb).
  change (String c1 (String c2 EmptyString) +:+ ?rest)
    with (String c1 (String c2 rest)).
  cbn [hex_match String.length length]. rewrite Hhex.
  cbn [map]. rewrite Hb, IH1, IH2. split; [done|lia].
Qed.

(** [X22] Hex text round trip.  The hex text of a buffer has two
    characters for each byte, and [Uint8Array_from] gives the buffer back
    from it, except for the empty buffer: its hex text is the empty
    string, in which the pattern has no match, and [Uint8Array_from]
    throws a [TypeError]. *)
Theorem hex_round_trip `{TextCodec} (buffer : Uint8Array) :
  String.length (Uint8Array_toString buffer (Some "hex")) = 2 * length buffer
  /\ (buffer ≠ [] ->
      Uint8Array_from (VStr (Uint8Array_toString buffer (Some "hex"))) (Some "hex")
      = Ok buffer)
  /\ (buffer = [] ->
      exists msg,
        Uint8Array_from (VStr (Uint8Array_toString buffer (Some "hex"))) (Some "hex")
        = Throw (TypeError msg)).
Proof.
  destruct (hex_match_join buffer) as [Hmatch Hlen].
  unfold Uint8Array_toString, Uint8Array_from.
  cbn [default from_option encoding_is]. 
  change (String.eqb "hex" "hex") with true.
  change (String.eqb "hex" "base64") with false.
  change (String.eqb "hex" "utf-8") with false.
  cbv iota. split; [exact Hlen|]. split.
  - intros Hne.
    destruct (hex_match _) as [|h matches] eqn:Hm.
    { cbn in Hmatch. by subst. }
    rewrite Hmatch. reflexivity.
  - intros ->. by eexists.
Qed.

(** [X23] Sized string round trip.  For a string whose encoding is
    shorter than 2^32 bytes and is decoded back to it,
    [buildBufferSizeString] gives the length in 4 bytes followed by the
    encoding, and [readBufferSizeString], at the place where these bytes
    begin in a buffer, gives the string back with the number of bytes to
    skip to get behind it. *)
Theorem size_string_round_trip `{TextCodec} (s : string) (pre post : Uint8Array) :
  (Z.of_nat (length (TextEncoder_encode s)) < 2 ^ 32)%Z ->
  TextDecoder_decode (TextEncoder_encode s) = s ->
  exists built,
    buildBufferSizeString s = Ok built
    /\ built = le32 (Z.of_nat (length (TextEncoder_encode s))) ++ TextEncoder_encode s
    /\ readBufferSizeString (pre ++ built ++ post) (length pre)
       = Ok (Z.of_nat (length built), s).
Proof.
  intros Hlen Hdec. eexists. split; [|split; [reflexivity|]].
  - unfold buildBufferSizeString, buildBufferNumberUInt32LE.
    rewrite writeUInt32LE_spec by (cbn; lia).
    cbn [take drop replicate app mbind result_bind Nat.add].
    rewrite Uint8Array_concat_ok. cbn [concat]. by rewrite !app_nil_r.
  - set (n := Z.of_nat (length (TextEncoder_encode s))).
    assert (Hr : readUInt32LE (pre ++ (le32 n ++ TextEncoder_encode s) ++ post)
                   (length pre) = Ok n).
    { rewrite <- (assoc (++) (le32 n)). apply readUInt32LE_le32. lia. }
    assert (Hd : drop (length pre + 4)
                   (pre ++ (le32 n ++ TextEncoder_encode s) ++ post)
                 = TextEncoder_encode s ++ post).
    { rewrite <- (assoc (++) (le32 n)), (assoc (++) pre).
      replace (length pre + 4) with (length (pre ++ le32 n))
        by (by rewrite length_app).
      apply drop_app_length. }
    unfold readBufferSizeString. rewrite Hr. cbn [mbind result_bind].
    rewrite Hd. unfold n at 2. rewrite Nat2Z.id.
    replace (length pre + 4 + length (TextEncoder_encode s) - (length pre + 4))
      with (length (TextEncoder_encode s)) by lia.
    rewrite take_app_length, Hdec.
    do 2 f_equal. rewrite length_app, length_le32. lia.
Qed.

Lemma size_string_round_trip_witness :
  @readBufferSizeString toy_codec
    ([x09] ++ [x02; x00; x00; x00; x68; x69] ++ [x07; x07]) 1
  = Ok (6%Z, "hi").
Proof.
  destruct (@size_string_round_trip toy_codec "hi" [x09] [x07; x07])
    as (built & _ & -> & Hread).
  - done.
  - reflexivity.
  - exact Hread.
Defined.

(** ** The end of an invocation *)

(** [X24] An invocation whose write is rejected throws the error of
    the write and takes its callback slots out of the table, but the
    entry it registered under its call id stays, with a promise that is
    still pending and that the invocation no longer awaits. *)
Theorem write_rejected_leaves_waiter `{Packr} (st st1 : client_state)
    (fnName : string) (args : list js_arg) (inv : invocation) (error : exn) :
  apiInvoke_begin fnName args st = (st1, Ok inv) ->
  exists st3,
    apiInvoke_write_rejected inv error st1 = (st3, Throw error)
    /\ callbackFunctionMap st3 !! inv_id inv
       = Some (waiter (inv_id inv) (inv_promise inv))
    /\ promises st3 !! inv_promise inv = Some Pending
    /\ (forall key, key ∈ inv_keys inv -> callbackFunctionMap st3 !! key = None)
    /\ uniqueKeyID st3 = uniqueKeyID st1.
Proof.
  intros Hbegin.
  destruct (apiInvoke_begin_inv _ _ _ _ _ Hbegin) as [Hargs Hret].
  rewrite apiInvoke_begin_ok in Hbegin by done.
  injection Hbegin as <- <-. unfold apiInvoke_write_rejected. unfold_M.
  cbn [inv_id inv_promise inv_keys]. eexists. split; [reflexivity|].
  unfold_set. split; [|split; [|split; [|done]]].
  - rewrite lookup_foldl_delete, decide_False by (rewrite elem_of_seqZ; lia).
    rewrite lookup_register_slots, decide_False by lia. apply lookup_insert_eq.
  - by apply list_lookup_middle.
  - intros key Hkey. by rewrite lookup_foldl_delete, decide_True.
Qed.

Lemma write_rejected_leaves_waiter_witness :
  exists st3,
    apiInvoke_write_rejected
      {| inv_id := 0; inv_promise := 0; inv_keys := [1%Z] |}
      (PlainError "closed") call_with_callback
    = (st3, Throw (PlainError "closed"))
    /\ callbackFunctionMap st3 !! 0%Z = Some (waiter 0 0)
    /\ callbackFunctionMap st3 !! 1%Z = None.
Proof.
  destruct (@write_rejected_leaves_waiter toy_packr client_init call_with_callback
              "progress" [ArgFunction async_fn]
              {| inv_id := 0; inv_promise := 0; inv_keys := [1%Z] |}
              (PlainError "closed"))
    as (st3 & Hrun & Hwaiter & _ & Hkeys & _).
  - unfold call_with_callback.
    by rewrite (@apiInvoke_begin_ok toy_packr "progress" [ArgFunction async_fn]
                  client_init) by (by repeat constructor).
  - exists st3. split; [exact Hrun|]. split; [exact Hwaiter|].
    apply Hkeys. cbn [inv_keys]. by left.
Defined.

(** [X25] Once an invocation has ended, by returning, by throwing what
    its promise was rejected with or by throwing the error of its write,
    a record that bears one of its callback keys is dropped: the handler
    leaves the state as it is, and in particular calls no callback. *)
Theorem callback_after_end_is_dropped `{Packr} (inv : invocation)
    (st2 st3 : client_state) (r : result (option value)) (buffer : Uint8Array)
    (data : RPC_DATA) (key : Z) :
  (apiInvoke_resume inv st2 = (st3, r) /\ r ≠ Ok None)
  \/ (exists error r', apiInvoke_write_rejected inv error st2 = (st3, r')) ->
  key ∈ inv_keys inv ->
  parseRpcData buffer = Ok data ->
  rpc_id data = VNum key ->
  onmessage buffer st3 = st3.
Proof.
  intros Hend Hkey Hparse Hid.
  apply (onmessage_unknown buffer data); [done|]. rewrite Hid. cbn [map_get].
  assert (Hgone : forall st,
    callbackFunctionMap
      (set_callbackFunctionMap
         (foldl (fun m k => delete k m) (callbackFunctionMap st) (inv_keys inv)) st)
      !! key = None).
  { intros st. unfold_set. by rewrite lookup_foldl_delete, decide_True. }
  destruct Hend as [[Hresume Hr]|(error & r' & Hrejected)].
  - revert Hresume. unfold apiInvoke_resume. unfold_M.
    destruct (promises st2 !! inv_promise inv) as [[|v|error]|];
      intros [= <- <-]; done || apply Hgone.
  - revert Hrejected. unfold apiInvoke_write_rejected. unfold_M.
    intros [= <- _]. apply Hgone.
Qed.

Lemma callback_after_end_is_dropped_witness :
  @onmessage toy_packr
    (@packr_pack toy_packr
       (VArr [VNum 1; VNum RPC_TYPE_CALLBACK;
              VArr [VArr [VNum RPC_DATA_ARG_TYPE_OTHERS; VStr "late"]]]))
    (apiInvoke_write_rejected {| inv_id := 0; inv_promise := 0; inv_keys := [1%Z] |}
       (PlainError "closed") call_with_callback).1
  = (apiInvoke_write_rejected {| inv_id := 0; inv_promise := 0; inv_keys := [1%Z] |}
       (PlainError "closed") call_with_callback).1.
Proof.
  eapply (@callback_after_end_is_dropped toy_packr
            {| inv_id := 0; inv_promise := 0; inv_keys := [1%Z] |}
            call_with_callback _ (Ok None) _ _ 1).
  - right. eexists (PlainError "closed"), _. apply surjective_pairing.
  - cbn [inv_keys]. by left.
  - unfold parseRpcData. rewrite toy_unpack_pack. reflexivity.
  - reflexivity.
Defined.
